(** * SNOMED ValueSet to ECL converter: a shallow embedding

    The script works on JavaScript strings with regular expressions.  A string
    is modelled as the list of its UTF-16 code units, a regular expression as
    its syntax tree, and matching as the backtracking procedure of the
    language definition (greedy quantifiers, leftmost alternative first,
    leftmost start position first).  The functions of the script keep their
    names: trimString, isValidEclExpression, cleanAndStandardizeEcl,
    cleanConceptTerm, extractSnomedEclFromValueSet, getTaggedValue,
    addOrUpdateTaggedValue, convertSingleDataElement and the two batch
    functions.  The repository of the modelling tool is a store of tagged
    values per element; the script's counters and that store make up the
    state that the driver threads through, with exceptions. *)

From Stdlib Require Import Strings.String Strings.Ascii.
From Stdlib Require Import List NArith Arith Bool Lia.
Import ListNotations.
Local Open Scope list_scope.

Set Implicit Arguments.

(** ** Strings *)

Definition jschar := N.
Definition jsstring := list jschar.

(** A source-code string literal, as a list of code units. *)
Definition lit (s : string) : jsstring :=
  List.map N_of_ascii (list_ascii_of_string s).

Definition jschar_eqb (a b : jschar) : bool := N.eqb a b.

Fixpoint jsstring_eqb (a b : jsstring) : bool :=
  match a, b with
  | [], [] => true
  | x :: a', y :: b' => jschar_eqb x y && jsstring_eqb a' b'
  | _, _ => false
  end.

(** JavaScript truthiness of a string: only the empty string is falsy. *)
Definition truthy (s : jsstring) : bool :=
  match s with [] => false | _ => true end.

(** ** Character classes *)

(** [\s]: white space and line terminators. *)
Definition is_space (c : jschar) : bool :=
  ((9 <=? c) && (c <=? 13) || (c =? 32) || (c =? 160) || (c =? 5760)
   || (8192 <=? c) && (c <=? 8202) || (c =? 8232) || (c =? 8233)
   || (c =? 8239) || (c =? 8287) || (c =? 12288) || (c =? 65279))%N.

(** [\d] *)
Definition is_digit (c : jschar) : bool := ((48 <=? c) && (c <=? 57))%N.

(** Line terminators, which [.] does not match. *)
Definition is_line_terminator (c : jschar) : bool :=
  ((c =? 10) || (c =? 13) || (c =? 8232) || (c =? 8233))%N.

(** Canonicalisation under the [i] flag.  Every character written in the
    script's patterns is ASCII, and canonicalisation never maps a non-ASCII
    code unit to an ASCII one, so folding a-z to A-Z decides every
    comparison the patterns make. *)
Definition fold_case (c : jschar) : jschar :=
  if ((97 <=? c) && (c <=? 122))%N then (c - 32)%N else c.

Inductive ClassItem : Type :=
| CChar (c : jschar)
| CSpace
| CDigit.

Inductive Atom : Type :=
| AChar (c : jschar)
| ADot
| ASet (neg : bool) (items : list ClassItem).

Definition char_match (ic : bool) (p c : jschar) : bool :=
  if ic then N.eqb (fold_case p) (fold_case c) else N.eqb p c.

Definition item_match (ic : bool) (it : ClassItem) (c : jschar) : bool :=
  match it with
  | CChar p => char_match ic p c
  | CSpace => is_space c
  | CDigit => is_digit c
  end.

Definition atom_match (ic : bool) (a : Atom) (c : jschar) : bool :=
  match a with
  | AChar p => char_match ic p c
  | ADot => negb (is_line_terminator c)
  | ASet neg items => xorb neg (existsb (fun it => item_match ic it c) items)
  end.

(** ** Regular expressions *)

(** The fragment the script uses: quantifiers [*], [+], [{m,n}] are only ever
    applied to a single character or class; [?] is also applied to groups. *)
Inductive Regex : Type :=
| Eps
| One (a : Atom)
| Rep (a : Atom) (lo : nat) (hi : option nat)
| Opt (r : Regex)
| Seq (r1 r2 : Regex)
| Alt (r1 r2 : Regex)
| Group (n : nat) (r : Regex)
| Bol
| Eol.

Definition Caps := list (nat * jsstring).

Fixpoint cap_lookup (n : nat) (caps : Caps) : option jsstring :=
  match caps with
  | [] => None
  | (m, s) :: caps' => if Nat.eqb m n then Some s else cap_lookup n caps'
  end.

Definition below (hi : option nat) (n : nat) : bool :=
  match hi with
  | None => true
  | Some h => Nat.ltb n h
  end.

Section Matcher.

Variable ic : bool.
Variable R : Type.

(** A continuation receives the index reached, the rest of the input and
    the captures so far. *)
Definition Cont := nat -> jsstring -> Caps -> option R.

(** Greedy repetition of an atom: take one more character when allowed and
    come back to the shorter match when the continuation fails. *)
Fixpoint rep_match (a : Atom) (lo : nat) (hi : option nat) (n i : nat)
         (s : jsstring) (caps : Caps) (k : Cont) {struct s} : option R :=
  let stop := if Nat.leb lo n then k i s caps else None in
  match s with
  | c :: s' =>
      if atom_match ic a c && below hi n then
        match rep_match a lo hi (S n) (S i) s' caps k with
        | Some x => Some x
        | None => stop
        end
      else stop
  | [] => stop
  end.

Fixpoint rmatch (r : Regex) (i : nat) (s : jsstring) (caps : Caps)
         (k : Cont) {struct r} : option R :=
  match r with
  | Eps => k i s caps
  | One a =>
      match s with
      | c :: s' => if atom_match ic a c then k (S i) s' caps else None
      | [] => None
      end
  | Rep a lo hi => rep_match a lo hi 0 i s caps k
  | Opt r1 =>
      match rmatch r1 i s caps
              (fun j s' caps' => if Nat.eqb j i then None else k j s' caps')
      with
      | Some x => Some x
      | None => k i s caps
      end
  | Seq r1 r2 =>
      rmatch r1 i s caps (fun j s' caps' => rmatch r2 j s' caps' k)
  | Alt r1 r2 =>
      match rmatch r1 i s caps k with
      | Some x => Some x
      | None => rmatch r2 i s caps k
      end
  | Group n r1 =>
      rmatch r1 i s caps
        (fun j s' caps' => k j s' ((n, firstn (j - i) s) :: caps'))
  | Bol => if Nat.eqb i 0 then k i s caps else None
  | Eol => match s with [] => k i s caps | _ :: _ => None end
  end.

End Matcher.

(** The result of a successful match: where it starts, the matched text and
    the captures. *)
Record MatchResult : Type := mkMatch {
  m_index : nat;
  m_text : jsstring;
  m_caps : Caps
}.

(** Capture [n] of a match; an undefined capture reads as the empty string
    wherever the script uses it (it is only tested for truthiness or passed
    to trimString). *)
Definition cap (m : MatchResult) (n : nat) : jsstring :=
  match cap_lookup n (m_caps m) with
  | Some s => s
  | None => []
  end.

Record RegExp : Type := mkRegExp {
  re_body : Regex;
  re_ignoreCase : bool
}.

(** A match starting exactly at index [i], where [s] is the input from [i]. *)
Definition match_here (re : RegExp) (i : nat) (s : jsstring)
  : option MatchResult :=
  rmatch (re_ignoreCase re) (re_body re) i s []
    (fun j _ caps => Some (mkMatch i (firstn (j - i) s) caps)).

(** Leftmost match at or after index [i]. *)
Fixpoint search (re : RegExp) (i : nat) (s : jsstring) {struct s}
  : option MatchResult :=
  match match_here re i s with
  | Some m => Some m
  | None =>
      match s with
      | [] => None
      | _ :: s' => search re (S i) s'
      end
  end.

(** [str.match(re)] for a pattern without the [g] flag. *)
Definition js_match (re : RegExp) (s : jsstring) : option MatchResult :=
  search re 0 s.

(** [re.test(str)] *)
Definition js_test (re : RegExp) (s : jsstring) : bool :=
  match js_match re s with Some _ => true | None => false end.

(** [str.replace(re, f)] for a pattern with the [g] flag: every match, left
    to right, non-overlapping; after an empty match the scan moves on by one
    character.  [skip] counts the characters of the last match that are
    still to be dropped. *)
Fixpoint replace_from (re : RegExp) (f : MatchResult -> jsstring) (i : nat)
         (s : jsstring) (skip : nat) {struct s} : jsstring :=
  match skip with
  | S skip' =>
      match s with
      | [] => []
      | _ :: s' => replace_from re f (S i) s' skip'
      end
  | O =>
      match match_here re i s with
      | Some m =>
          f m ++
          match s with
          | [] => []
          | c :: s' =>
              match length (m_text m) with
              | O => c :: replace_from re f (S i) s' 0
              | S n => replace_from re f (S i) s' n
              end
          end
      | None =>
          match s with
          | [] => []
          | c :: s' => c :: replace_from re f (S i) s' 0
          end
      end
  end.

Definition js_replace_all (re : RegExp) (f : MatchResult -> jsstring)
           (s : jsstring) : jsstring :=
  replace_from re f 0 s 0.

(** [str.match(re)] for a pattern with the [g] flag: the texts of all
    matches. *)
Fixpoint match_all_from (re : RegExp) (i : nat) (s : jsstring) (skip : nat)
         {struct s} : list jsstring :=
  match skip with
  | S skip' =>
      match s with
      | [] => []
      | _ :: s' => match_all_from re (S i) s' skip'
      end
  | O =>
      match match_here re i s with
      | Some m =>
          m_text m ::
          match s with
          | [] => []
          | _ :: s' => match_all_from re (S i) s' (length (m_text m) - 1)
          end
      | None =>
          match s with
          | [] => []
          | _ :: s' => match_all_from re (S i) s' 0
          end
      end
  end.

Definition js_match_all (re : RegExp) (s : jsstring) : list jsstring :=
  match_all_from re 0 s 0.

(** ** Writing the script's patterns *)

Definition chr (a : ascii) : jschar := N_of_ascii a.

Definition sp : Atom := ASet false [CSpace].
Definition dg : Atom := ASet false [CDigit].
Definition star (a : Atom) : Regex := Rep a 0 None.
Definition plus (a : Atom) : Regex := Rep a 1 None.
Definition maybe (a : Atom) : Regex := Rep a 0 (Some 1).
Definition cat (rs : list Regex) : Regex := fold_right Seq Eps rs.
Definition word (s : string) : Regex :=
  cat (List.map (fun a => One (AChar (chr a))) (list_ascii_of_string s)).

(** [[\s\-]*], [[\s\(UK\)]?], [\d{6,18}] and [(?:\|([^|]+)\|)?] recur in the
    recognizers. *)
Definition sp_or_dash : Atom := ASet false [CSpace; CChar (chr "-")].
Definition uk_class : Atom :=
  ASet false [CSpace; CChar (chr "("); CChar (chr "U"); CChar (chr "K");
              CChar (chr ")")].
Definition digits_6_18 : Regex := Rep dg 6 (Some 18).
Definition not_pipe : Atom := ASet true [CChar (chr "|")].
Definition piped_term (n : nat) : Regex :=
  Opt (cat [One (AChar (chr "|")); Group n (plus not_pipe);
            One (AChar (chr "|"))]).

(** [/^\s+|\s+$/g] *)
Definition trimPattern : RegExp :=
  mkRegExp (Alt (Seq Bol (plus sp)) (Seq (plus sp) Eol)) false.

Definition trimString (str : jsstring) : jsstring :=
  if negb (truthy str) then []
  else js_replace_all trimPattern (fun _ => []) str.

(** ** The validity gate *)

(** [/[<>^]|AND|OR|MINUS/i] *)
Definition eclOperatorsPattern : RegExp :=
  mkRegExp
    (Alt (One (ASet false [CChar (chr "<"); CChar (chr ">"); CChar (chr "^")]))
       (Alt (word "AND") (Alt (word "OR") (word "MINUS"))))
    true.

(** [/\d{6,18}/] *)
Definition conceptIdsPattern : RegExp := mkRegExp digits_6_18 false.

(** [/\s+(or|and|minus)\s+/i] *)
Definition logicalJoinPattern : RegExp :=
  mkRegExp
    (cat [plus sp;
          Group 1 (Alt (word "or") (Alt (word "and") (word "minus")));
          plus sp])
    true.

(** [/<{1,2}\s*\d|>{1,2}\s*\d|\^\s*\d/] *)
Definition operatorDigitPattern : RegExp :=
  mkRegExp
    (Alt (cat [Rep (AChar (chr "<")) 1 (Some 2); star sp; One dg])
       (Alt (cat [Rep (AChar (chr ">")) 1 (Some 2); star sp; One dg])
          (cat [One (AChar (chr "^")); star sp; One dg])))
    false.

Definition isValidEclExpression (expression : jsstring) : bool :=
  let hasEclOperators := js_test eclOperatorsPattern expression in
  let hasConceptIds := js_test conceptIdsPattern expression in
  let hasLogicalStructure :=
    js_test logicalJoinPattern expression
    || js_test operatorDigitPattern expression in
  hasEclOperators && hasConceptIds
  && (hasLogicalStructure || Nat.ltb 20 (List.length expression)).

(** ** The canonicalizer *)

(** [/\s+or\s+/gi] and its two siblings *)
Definition keywordPattern (kw : string) : RegExp :=
  mkRegExp (cat [plus sp; word kw; plus sp]) true.

(** [/\s*<{1,2}\s*/g] and [/\s*>{1,2}\s*/g] *)
Definition angleSpacingPattern (op : ascii) : RegExp :=
  mkRegExp (cat [star sp; Rep (AChar (chr op)) 1 (Some 2); star sp]) false.

(** [/\s*\^\s*/g] *)
Definition caretSpacingPattern : RegExp :=
  mkRegExp (cat [star sp; One (AChar (chr "^")); star sp]) false.

(** [/\s/g] *)
Definition oneSpacePattern : RegExp := mkRegExp (One sp) false.

(** [/\|([^|]+)\s*\([^)]+\)\s*\|/g] *)
Definition semanticTagPattern : RegExp :=
  mkRegExp
    (cat [One (AChar (chr "|")); Group 1 (plus not_pipe); star sp;
          One (AChar (chr "(")); plus (ASet true [CChar (chr ")")]);
          One (AChar (chr ")")); star sp; One (AChar (chr "|"))])
    false.

(** [/\s+/g] *)
Definition whitespaceRunPattern : RegExp := mkRegExp (plus sp) false.

(** The callback of the two angle-bracket replacements:
    [match.replace(/\s/g, "") + " "]. *)
Definition respace (m : MatchResult) : jsstring :=
  js_replace_all oneSpacePattern (fun _ => []) (m_text m) ++ lit " ".

Definition cleanAndStandardizeEcl (eclExpression : jsstring) : jsstring :=
  let cleaned := trimString eclExpression in
  let cleaned := js_replace_all (keywordPattern "or") (fun _ => lit " OR ") cleaned in
  let cleaned := js_replace_all (keywordPattern "and") (fun _ => lit " AND ") cleaned in
  let cleaned := js_replace_all (keywordPattern "minus") (fun _ => lit " MINUS ") cleaned in
  let cleaned := js_replace_all (angleSpacingPattern "<") respace cleaned in
  let cleaned := js_replace_all (angleSpacingPattern ">") respace cleaned in
  let cleaned := js_replace_all caretSpacingPattern (fun _ => lit "^ ") cleaned in
  let cleaned :=
    js_replace_all semanticTagPattern
      (fun m => lit "|" ++ trimString (cap m 1) ++ lit "|") cleaned in
  let cleaned := js_replace_all whitespaceRunPattern (fun _ => lit " ") cleaned in
  let cleaned := trimString cleaned in
  cleaned.

(** [/\s*\([^)]+\)\s*$/g] *)
Definition trailingTagPattern : RegExp :=
  mkRegExp
    (cat [star sp; One (AChar (chr "(")); plus (ASet true [CChar (chr ")")]);
          One (AChar (chr ")")); star sp; Eol])
    false.

Definition cleanConceptTerm (term : jsstring) : jsstring :=
  let cleaned := js_replace_all trailingTagPattern (fun _ => []) term in
  trimString cleaned.

(** ** Exceptions *)

Inductive Exn : Type :=
| URIError      (* thrown by decodeURIComponent *)
| EAError       (* raised by the model repository *)
| StackError.   (* raised by the engine when a recursion does not end *)

Inductive Result (A : Type) : Type :=
| Ok (a : A)
| Throw (e : Exn).

Arguments Ok {A} a.
Arguments Throw {A} e.

(** ** decodeURIComponent *)

Definition hex_digit (c : jschar) : option N :=
  if ((48 <=? c) && (c <=? 57))%N then Some (c - 48)%N
  else if ((65 <=? c) && (c <=? 70))%N then Some (c - 55)%N
  else if ((97 <=? c) && (c <=? 102))%N then Some (c - 87)%N
  else None.

(** One escape [%XX] at the head of [s]: its byte and what follows. *)
Definition pct_byte (s : jsstring) : option (N * jsstring) :=
  match s with
  | p :: h1 :: h2 :: rest =>
      if (p =? 37)%N then
        match hex_digit h1, hex_digit h2 with
        | Some a, Some b => Some (16 * a + b, rest)%N
        | _, _ => None
        end
      else None
  | _ => None
  end.

(** [n] continuation bytes [10xxxxxx], folded into the code point [v]. *)
Fixpoint continuation_bytes (n : nat) (v : N) (s : jsstring) : option N :=
  match n with
  | O => Some v
  | S n' =>
      match pct_byte s with
      | Some (b, rest) =>
          if ((128 <=? b) && (b <? 192))%N
          then continuation_bytes n' (64 * v + (b - 128))%N rest
          else None
      | None => None
      end
  end.

(** The code units of code point [v]. *)
Definition utf16 (v : N) : jsstring :=
  if (v <? 65536)%N then [v]
  else [(55296 + (v - 65536) / 1024)%N; (56320 + (v - 65536) mod 1024)%N].

(** The escape sequence at the head of [s] (which starts with [%]): the code
    units it stands for and the number of characters it takes.  [None] is a
    malformed sequence. *)
Definition decode_escape (s : jsstring) : option (jsstring * nat) :=
  match pct_byte s with
  | None => None
  | Some (b, rest) =>
      if (b <? 128)%N then Some ([b], 3)
      else if ((192 <=? b) && (b <? 224))%N then
        match continuation_bytes 1 (b - 192)%N rest with
        | Some v => if (128 <=? v)%N then Some (utf16 v, 6) else None
        | None => None
        end
      else if ((224 <=? b) && (b <? 240))%N then
        match continuation_bytes 2 (b - 224)%N rest with
        | Some v =>
            if ((2048 <=? v) && negb ((55296 <=? v) && (v <=? 57343)))%N
            then Some (utf16 v, 9) else None
        | None => None
        end
      else if ((240 <=? b) && (b <? 248))%N then
        match continuation_bytes 3 (b - 240)%N rest with
        | Some v =>
            if ((65536 <=? v) && (v <=? 1114111))%N
            then Some (utf16 v, 12) else None
        | None => None
        end
      else None
  end.

Fixpoint decode_from (s : jsstring) (skip : nat) {struct s}
  : Result jsstring :=
  match s with
  | [] => Ok []
  | c :: s' =>
      match skip with
      | S skip' => decode_from s' skip'
      | O =>
          if (c =? 37)%N then
            match decode_escape s with
            | Some (units, len) =>
                match decode_from s' (len - 1) with
                | Ok t => Ok (units ++ t)
                | Throw e => Throw e
                end
            | None => Throw URIError
            end
          else
            match decode_from s' 0 with
            | Ok t => Ok (c :: t)
            | Throw e => Throw e
            end
      end
  end.

Definition decodeURIComponent (s : jsstring) : Result jsstring :=
  decode_from s 0.

(** ** The recognizers *)

(** [SNOMED[\s\-]*CT[\s\(UK\)]?\s*:?], the head of recognizers 4 to 9
    and 12. *)
Definition snomed_ct_head : list Regex :=
  [word "SNOMED"; star sp_or_dash; word "CT"; maybe uk_class; star sp;
   maybe (AChar (chr ":"))].

(** [\s*-?\s*] *)
Definition dash_gap : list Regex :=
  [star sp; maybe (AChar (chr "-")); star sp].

(** [/SNOMED[\s\-]*CT\s*(?:\(UK\))?\s*:-?\s*(.+)/i] *)
Definition complexEclPattern : RegExp :=
  mkRegExp
    (cat [word "SNOMED"; star sp_or_dash; word "CT"; star sp;
          Opt (word "(UK)"); star sp; One (AChar (chr ":"));
          maybe (AChar (chr "-")); star sp; Group 1 (plus ADot)])
    true.

(** [/(SCT|SNOMEDCT|SNOMED[\s\-]*CT)[\s\(UK\)]?\s*:?\s*(.+)/i] *)
Definition altPrefixPattern : RegExp :=
  mkRegExp
    (cat [Group 1 (Alt (word "SCT")
                     (Alt (word "SNOMEDCT")
                        (cat [word "SNOMED"; star sp_or_dash; word "CT"])));
          maybe uk_class; star sp; maybe (AChar (chr ":")); star sp;
          Group 2 (plus ADot)])
    true.

(** [/dm\+d:\s*(\d+)/i] *)
Definition dmdPattern : RegExp :=
  mkRegExp (cat [word "dm+d:"; star sp; Group 1 (plus dg)]) true.

(** [/SNOMED[\s\-]*CT[\s\(UK\)]?\s*:?\s*-?\s*\^(\d{6,18})\s*(?:\|([^|]+)\|)?/i] *)
Definition refsetPattern : RegExp :=
  mkRegExp
    (cat (snomed_ct_head ++ dash_gap ++
          [One (AChar (chr "^")); Group 1 digits_6_18; star sp; piped_term 2]))
    true.

(** [/SNOMED[\s\-]*CT[\s\(UK\)]?\s*:?\s*(\d{6,18})\s*(?:\|([^|]+)\|)?\s*(?:\(exact\)|only|self)/i] *)
Definition exactPattern : RegExp :=
  mkRegExp
    (cat (snomed_ct_head ++
          [star sp; Group 1 digits_6_18; star sp; piped_term 2; star sp;
           Alt (word "(exact)") (Alt (word "only") (word "self"))]))
    true.

(** [/SNOMED[\s\-]*CT[\s\(UK\)]?\s*:?\s*-?\s*OP\s*(\d{6,18})\s*(?:\|([^|]+)\|)?/i]
    for [OP] one of [<<], [<], [>>], [>]. *)
Definition operatorPattern (op : string) : RegExp :=
  mkRegExp
    (cat (snomed_ct_head ++ dash_gap ++
          [word op; star sp; Group 1 digits_6_18; star sp; piped_term 2]))
    true.

Definition descendantsInclusivePattern : RegExp := operatorPattern "<<".
Definition descendantsExclusivePattern : RegExp := operatorPattern "<".
Definition ancestorsInclusivePattern : RegExp := operatorPattern ">>".
Definition ancestorsExclusivePattern : RegExp := operatorPattern ">".

(** [/snomed\.info\/sct\?fhir_vs=ecl\/(.+)/i] *)
Definition fhirEclPattern : RegExp :=
  mkRegExp (cat [word "snomed.info/sct?fhir_vs=ecl/"; Group 1 (plus ADot)])
    true.

(** [/snomed\.info\/sct\?fhir_vs=refset\/(\d{6,18})/i] *)
Definition fhirRefsetPattern : RegExp :=
  mkRegExp (cat [word "snomed.info/sct?fhir_vs=refset/"; Group 1 digits_6_18])
    true.

(** [/SNOMED[\s\-]*CT[\s\(UK\)]?\s*:?\s*(\d{6,18})/i] *)
Definition simpleConceptPattern : RegExp :=
  mkRegExp (cat (snomed_ct_head ++ [star sp; Group 1 digits_6_18])) true.

(** [/SNOMED[^:]*:\s*([\d\s,]+)/i] *)
Definition multipleConceptPattern : RegExp :=
  mkRegExp
    (cat [word "SNOMED"; star (ASet true [CChar (chr ":")]);
          One (AChar (chr ":")); star sp;
          Group 1 (plus (ASet false [CDigit; CSpace; CChar (chr ",")]))])
    true.

(** [/^\^(\d{6,18})/] *)
Definition standaloneRefsetPattern : RegExp :=
  mkRegExp (cat [Bol; One (AChar (chr "^")); Group 1 digits_6_18]) false.

(** [/(?:<{1,2}|>{1,2})?\s*(\d{6,18})\s*(?:\|([^|]+)\|)?/] *)
Definition standaloneConceptPattern : RegExp :=
  mkRegExp
    (cat [Opt (Alt (Rep (AChar (chr "<")) 1 (Some 2))
                 (Rep (AChar (chr ">")) 1 (Some 2)));
          star sp; Group 1 digits_6_18; star sp; piped_term 2])
    false.

(** [/^[\d\s,]+$/] *)
Definition numberListPattern : RegExp :=
  mkRegExp
    (cat [Bol; plus (ASet false [CDigit; CSpace; CChar (chr ",")]); Eol])
    false.

(** [Array.prototype.join] *)
Fixpoint join (sep : jsstring) (l : list jsstring) : jsstring :=
  match l with
  | [] => []
  | [x] => x
  | x :: l' => x ++ sep ++ join sep l'
  end.

(** What one recognizer does with the trimmed descriptor: [None] when
    control falls through to the next one, otherwise what the function
    returns or throws. *)
Definition Recognizer := jsstring -> option (Result jsstring).

(** [m[2] ? cleanConceptTerm(trimString(m[2])) : "SNOMED CT concept"] *)
Definition conceptTermOf (m : MatchResult) : jsstring :=
  if truthy (cap m 2) then cleanConceptTerm (trimString (cap m 2))
  else lit "SNOMED CT concept".

(** Pattern 1: complex ECL expressions. *)
Definition complexEcl : Recognizer := fun valueSet =>
  match js_match complexEclPattern valueSet with
  | Some complexMatch =>
      let eclExpression := trimString (cap complexMatch 1) in
      if isValidEclExpression eclExpression
      then Some (Ok (cleanAndStandardizeEcl eclExpression))
      else None
  | None => None
  end.

(** Pattern 2: alternative SNOMED prefixes; not tried when the pattern of
    recognizer 1 matched. *)
Definition altPrefix : Recognizer := fun valueSet =>
  match js_match altPrefixPattern valueSet,
        js_match complexEclPattern valueSet with
  | Some altMatch, None =>
      let expression := trimString (cap altMatch 2) in
      if isValidEclExpression expression
      then Some (Ok (cleanAndStandardizeEcl expression))
      else None
  | _, _ => None
  end.

(** Pattern 3: UK dm+d. *)
Definition dmd : Recognizer := fun valueSet =>
  match js_match dmdPattern valueSet with
  | Some dmdMatch =>
      let dmdCode := cap dmdMatch 1 in
      Some (Ok (lit "< " ++ dmdCode ++ lit " |dm+d concept|"))
  | None => None
  end.

(** Pattern 4: reference sets. *)
Definition refset : Recognizer := fun valueSet =>
  match js_match refsetPattern valueSet with
  | Some refsetMatch =>
      let refsetId := cap refsetMatch 1 in
      let refsetName :=
        if truthy (cap refsetMatch 2) then trimString (cap refsetMatch 2)
        else lit "SNOMED CT reference set" in
      Some (Ok (lit "^ " ++ refsetId ++ lit " |" ++ refsetName ++ lit "|"))
  | None => None
  end.

(** Pattern 5: exact concept, self only. *)
Definition exact : Recognizer := fun valueSet =>
  match js_match exactPattern valueSet with
  | Some exactMatch =>
      let conceptId := cap exactMatch 1 in
      let conceptTerm := conceptTermOf exactMatch in
      Some (Ok (conceptId ++ lit " |" ++ conceptTerm ++ lit "|"))
  | None => None
  end.

(** Patterns 6 to 9: one operator in front of a concept. *)
Definition withOperator (pattern : RegExp) (op : string) : Recognizer :=
  fun valueSet =>
  match js_match pattern valueSet with
  | Some m =>
      let conceptId := cap m 1 in
      let conceptTerm := conceptTermOf m in
      Some (Ok (lit op ++ lit " " ++ conceptId ++ lit " |" ++ conceptTerm
                ++ lit "|"))
  | None => None
  end.

Definition descendantsInclusive : Recognizer :=
  withOperator descendantsInclusivePattern "<<".
Definition descendantsExclusive : Recognizer :=
  withOperator descendantsExclusivePattern "<".
Definition ancestorsInclusive : Recognizer :=
  withOperator ancestorsInclusivePattern ">>".
Definition ancestorsExclusive : Recognizer :=
  withOperator ancestorsExclusivePattern ">".

(** Pattern 10: FHIR ValueSet URLs, ECL form. *)
Definition fhirEcl : Recognizer := fun valueSet =>
  match js_match fhirEclPattern valueSet with
  | Some fhirEclMatch =>
      match decodeURIComponent (cap fhirEclMatch 1) with
      | Ok eclExpression => Some (Ok (cleanAndStandardizeEcl eclExpression))
      | Throw e => Some (Throw e)
      end
  | None => None
  end.

(** FHIR ValueSet URLs, reference set form. *)
Definition fhirRefset : Recognizer := fun valueSet =>
  match js_match fhirRefsetPattern valueSet with
  | Some fhirRefsetMatch =>
      let refsetId := cap fhirRefsetMatch 1 in
      Some (Ok (lit "^ " ++ refsetId ++ lit " |SNOMED CT reference set|"))
  | None => None
  end.

(** Pattern 11: simple concept ID with SNOMED context. *)
Definition simpleConcept : Recognizer := fun valueSet =>
  match js_match simpleConceptPattern valueSet with
  | Some simpleConceptMatch =>
      let conceptId := cap simpleConceptMatch 1 in
      Some (Ok (lit "< " ++ conceptId ++ lit " |SNOMED CT concept|"))
  | None => None
  end.

(** Pattern 12: multiple concept IDs in lists. *)
Definition multipleConcept : Recognizer := fun valueSet =>
  match js_match multipleConceptPattern valueSet with
  | Some multipleConceptMatch =>
      let conceptIds :=
        js_match_all conceptIdsPattern (cap multipleConceptMatch 1) in
      match conceptIds with
      | [] => None
      | [only] => Some (Ok (lit "< " ++ only ++ lit " |SNOMED CT concept|"))
      | _ =>
          let expressions :=
            List.map (fun id => lit "< " ++ id ++ lit " |SNOMED CT concept|")
              conceptIds in
          Some (Ok (join (lit " OR ") expressions))
      end
  | None => None
  end.

(** Pattern 13: standalone reference set. *)
Definition standaloneRefset : Recognizer := fun valueSet =>
  match js_match standaloneRefsetPattern valueSet with
  | Some standaloneRefsetMatch =>
      let refsetId := cap standaloneRefsetMatch 1 in
      Some (Ok (lit "^ " ++ refsetId ++ lit " |SNOMED CT reference set|"))
  | None => None
  end.

(** Standalone concept, unless the descriptor is a pure number list. *)
Definition standaloneConcept : Recognizer := fun valueSet =>
  match js_match standaloneConceptPattern valueSet with
  | Some standaloneConceptMatch =>
      if negb (js_test numberListPattern valueSet) then
        let conceptId := cap standaloneConceptMatch 1 in
        let conceptTerm := conceptTermOf standaloneConceptMatch in
        Some (Ok (lit "< " ++ conceptId ++ lit " |" ++ conceptTerm ++ lit "|"))
      else None
  | None => None
  end.

Notation "'attempt' r 'orelse' k" :=
  (match r with Some x => x | None => k end)
  (at level 10, r at level 9, k at level 200, only parsing).

Definition extractSnomedEclFromValueSet (valueSetString : jsstring)
  : Result jsstring :=
  if negb (truthy valueSetString)
     || jsstring_eqb (trimString valueSetString) []
  then Ok []
  else
    let valueSet := trimString valueSetString in
    attempt (complexEcl valueSet) orelse
    attempt (altPrefix valueSet) orelse
    attempt (dmd valueSet) orelse
    attempt (refset valueSet) orelse
    attempt (exact valueSet) orelse
    attempt (descendantsInclusive valueSet) orelse
    attempt (descendantsExclusive valueSet) orelse
    attempt (ancestorsInclusive valueSet) orelse
    attempt (ancestorsExclusive valueSet) orelse
    attempt (fhirEcl valueSet) orelse
    attempt (fhirRefset valueSet) orelse
    attempt (simpleConcept valueSet) orelse
    attempt (multipleConcept valueSet) orelse
    attempt (standaloneRefset valueSet) orelse
    attempt (standaloneConcept valueSet) orelse
    Ok [].

(** ** The model repository and the per-element driver *)

(** Repository.WriteOutput only writes to the output tab of the modelling
    tool; the trace is left out, and with it the only effect of debugMode
    and logNonSnomedElements.  getTaggedValue catches its own exceptions and
    then returns the empty string; here a read never fails. *)

(** The script's two global objects. *)
Record Config : Type := mkConfig {
  skipExistingEcl : bool;
  debugMode : bool;
  logNonSnomedElements : bool
}.

Record Counter : Type := mkCounter {
  elementsProcessed : nat;
  conversionsPerformed : nat;
  existingEclSkipped : nat;
  nonSnomedSkipped : nat;
  errors : nat
}.

(** A tagged value of the modelling tool: Name, Value and Notes. *)
Record TaggedValue : Type := mkTag {
  tagName : jsstring;
  tagValue : jsstring;
  tagNotes : jsstring
}.

(** Elements are objects of the repository: an element is known by its
    identifier, and the repository holds its TaggedValues collection.  Two
    entries of a batch with the same identifier are the same object. *)
Definition ElementRef := nat.

Record World : Type := mkWorld {
  conversionCounter : Counter;
  taggedValues : ElementRef -> list TaggedValue
}.

(** Computations of the script: they read and change the world and either
    return or throw; what was changed before a throw stays changed. *)
Definition Script (A : Type) : Type := World -> Result A * World.

Definition ret {A : Type} (a : A) : Script A := fun w => (Ok a, w).

Definition bind {A B : Type} (m : Script A) (f : A -> Script B) : Script B :=
  fun w =>
    match m w with
    | (Ok a, w') => f a w'
    | (Throw e, w') => (Throw e, w')
    end.

Definition throw {A : Type} (e : Exn) : Script A := fun w => (Throw e, w).

Definition lift {A : Type} (r : Result A) : Script A := fun w => (r, w).

Definition bump (f : Counter -> Counter) : Script unit :=
  fun w => (Ok tt, mkWorld (f (conversionCounter w)) (taggedValues w)).

(** [try { body } catch (e) { handler }] *)
Definition try_catch (body : Script unit) (handler : Script unit)
  : Script unit :=
  fun w =>
    match body w with
    | (Ok tt, w') => (Ok tt, w')
    | (Throw _, w') => handler w'
    end.

Notation "x <- m ;; f" := (bind m (fun x => f))
  (at level 61, m at next level, right associativity).
Notation "m ;;; f" := (bind m (fun _ => f))
  (at level 61, right associativity).

Definition incElementsProcessed (c : Counter) : Counter :=
  mkCounter (S (elementsProcessed c)) (conversionsPerformed c)
    (existingEclSkipped c) (nonSnomedSkipped c) (errors c).
Definition incConversionsPerformed (c : Counter) : Counter :=
  mkCounter (elementsProcessed c) (S (conversionsPerformed c))
    (existingEclSkipped c) (nonSnomedSkipped c) (errors c).
Definition incExistingEclSkipped (c : Counter) : Counter :=
  mkCounter (elementsProcessed c) (conversionsPerformed c)
    (S (existingEclSkipped c)) (nonSnomedSkipped c) (errors c).
Definition incNonSnomedSkipped (c : Counter) : Counter :=
  mkCounter (elementsProcessed c) (conversionsPerformed c)
    (existingEclSkipped c) (S (nonSnomedSkipped c)) (errors c).
Definition incErrors (c : Counter) : Counter :=
  mkCounter (elementsProcessed c) (conversionsPerformed c)
    (existingEclSkipped c) (nonSnomedSkipped c) (S (errors c)).

(** The first tagged value called [name], as both loops over
    [element.TaggedValues] find it. *)
Fixpoint findTag (tags : list TaggedValue) (name : jsstring)
  : option TaggedValue :=
  match tags with
  | [] => None
  | tag :: tags' =>
      if jsstring_eqb (tagName tag) name then Some tag
      else findTag tags' name
  end.

Definition readTag (tags : list TaggedValue) (name : jsstring) : jsstring :=
  match findTag tags name with
  | Some tag =>
      if jsstring_eqb (tagValue tag) (lit "<memo>") then tagNotes tag
      else tagValue tag
  | None => []
  end.

Definition getTaggedValue (element : ElementRef) (name : jsstring)
  : Script jsstring :=
  fun w => (Ok (readTag (taggedValues w element) name), w).

(** The assignments to an existing tag. *)
Definition updateExisting (tag : TaggedValue) (value : jsstring)
  : TaggedValue :=
  if Nat.ltb 255 (List.length value)
  then mkTag (tagName tag) (lit "<memo>") value
  else mkTag (tagName tag) value [].

(** [TaggedValues.AddNew(name, "")] followed by the assignments to the new
    tag; its Notes are left as created when the value is short. *)
Definition createNew (name value : jsstring) : TaggedValue :=
  let newTag := mkTag name [] [] in
  if Nat.ltb 255 (List.length value)
  then mkTag (tagName newTag) (lit "<memo>") value
  else mkTag (tagName newTag) value (tagNotes newTag).

Fixpoint updateFirst (tags : list TaggedValue) (name value : jsstring)
  : list TaggedValue :=
  match tags with
  | [] => []
  | tag :: tags' =>
      if jsstring_eqb (tagName tag) name
      then updateExisting tag value :: tags'
      else tag :: updateFirst tags' name value
  end.

Definition writeTag (tags : list TaggedValue) (name value : jsstring)
  : list TaggedValue :=
  match findTag tags name with
  | Some _ => updateFirst tags name value
  | None => tags ++ [createNew name value]
  end.

Section Driver.

Variable conversionConfig : Config.

(** What getCurrentDate returns during the run. *)
Variable today : jsstring.

(** The repository may refuse to store a tag (a locked element, say):
    [Update()] then throws, and addOrUpdateTaggedValue logs the exception
    and throws it again.  The assignments to an existing tag are made
    before its [Update()], so that tag of the collection carries the new
    Value and Notes when the exception leaves; a tag made by [AddNew] is
    part of the collection only once its [Update()] has stored it. *)
Variable refuses : ElementRef -> jsstring -> bool.

Definition addOrUpdateTaggedValue (element : ElementRef)
           (name value : jsstring) : Script unit :=
  fun w =>
    let assigned :=
      mkWorld (conversionCounter w)
        (fun e => if Nat.eqb e element
                  then writeTag (taggedValues w e) name value
                  else taggedValues w e) in
    match findTag (taggedValues w element) name with
    | Some _ =>
        (* existingTag.Value and .Notes assigned, then existingTag.Update() *)
        if refuses element name then throw EAError assigned
        else (Ok tt, assigned)
    | None =>
        (* AddNew, the assignments, then newTag.Update() *)
        if refuses element name then throw EAError w
        else (Ok tt, assigned)
    end.

(** The body of the try block of convertSingleDataElement. *)
Definition convertBody (element : ElementRef) : Script unit :=
  bump incElementsProcessed ;;;
  existingEcl <- getTaggedValue element (lit "snomedECL") ;;
  if truthy existingEcl
     && negb (jsstring_eqb (trimString existingEcl) [])
     && skipExistingEcl conversionConfig
  then bump incExistingEclSkipped
  else
    valueSetString <- getTaggedValue element (lit "valueSets") ;;
    if negb (truthy valueSetString)
       || jsstring_eqb (trimString valueSetString) []
    then bump incNonSnomedSkipped
    else
      extractedEcl <- lift (extractSnomedEclFromValueSet valueSetString) ;;
      if truthy extractedEcl
         && negb (jsstring_eqb (trimString extractedEcl) [])
      then
        addOrUpdateTaggedValue element (lit "snomedECL") extractedEcl ;;;
        addOrUpdateTaggedValue element (lit "eclSource")
          (lit "Converted from valueSets") ;;;
        addOrUpdateTaggedValue element (lit "eclConversionDate") today ;;;
        bump incConversionsPerformed
      else bump incNonSnomedSkipped.

Definition convertSingleDataElement (element : ElementRef) : Script unit :=
  try_catch (convertBody element) (bump incErrors).

(** The [for] loop of convertAllDataElementsInStandard and of
    convertAllDataElementsInModel over the elements found. *)
Fixpoint forEachDataElement (dataElements : list ElementRef)
  : Script unit :=
  match dataElements with
  | [] => ret tt
  | element :: rest =>
      convertSingleDataElement element ;;; forEachDataElement rest
  end.

(** The two walks over the element tree of the repository: parameters
    here, the walks themselves are modelled further down. *)
Variable findAllDataElements : ElementRef -> list ElementRef.
Variable findDataElementsInModel : ElementRef -> list ElementRef.

Definition convertAllDataElementsInStandard (standardElement : ElementRef)
  : Script unit :=
  let allDataElements := findAllDataElements standardElement in
  if Nat.eqb (List.length allDataElements) 0 then ret tt
  else forEachDataElement allDataElements.

Definition convertAllDataElementsInModel (modelElement : ElementRef)
  : Script unit :=
  let dataElements := findDataElementsInModel modelElement in
  if Nat.eqb (List.length dataElements) 0 then ret tt
  else forEachDataElement dataElements.

End Driver.

(** ** The recognizer list of the specification *)

(** The fifteen recognizers in the priority order the specification lists
    them; the theorems below compare the conditional chain of
    extractSnomedEclFromValueSet with it. *)
Definition recognizers : list Recognizer :=
  [complexEcl; altPrefix; dmd; refset; exact; descendantsInclusive;
   descendantsExclusive; ancestorsInclusive; ancestorsExclusive; fhirEcl;
   fhirRefset; simpleConcept; multipleConcept; standaloneRefset;
   standaloneConcept].


(** The result of the first recognizer of a list that fires; the empty
    string when none does. *)
Fixpoint first_fired (rs : list Recognizer) (valueSet : jsstring)
  : Result jsstring :=
  match rs with
  | [] => Ok []
  | r :: rs' =>
      match r valueSet with
      | Some x => x
      | None => first_fired rs' valueSet
      end
  end.

(** ** The texts a pattern can match *)

Definition within (hi : option nat) (n : nat) : Prop :=
  match hi with
  | None => True
  | Some h => n <= h
  end.

(** The set of texts a pattern can match.  The anchors match the empty
    text; whether they hold depends on where the match stands. *)
Fixpoint lang (ic : bool) (r : Regex) (w : jsstring) : Prop :=
  match r with
  | Eps | Bol | Eol => w = []
  | One a => exists c, w = [c] /\ atom_match ic a c = true
  | Rep a lo hi =>
      Forall (fun c => atom_match ic a c = true) w
      /\ lo <= List.length w /\ within hi (List.length w)
  | Opt r1 => w = [] \/ lang ic r1 w
  | Seq r1 r2 =>
      exists w1 w2, w = w1 ++ w2 /\ lang ic r1 w1 /\ lang ic r2 w2
  | Alt r1 r2 => lang ic r1 w \/ lang ic r2 w
  | Group _ r1 => lang ic r1 w
  end.

Fixpoint anchor_free (r : Regex) : bool :=
  match r with
  | Eps | One _ | Rep _ _ _ => true
  | Bol | Eol => false
  | Opt r1 | Group _ r1 => anchor_free r1
  | Seq r1 r2 | Alt r1 r2 => anchor_free r1 && anchor_free r2
  end.

(** [text] has a part that satisfies [P]. *)
Definition contains (P : jsstring -> Prop) (text : jsstring) : Prop :=
  exists pre w post, text = pre ++ w ++ post /\ P w.

Definition matches (re : RegExp) (w : jsstring) : Prop :=
  lang (re_ignoreCase re) (re_body re) w.

(** ** The validity gate in the words of the specification *)

Definition is_operator_char (c : jschar) : Prop :=
  c = chr "<" \/ c = chr ">" \/ c = chr "^".

Definition same_ignoring_case (a b : jsstring) : Prop :=
  List.map fold_case a = List.map fold_case b.

Definition is_keyword (keywords : list string) (w : jsstring) : Prop :=
  exists kw, In kw keywords /\ same_ignoring_case (lit kw) w.

Definition all_space (w : jsstring) : Prop :=
  Forall (fun c => is_space c = true) w.

Definition all_digits (w : jsstring) : Prop :=
  Forall (fun c => is_digit c = true) w.

(** Letter case in the words of the specification, without the folding of
    the matcher: two characters are the same letter when they are equal, or
    when one is a capital letter A to Z and the other is the small letter,
    32 code points above it. *)
Definition same_letter (a b : jschar) : Prop :=
  a = b
  \/ ((65 <= a <= 90)%N /\ b = (a + 32)%N)
  \/ ((65 <= b <= 90)%N /\ a = (b + 32)%N).

(** [w] is the word [kw], each letter in either case. *)
Definition in_any_case (kw : string) (w : jsstring) : Prop :=
  Forall2 same_letter (lit kw) w.

(** A logical keyword. *)
Definition logical_keyword (w : jsstring) : Prop :=
  in_any_case "AND" w \/ in_any_case "OR" w \/ in_any_case "MINUS" w.

(** An ECL operator token or a logical keyword. *)
Definition operator_or_keyword (w : jsstring) : Prop :=
  (exists c, w = [c] /\ is_operator_char c) \/ logical_keyword w.

(** A numeric run of 6 to 18 digits. *)
Definition digit_run_6_18 (w : jsstring) : Prop :=
  all_digits w /\ 6 <= List.length w /\ List.length w <= 18.

(** An explicit logical join: the expressions of the specification are
    joined by AND, OR and MINUS, so a join is one of these keywords between
    white space. *)
Definition keyword_join (w : jsstring) : Prop :=
  exists a kw b,
    w = a ++ kw ++ b /\ a <> [] /\ all_space a
    /\ logical_keyword kw
    /\ b <> [] /\ all_space b.

(** The gate as the specification words it. *)
Definition isPlausibleComplexExpression (text : jsstring) : Prop :=
  contains operator_or_keyword text
  /\ contains digit_run_6_18 text
  /\ (contains keyword_join text \/ 20 < List.length text).

(** What the script also takes for logical structure, and the
    specification does not name: an operator [<], [<<], [>], [>>] or [^] in
    front of a digit, white space apart. *)
Definition operator_before_digit (w : jsstring) : Prop :=
  exists op gap d,
    w = op ++ gap ++ [d]
    /\ In op [lit "<"; lit "<<"; lit ">"; lit ">>"; lit "^"]
    /\ all_space gap /\ is_digit d = true.

(** The text has a character that is not white space. *)
Definition visible (s : jsstring) : Prop :=
  Exists (fun c => is_space c = false) s.

(** ** White space, directly *)

(** The number of leading characters of [s] that satisfy [p]. *)
Fixpoint span (p : jschar -> bool) (s : jsstring) : nat :=
  match s with
  | c :: s' => if p c then S (span p s') else 0
  | [] => 0
  end.

(** Every run of white space becomes one space; [in_run] says that the
    run at the head of [s] has already been replaced. *)
Fixpoint squeeze (in_run : bool) (s : jsstring) : jsstring :=
  match s with
  | [] => []
  | c :: s' =>
      if is_space c
      then if in_run then squeeze true s' else 32%N :: squeeze true s'
      else c :: squeeze false s'
  end.

(** Without the leading white space. *)
Fixpoint strip_start (s : jsstring) : jsstring :=
  match s with
  | c :: s' => if is_space c then strip_start s' else s
  | [] => []
  end.

(** Without the trailing white space. *)
Fixpoint strip_end (s : jsstring) : jsstring :=
  match s with
  | [] => []
  | c :: s' => if forallb is_space s then [] else c :: strip_end s'
  end.

(** Every white-space character is a single space followed by a character
    that is not white space, or by the end of the text. *)
Fixpoint single_spaced (s : jsstring) : Prop :=
  match s with
  | [] => True
  | c :: s' =>
      (is_space c = true -> c = 32%N /\ span is_space s' = 0)
      /\ single_spaced s'
  end.

(** The two whitespace steps that end the canonicalizer. *)
Definition collapseWhitespace (s : jsstring) : jsstring :=
  js_replace_all whitespaceRunPattern (fun _ => lit " ") s.

(** The steps of the canonicalizer between the first trim and the
    whitespace steps: keywords, operator spacing, semantic tags. *)
Definition rewriteSteps (cleaned : jsstring) : jsstring :=
  let cleaned := js_replace_all (keywordPattern "or") (fun _ => lit " OR ") cleaned in
  let cleaned := js_replace_all (keywordPattern "and") (fun _ => lit " AND ") cleaned in
  let cleaned := js_replace_all (keywordPattern "minus") (fun _ => lit " MINUS ") cleaned in
  let cleaned := js_replace_all (angleSpacingPattern "<") respace cleaned in
  let cleaned := js_replace_all (angleSpacingPattern ">") respace cleaned in
  let cleaned := js_replace_all caretSpacingPattern (fun _ => lit "^ ") cleaned in
  js_replace_all semanticTagPattern
    (fun m => lit "|" ++ trimString (cap m 1) ++ lit "|") cleaned.

(** The texts a pattern can match, with the captures a match leaves: a
    match of [r] on [w] that starts with the captures [caps] ends with
    [caps']. *)
Fixpoint parses (ic : bool) (r : Regex) (w : jsstring) (caps caps' : Caps)
  : Prop :=
  match r with
  | Eps | Bol | Eol | One _ | Rep _ _ _ => lang ic r w /\ caps' = caps
  | Opt r1 => (w = [] /\ caps' = caps) \/ parses ic r1 w caps caps'
  | Seq r1 r2 =>
      exists w1 w2 caps1,
        w = w1 ++ w2 /\ parses ic r1 w1 caps caps1
        /\ parses ic r2 w2 caps1 caps'
  | Alt r1 r2 => parses ic r1 w caps caps' \/ parses ic r2 w caps caps'
  | Group n r1 =>
      exists caps1, parses ic r1 w caps caps1 /\ caps' = (n, w) :: caps1
  end.

Fixpoint group_free (r : Regex) : bool :=
  match r with
  | Eps | One _ | Rep _ _ _ | Bol | Eol => true
  | Group _ _ => false
  | Opt r1 => group_free r1
  | Seq r1 r2 | Alt r1 r2 => group_free r1 && group_free r2
  end.

(** Wherever [r] has a group numbered [n], the group can only match texts
    that satisfy [P]. *)
Fixpoint captures_only (ic : bool) (P : jsstring -> Prop) (n : nat)
         (r : Regex) : Prop :=
  match r with
  | Eps | One _ | Rep _ _ _ | Bol | Eol => True
  | Group m r1 =>
      (m = n -> forall w, lang ic r1 w -> P w) /\ captures_only ic P n r1
  | Opt r1 => captures_only ic P n r1
  | Seq r1 r2 | Alt r1 r2 =>
      captures_only ic P n r1 /\ captures_only ic P n r2
  end.

(** The patterns whose first group is the identifier of a concept or of a
    reference set. *)
Definition identifierPatterns : list RegExp :=
  [refsetPattern; exactPattern; descendantsInclusivePattern;
   descendantsExclusivePattern; ancestorsInclusivePattern;
   ancestorsExclusivePattern; fhirRefsetPattern; simpleConceptPattern;
   standaloneRefsetPattern; standaloneConceptPattern].

(** Every match of [r] goes through a group numbered [n]. *)
Fixpoint captures_always (n : nat) (r : Regex) : bool :=
  match r with
  | Eps | One _ | Rep _ _ _ | Bol | Eol | Opt _ => false
  | Group m r1 => Nat.eqb m n || captures_always n r1
  | Seq r1 r2 => captures_always n r1 || captures_always n r2
  | Alt r1 r2 => captures_always n r1 && captures_always n r2
  end.

(** ** Counter accounting *)

(** How the five counters move between two states of a run: none goes down,
    and the elements processed in between are the conversions, the two
    kinds of skip and the errors in between. *)
Definition accounted (c c' : Counter) : Prop :=
  elementsProcessed c <= elementsProcessed c'
  /\ conversionsPerformed c <= conversionsPerformed c'
  /\ existingEclSkipped c <= existingEclSkipped c'
  /\ nonSnomedSkipped c <= nonSnomedSkipped c'
  /\ errors c <= errors c'
  /\ elementsProcessed c' + conversionsPerformed c + existingEclSkipped c
     + nonSnomedSkipped c + errors c
     = elementsProcessed c + conversionsPerformed c' + existingEclSkipped c'
       + nonSnomedSkipped c' + errors c'.

(** ** Operators and what follows them *)

Definition operator_char (c : jschar) : bool :=
  ((c =? 60) || (c =? 62) || (c =? 94))%N.

(** White space, an operator character or a pipe. *)
Definition after_operator (c : jschar) : bool :=
  is_space c || operator_char c || (c =? 124)%N.

Definition head_after_operator (s : jsstring) : bool :=
  match s with
  | [] => true
  | d :: _ => after_operator d
  end.

(** Every character of the class [op] that is followed by a character is
    followed by white space, an operator character or a pipe. *)
Fixpoint spaced (op : jschar -> bool) (s : jsstring) : bool :=
  match s with
  | [] => true
  | c :: s' => (negb (op c) || head_after_operator s') && spaced op s'
  end.

(** ** The canonical forms that a second pass leaves alone *)

(** [s] begins with the text [p]. *)
Fixpoint starts_with (p s : jsstring) : bool :=
  match p, s with
  | [], _ => true
  | a :: p', c :: s' => N.eqb a c && starts_with p' s'
  | _ :: _, [] => false
  end.

(** [s] begins with the text [p], each letter in either case. *)
Fixpoint starts_in_any_case (p s : jsstring) : bool :=
  match p, s with
  | [], _ => true
  | a :: p', c :: s' => char_match true a c && starts_in_any_case p' s'
  | _ :: _, [] => false
  end.

Definition head_is_space (s : jsstring) : bool :=
  match s with
  | d :: _ => is_space d
  | [] => false
  end.

(** Wherever the keyword [kw] stands between white space in [s], in
    whatever letter case, it is written in capitals. *)
Fixpoint keyword_settled (kw : string) (s : jsstring) : bool :=
  match s with
  | [] => true
  | c :: s' =>
      (if is_space c && starts_in_any_case (lit kw) s'
          && head_is_space (skipn (List.length (lit kw)) s')
       then starts_with (List.map fold_case (lit kw)) s'
       else true)
      && keyword_settled kw s'
  end.

(** The three operator characters, in the order of the steps that space
    them. *)
Inductive Operator : Type := LessThan | GreaterThan | Caret.

Definition operator_code (o : Operator) : jschar :=
  match o with
  | LessThan => 60%N
  | GreaterThan => 62%N
  | Caret => 94%N
  end.

Definition operator_eqb (a b : Operator) : bool :=
  match a, b with
  | LessThan, LessThan | GreaterThan, GreaterThan | Caret, Caret => true
  | _, _ => false
  end.

(** A text read as plain characters and operator tokens; a token is an
    operator character, single or doubled.  The space that follows a token
    is not an item: it is written again with the token. *)
Inductive Item : Type :=
| Plain (c : jschar)
| Token (o : Operator) (doubled : bool).

Definition token_text (o : Operator) (doubled : bool) : jsstring :=
  if doubled then [operator_code o; operator_code o] else [operator_code o].

Definition operator_of (c : jschar) : option Operator :=
  if N.eqb c 60 then Some LessThan
  else if N.eqb c 62 then Some GreaterThan
  else if N.eqb c 94 then Some Caret
  else None.

(** The items of a text: brackets pair up from the left, and one white
    space after a token is dropped. *)
Fixpoint itemize (s : jsstring) : list Item :=
  match s with
  | [] => []
  | c :: s' =>
      match operator_of c with
      | None => Plain c :: itemize s'
      | Some Caret =>
          Token Caret false
          :: match s' with
             | e :: s'' => if is_space e then itemize s'' else itemize s'
             | [] => []
             end
      | Some o =>
          match s' with
          | d :: s'' =>
              if N.eqb d c then
                Token o true
                :: match s'' with
                   | e :: s3 => if is_space e then itemize s3 else itemize s''
                   | [] => []
                   end
              else
                Token o false
                :: (if is_space d then itemize s'' else itemize s')
          | [] => [Token o false]
          end
      end
  end.

(** Whether a space stands between a token of the first operator and a
    token of the second that follows it. *)
Definition Spacing := Operator -> Operator -> bool.

(** What is written between a token and what follows it: a space before a
    plain character and at the end, and the spacing of the two operators
    before another token. *)
Definition gap (spacing : Spacing) (o : Operator) (rest : list Item)
  : jsstring :=
  match rest with
  | Token o' _ :: _ => if spacing o o' then [32%N] else []
  | _ => [32%N]
  end.

Fixpoint render (spacing : Spacing) (items : list Item) : jsstring :=
  match items with
  | [] => []
  | Plain c :: rest => c :: render spacing rest
  | Token o doubled :: rest =>
      token_text o doubled ++ gap spacing o rest ++ render spacing rest
  end.

(** The spacing the three operator steps leave: the step of [<] comes
    first and the step of [^] last, and each step takes the space in front
    of its operator and gives one behind it; so [<] stands directly
    before [>] and [^], and [>] directly before [^], and a space stands
    between two tokens otherwise. *)
Definition canonical_spacing : Spacing :=
  fun a b =>
    match a, b with
    | LessThan, GreaterThan | LessThan, Caret | GreaterThan, Caret => false
    | _, _ => true
    end.

(** The items keep apart from white space: a plain character is no
    operator, white space is a space and stands neither next to a token
    nor next to white space, and a caret is not doubled. *)
Fixpoint items_apart (items : list Item) : bool :=
  match items with
  | [] => true
  | Plain c :: rest =>
      negb (operator_char c)
      && (if is_space c
          then N.eqb c 32
               && match rest with
                  | Plain c' :: _ => negb (is_space c')
                  | Token _ _ :: _ => false
                  | [] => true
                  end
          else true)
      && items_apart rest
  | Token o doubled :: rest =>
      negb (doubled && operator_eqb o Caret)
      && match rest with
         | Plain c' :: _ => negb (is_space c')
         | _ => true
         end
      && items_apart rest
  end.

(** The operators of [s] are spaced as the canonicalizer spaces them. *)
Definition operators_settled (s : jsstring) : bool :=
  items_apart (itemize s)
  && jsstring_eqb (render canonical_spacing (itemize s)) s.

(** The spacing after the step of [o]: a space behind its tokens, none in
    front of them. *)
Definition after_step (o : Operator) (spacing : Spacing) : Spacing :=
  fun a b =>
    if operator_eqb a o then true
    else if operator_eqb b o then false
    else spacing a b.

Definition head_not_space (s : jsstring) : Prop :=
  match s with
  | c :: _ => is_space c = false
  | [] => True
  end.

(** A term between pipes that ends in a parenthesised tag: what the
    semantic-tag step looks for. *)
Definition tagged_term (w : jsstring) : Prop :=
  exists term gap tag gap',
    w = lit "|" ++ term ++ gap ++ lit "(" ++ tag ++ lit ")" ++ gap'
        ++ lit "|"
    /\ term <> [] /\ Forall (fun c => c <> chr "|") term
    /\ all_space gap
    /\ tag <> [] /\ Forall (fun c => c <> chr ")") tag
    /\ all_space gap'.

(** The canonical forms on which the theorem shows that a second pass
    changes nothing: the logical keywords between white space are in
    capitals, the operators are spaced as the operator steps space them,
    and no term carries a semantic tag any more. *)
Definition settled_form (s : jsstring) : bool :=
  keyword_settled "or" s && keyword_settled "and" s
  && keyword_settled "minus" s
  && operators_settled s
  && negb (js_test semanticTagPattern s).

(** ** The trailing semantic tag, directly *)

(** [s] is a semantic tag in parentheses with the white space around it,
    [\s*\([^)]+\)\s*], and nothing else. *)
Definition is_tag_suffix (s : jsstring) : bool :=
  match strip_start s with
  | c :: t =>
      let n := span (fun c => negb (c =? 41)%N) t in
      (c =? 40)%N && Nat.leb 1 n
      && match skipn n t with
         | c' :: u => (c' =? 41)%N && forallb is_space u
         | [] => false
         end
  | [] => false
  end.

(** [s] up to the leftmost place from which the rest is such a tag. *)
Fixpoint strip_tag (s : jsstring) : jsstring :=
  match s with
  | [] => []
  | c :: s' => if is_tag_suffix s then [] else c :: strip_tag s'
  end.

(** ** Percent-encoding, for the round trip through decodeURIComponent *)

Definition hex_char (n : N) : jschar :=
  if (n <? 10)%N then (48 + n)%N else (55 + n)%N.

(** The escape [%XX] of a byte. *)
Definition escape (b : N) : jsstring :=
  [37%N; hex_char (b / 16); hex_char (b mod 16)].

(** A text with the characters outside [unreserved] escaped, as
    encodeURIComponent writes the ASCII characters. *)
Definition percentEncode (unreserved : jschar -> bool) (s : jsstring)
  : jsstring :=
  flat_map (fun c => if unreserved c then [c] else escape c) s.

(** ** Descriptors with and without a label *)

(** The patterns of the recognizers that look for a label: SNOMED CT, SCT,
    dm+d or a snomed.info URL. *)
Definition labelledPatterns : list RegExp :=
  [complexEclPattern; altPrefixPattern; dmdPattern; refsetPattern;
   exactPattern; descendantsInclusivePattern; descendantsExclusivePattern;
   ancestorsInclusivePattern; ancestorsExclusivePattern; fhirEclPattern;
   fhirRefsetPattern; simpleConceptPattern; multipleConceptPattern].

(** Neither the letter S nor the letter D, in either case. *)
Definition no_label_letter (c : jschar) : Prop :=
  fold_case c <> chr "S" /\ fold_case c <> chr "D".

(** A character of a list of numbers: a digit, white space or a comma. *)
Definition number_list_char (c : jschar) : bool :=
  is_digit c || is_space c || (c =? chr ",")%N.

(** ** Stereotypes and the element tree *)

(** [str.split(sep)] for a separator of one character: the pieces between
    the separators, empty pieces included; the empty string gives one empty
    piece. *)
Fixpoint split (sep : jschar) (s : jsstring) : list jsstring :=
  match s with
  | [] => [[]]
  | c :: s' =>
      if jschar_eqb c sep then [] :: split sep s'
      else
        match split sep s' with
        | piece :: pieces => (c :: piece) :: pieces
        | [] => [[c]]
        end
  end.

(** What the script reads of the element tree: the stereotype list of an
    element, its child elements, its package and parent, and the elements
    of a package, each collection in the order of GetAt.  The identifier of
    an element is the element itself. *)
Record Repository : Type := mkRepository {
  StereotypeEx : ElementRef -> jsstring;
  Elements : ElementRef -> list ElementRef;
  PackageID : ElementRef -> nat;
  ParentID : ElementRef -> nat;
  PackageElements : nat -> list ElementRef
}.

Definition hasStereotype (repo : Repository) (element : ElementRef)
           (stereotypeName : jsstring) : bool :=
  let stereotypes := StereotypeEx repo element in
  if negb (truthy stereotypes) then false
  else
    let stereoArray := split (chr ",") stereotypes in
    existsb (fun item => jsstring_eqb (trimString item) stereotypeName)
      stereoArray.

(** A loop that hands the collection from one recursive call to the next;
    [None] when a call does not return. *)
Fixpoint collectEach
         (collect : ElementRef -> list ElementRef -> option (list ElementRef))
         (elements : list ElementRef) (collection : list ElementRef)
  : option (list ElementRef) :=
  match elements with
  | [] => Some collection
  | element :: rest =>
      match collect element collection with
      | Some collection' => collectEach collect rest collection'
      | None => None
      end
  end.

(** The recursion follows the tree and is not bounded by the script; [fuel]
    bounds its depth here, and [None] is a walk that goes deeper.  The
    collection is the array the caller passes in, with the elements pushed
    onto it. *)
Fixpoint collectDataElementsRecursively (fuel : nat) (repo : Repository)
         (element : ElementRef) (collection : list ElementRef)
  : option (list ElementRef) :=
  match fuel with
  | O => None
  | S fuel' =>
      let collection :=
        if hasStereotype repo element (lit "PRSB DataElement")
        then collection ++ [element] else collection in
      match collectEach (collectDataElementsRecursively fuel' repo)
              (Elements repo element) collection with
      | Some collection =>
          collectEach (collectDataElementsRecursively fuel' repo)
            (filter (fun packageElement =>
                       Nat.eqb (ParentID repo packageElement) element)
               (PackageElements repo (PackageID repo element)))
            collection
      | None => None
      end
  end.

Definition findAllDataElements (fuel : nat) (repo : Repository)
           (rootElement : ElementRef) : option (list ElementRef) :=
  collectDataElementsRecursively fuel repo rootElement [].

Definition findDataElementsInModel (fuel : nat) (repo : Repository)
           (modelElement : ElementRef) : option (list ElementRef) :=
  collectDataElementsRecursively fuel repo modelElement [].

(** The elements the walk goes to from [element]: its children, and the
    elements of its package that name it as parent. *)
Definition walked_from (repo : Repository) (element : ElementRef)
  : list ElementRef :=
  Elements repo element
  ++ filter (fun packageElement =>
               Nat.eqb (ParentID repo packageElement) element)
       (PackageElements repo (PackageID repo element)).

(** ** getCurrentDate *)

(** What the script reads of [new Date()]: getFullYear, getMonth (from 0)
    and getDate. *)
Record Date : Type := mkDate {
  getFullYear : nat;
  getMonth : nat;
  getDate : nat
}.

(** The decimal digits of [n] in front of [acc]. *)
Fixpoint digits_from (fuel n : nat) (acc : jsstring) : jsstring :=
  match fuel with
  | O => acc
  | S fuel' =>
      let acc' := (48 + N.of_nat (n mod 10))%N :: acc in
      if Nat.eqb (n / 10) 0 then acc' else digits_from fuel' (n / 10) acc'
  end.

(** A non-negative integer converted to a string, as [+] does with a string
    on the other side. *)
Definition numberToString (n : nat) : jsstring := digits_from (S n) n [].

Definition getCurrentDate (now : Date) : jsstring :=
  let year := getFullYear now in
  let month := getMonth now + 1 in
  let day := getDate now in
  let month :=
    if Nat.ltb month 10 then lit "0" ++ numberToString month
    else numberToString month in
  let day :=
    if Nat.ltb day 10 then lit "0" ++ numberToString day
    else numberToString day in
  numberToString year ++ lit "-" ++ month ++ lit "-" ++ day.

(** The number that a text of decimal digits denotes, read from the left;
    getCurrentDate is compared with it. *)
Definition decimal_value (text : jsstring) : nat :=
  fold_left (fun value c => 10 * value + N.to_nat (c - 48)%N) text 0.

(** ** main *)

(** A batch function run on the tree.  Its first step is the search: a
    search whose recursion does not come back ends in the engine's error
    before any element is processed; otherwise the batch function, which
    takes its search as a parameter, goes on with the list that the search
    returned. *)
Definition onSearch (search : option (list ElementRef))
           (batch : (ElementRef -> list ElementRef) -> Script unit)
  : Script unit :=
  match search with
  | Some dataElements => batch (fun _ => dataElements)
  | None => throw StackError
  end.

(** The object selected in the project browser: [None] when nothing is
    selected or the selection is not an element.  The two batch functions
    search the tree of [repo] with findAllDataElements and
    findDataElementsInModel; [fuel] is the depth of recursion the engine
    allows.  displayConversionSummary only writes to the output tab.  The
    handler of main counts an error. *)
Definition main (conversionConfig : Config) (today : jsstring)
           (refuses : ElementRef -> jsstring -> bool)
           (fuel : nat) (repo : Repository) (selection : option ElementRef)
  : Script unit :=
  try_catch
    (match selection with
     | None => ret tt
     | Some selectedElement =>
         if hasStereotype repo selectedElement (lit "PRSB DataElement") then
           convertSingleDataElement conversionConfig today refuses
             selectedElement
         else if hasStereotype repo selectedElement (lit "PRSB Standard") then
           onSearch (findAllDataElements fuel repo selectedElement)
             (fun search =>
                convertAllDataElementsInStandard conversionConfig today
                  refuses search selectedElement)
         else if hasStereotype repo selectedElement (lit "PRSB Model") then
           onSearch (findDataElementsInModel fuel repo selectedElement)
             (fun search =>
                convertAllDataElementsInModel conversionConfig today
                  refuses search selectedElement)
         else ret tt
     end)
    (bump incErrors).

(** [x] is [element] or is reached from it along the walk. *)
Inductive reachable (repo : Repository) : ElementRef -> ElementRef -> Prop :=
| reach_self (element : ElementRef) : reachable repo element element
| reach_step (element next x : ElementRef) :
    In next (walked_from repo element) -> reachable repo next x ->
    reachable repo element x.

Definition isDataElement (repo : Repository) (element : ElementRef) : Prop :=
  hasStereotype repo element (lit "PRSB DataElement") = true.

(** ** A sample element tree *)

(** A standard (1) with a data element (2) and a model (3) as children; the
    data element 4 is an element of the package whose parent is the
    model. *)
Definition sampleRepository : Repository :=
  mkRepository
    (fun e => match e with
              | 1 => lit "PRSB Standard"
              | 3 => lit "PRSB Model"
              | _ => lit "PRSB DataElement"
              end)
    (fun e => match e with 1 => [2; 3] | _ => [] end)
    (fun _ => 7)
    (fun e => match e with 4 => 3 | _ => 0 end)
    (fun _ => [1; 4]).

(** Identifier 0 is no element: it is the parent of the elements that
    have none. *)
Definition sampleDepth (e : ElementRef) : nat :=
  match e with 0 => 3 | 1 => 2 | 3 => 1 | _ => 0 end.

(** The same standard in a repository whose package also lists the
    children, each with its parent. *)
Definition sampleRepositoryListedTwice : Repository :=
  mkRepository
    (fun e => match e with
              | 1 => lit "PRSB Standard"
              | _ => lit "PRSB DataElement"
              end)
    (fun e => match e with 1 => [2] | _ => [] end)
    (fun _ => 7)
    (fun e => match e with 2 => 1 | _ => 0 end)
    (fun _ => [1; 2]).

(** A standard (1) that is listed among its own child elements: the walk
    from it never comes back. *)
Definition sampleRepositoryCyclic : Repository :=
  mkRepository
    (fun e => match e with
              | 1 => lit "PRSB Standard"
              | _ => lit "PRSB DataElement"
              end)
    (fun e => match e with 1 => [2; 1] | _ => [] end)
    (fun _ => 7)
    (fun _ => 0)
    (fun _ => []).

(** ** Sample worlds *)

Definition zeroCounter : Counter := mkCounter 0 0 0 0 0.

(** A repository in which every element carries the tagged values [tags]. *)
Definition worldWith (tags : list TaggedValue) : World :=
  mkWorld zeroCounter (fun _ => tags).

Definition defaultConfig : Config := mkConfig true true false.

Definition neverRefuses : ElementRef -> jsstring -> bool := fun _ _ => false.

(** A batch world in which element 1 carries a malformed FHIR URL. *)
Definition sampleBatchWorld : World :=
  mkWorld zeroCounter
    (fun element =>
       if Nat.eqb element 1
       then [mkTag (lit "valueSets") (lit "snomed.info/sct?fhir_vs=ecl/%") []]
       else [mkTag (lit "valueSets") (lit "dm+d: 123456") []]).

(** * Properties *)

(** ** Basic facts *)

Lemma jsstring_eqb_eq (a b : jsstring) : jsstring_eqb a b = true <-> a = b.
Proof.
  revert b; induction a as [|x a IH]; intros [|y b]; simpl;
    try (split; [discriminate | discriminate]); try tauto.
  unfold jschar_eqb. rewrite andb_true_iff, N.eqb_eq, IH.
  split; [intros [-> ->]; reflexivity | intros H; inversion H; auto].
Qed.

Lemma jsstring_eqb_refl (a : jsstring) : jsstring_eqb a a = true.
Proof. apply jsstring_eqb_eq; reflexivity. Qed.

Lemma jsstring_eqb_neq (a b : jsstring) : a <> b -> jsstring_eqb a b = false.
Proof.
  intros H; destruct (jsstring_eqb a b) eqn:E; [|reflexivity].
  apply jsstring_eqb_eq in E; contradiction.
Qed.

(** A string that is not blank is not empty. *)
Lemma not_blank_truthy (s : jsstring) : trimString s <> [] -> truthy s = true.
Proof. destruct s; [intros H; elim H; reflexivity | reflexivity]. Qed.

(** ** Tagged values *)

Lemma findTag_updateFirst (tags : list TaggedValue) (name value : jsstring) (tag : TaggedValue) :
  findTag tags name = Some tag ->
  findTag (updateFirst tags name value) name = Some (updateExisting tag value).
Proof.
  induction tags as [|t tags IH]; simpl; [discriminate|].
  destruct (jsstring_eqb (tagName t) name) eqn:E.
  - intros H; injection H as <-. simpl.
    assert (Hn : tagName (updateExisting t value) = tagName t)
      by (unfold updateExisting; destruct (Nat.ltb 255 (List.length value)); reflexivity).
    rewrite Hn, E. reflexivity.
  - intros H. simpl. rewrite E. auto.
Qed.

Lemma findTag_app_new (tags : list TaggedValue) (name : jsstring) (t : TaggedValue) :
  findTag tags name = None -> tagName t = name ->
  findTag (tags ++ [t]) name = Some t.
Proof.
  intros Hnone Hname. induction tags as [|u tags IH]; simpl in *.
  - rewrite Hname, jsstring_eqb_refl. reflexivity.
  - destruct (jsstring_eqb (tagName u) name); [discriminate | auto].
Qed.

(** What the first tag called [name] holds after a write. *)
Lemma findTag_writeTag (tags : list TaggedValue) (name value : jsstring) :
  exists tag,
    findTag (writeTag tags name value) name = Some tag /\
    if Nat.ltb 255 (List.length value)
    then tagValue tag = lit "<memo>" /\ tagNotes tag = value
    else tagValue tag = value /\ tagNotes tag = [].
Proof.
  unfold writeTag. destruct (findTag tags name) as [tag|] eqn:F.
  - exists (updateExisting tag value). split.
    + now apply findTag_updateFirst.
    + unfold updateExisting.
      destruct (Nat.ltb 255 (List.length value)); simpl; auto.
  - exists (createNew name value). split.
    + apply findTag_app_new; [assumption|].
      unfold createNew; destruct (Nat.ltb 255 (List.length value)); reflexivity.
    + unfold createNew.
      destruct (Nat.ltb 255 (List.length value)); simpl; auto.
Qed.

Lemma readTag_writeTag (tags : list TaggedValue) (name value : jsstring) :
  value <> lit "<memo>" -> readTag (writeTag tags name value) name = value.
Proof.
  intros Hv. destruct (findTag_writeTag tags name value) as (tag & F & H).
  unfold readTag. rewrite F.
  destruct (Nat.ltb 255 (List.length value)); destruct H as [H1 H2].
  - rewrite H1, jsstring_eqb_refl. exact H2.
  - rewrite H1, (jsstring_eqb_neq Hv). reflexivity.
Qed.

(** ** Tagged-value round trip *)

(** The two ways addOrUpdateTaggedValue ends. *)
Lemma addOrUpdate_accepted
  (refuses : ElementRef -> jsstring -> bool) (element : ElementRef)
  (name value : jsstring) (w : World) :
  refuses element name = false ->
  addOrUpdateTaggedValue refuses element name value w
  = (Ok tt,
     mkWorld (conversionCounter w)
       (fun e => if Nat.eqb e element
                 then writeTag (taggedValues w e) name value
                 else taggedValues w e)).
Proof.
  intros R. unfold addOrUpdateTaggedValue. rewrite R.
  now destruct (findTag (taggedValues w element) name).
Qed.

Lemma addOrUpdate_refused
  (refuses : ElementRef -> jsstring -> bool) (element : ElementRef)
  (name value : jsstring) (w : World) :
  refuses element name = true ->
  addOrUpdateTaggedValue refuses element name value w
  = (Throw EAError,
     match findTag (taggedValues w element) name with
     | Some _ =>
         mkWorld (conversionCounter w)
           (fun e => if Nat.eqb e element
                     then writeTag (taggedValues w e) name value
                     else taggedValues w e)
     | None => w
     end).
Proof.
  intros R. unfold addOrUpdateTaggedValue, throw. rewrite R.
  now destruct (findTag (taggedValues w element) name).
Qed.

Lemma addOrUpdate_returns
  (refuses : ElementRef -> jsstring -> bool) (element : ElementRef)
  (name value : jsstring) (w w' : World) :
  addOrUpdateTaggedValue refuses element name value w = (Ok tt, w') ->
  refuses element name = false /\
  w' = mkWorld (conversionCounter w)
         (fun e => if Nat.eqb e element
                   then writeTag (taggedValues w e) name value
                   else taggedValues w e).
Proof.
  intros H. destruct (refuses element name) eqn:R.
  - rewrite addOrUpdate_refused in H by exact R. discriminate.
  - rewrite addOrUpdate_accepted in H by exact R.
    injection H as <-. split; reflexivity.
Qed.

(** C10, as amended: for every tag name and every string value other than
    the sentinel text itself, a write by addOrUpdateTaggedValue that returns
    is read back unchanged by getTaggedValue; a value longer than 255
    characters is held as the sentinel Value with the full text in Notes. *)
Theorem tagged_value_round_trip
  (refuses : ElementRef -> jsstring -> bool) (element : ElementRef)
  (name value : jsstring) (w w' : World) :
  value <> lit "<memo>" ->
  addOrUpdateTaggedValue refuses element name value w = (Ok tt, w') ->
  getTaggedValue element name w' = (Ok value, w') /\
  (255 < List.length value ->
   exists tag, findTag (taggedValues w' element) name = Some tag /\
               tagValue tag = lit "<memo>" /\ tagNotes tag = value).
Proof.
  intros Hv Hw. apply addOrUpdate_returns in Hw as [_ ->].
  unfold getTaggedValue; simpl.
  rewrite Nat.eqb_refl. split.
  - now rewrite readTag_writeTag.
  - intros Hlen.
    destruct (findTag_writeTag (taggedValues w element) name value)
      as (tag & F & H).
    apply Nat.ltb_lt in Hlen. rewrite Hlen in H.
    exists tag. tauto.
Qed.

Lemma tagged_value_round_trip_witness :
  let w := worldWith [mkTag (lit "valueSets") (lit "dm+d: 123456") []] in
  exists w',
    getTaggedValue 0 (lit "snomedECL") w'
    = (Ok (lit "< 123456 |dm+d concept|"), w').
Proof.
  intros w.
  eexists.
  refine (proj1 (@tagged_value_round_trip neverRefuses 0 (lit "snomedECL")
                   (lit "< 123456 |dm+d concept|") w _ _ _)).
  - discriminate.
  - reflexivity.
Defined.

(** C10 as stated fails for the value that is the sentinel text: it is
    stored as a short value and read back as the (empty) Notes. *)
Lemma tagged_value_round_trip_counterexample :
  let w := worldWith [] in
  let w' := snd (addOrUpdateTaggedValue neverRefuses 0 (lit "note")
                   (lit "<memo>") w) in
  fst (addOrUpdateTaggedValue neverRefuses 0 (lit "note") (lit "<memo>") w)
  = Ok tt /\
  fst (getTaggedValue 0 (lit "note") w') = Ok [] /\
  fst (getTaggedValue 0 (lit "note") w') <> Ok (lit "<memo>").
Proof. vm_compute. repeat split; discriminate. Qed.

(** ** The guard *)

(** Run the plumbing of a script, leaving the string functions folded. *)
Ltac run_script :=
  unfold bind, bump, getTaggedValue, lift, ret, throw, try_catch;
  cbn [taggedValues conversionCounter fst snd].

Section GuardFacts.

Variable conversionConfig : Config.
Variable today : jsstring.
Variable refuses : ElementRef -> jsstring -> bool.

Let convertSingle := convertSingleDataElement conversionConfig today refuses.

(** An element skipped by the guard: nothing but two counters changes. *)
Lemma guard_skips (element : ElementRef) (w : World) :
  skipExistingEcl conversionConfig = true ->
  trimString (readTag (taggedValues w element) (lit "snomedECL")) <> [] ->
  convertSingle element w
  = (Ok tt,
     mkWorld (incExistingEclSkipped
                (incElementsProcessed (conversionCounter w)))
       (taggedValues w)).
Proof.
  intros Hskip Hecl.
  unfold convertSingle, convertSingleDataElement, convertBody.
  run_script.
  rewrite (not_blank_truthy _ Hecl), (jsstring_eqb_neq Hecl), Hskip.
  reflexivity.
Qed.

(** An element the guard lets through, whose descriptor is blank or makes
    the conversion return the empty string. *)
Lemma no_pattern_counted (element : ElementRef) (w : World) :
  let existingEcl := readTag (taggedValues w element) (lit "snomedECL") in
  let valueSetString := readTag (taggedValues w element) (lit "valueSets") in
  trimString existingEcl = [] \/ skipExistingEcl conversionConfig = false ->
  trimString valueSetString = []
  \/ extractSnomedEclFromValueSet valueSetString = Ok [] ->
  convertSingle element w
  = (Ok tt,
     mkWorld (incNonSnomedSkipped
                (incElementsProcessed (conversionCounter w)))
       (taggedValues w)).
Proof.
  intros existingEcl valueSetString Hguard Hvs.
  unfold convertSingle, convertSingleDataElement, convertBody.
  run_script. fold existingEcl valueSetString.
  assert (G : truthy existingEcl
              && negb (jsstring_eqb (trimString existingEcl) [])
              && skipExistingEcl conversionConfig = false).
  { destruct Hguard as [H | H]; rewrite H.
    - simpl. now rewrite andb_false_r.
    - now rewrite andb_false_r. }
  rewrite G. run_script. fold valueSetString.
  destruct (negb (truthy valueSetString)
            || jsstring_eqb (trimString valueSetString) []) eqn:B;
    run_script; [reflexivity|].
  destruct Hvs as [H | H].
  - rewrite H in B. simpl in B. now rewrite orb_true_r in B.
  - rewrite H. reflexivity.
Qed.

End GuardFacts.

(** ** The conditional chain and the recognizer list *)

Lemma extract_chain (valueSetString : jsstring) :
  extractSnomedEclFromValueSet valueSetString
  = if negb (truthy valueSetString)
       || jsstring_eqb (trimString valueSetString) []
    then Ok []
    else first_fired recognizers (trimString valueSetString).
Proof. reflexivity. Qed.


Lemma first_fired_none (rs : list Recognizer) (valueSet : jsstring) :
  Forall (fun r => r valueSet = None) rs -> first_fired rs valueSet = Ok [].
Proof.
  induction 1 as [|r rs Hr _ IH]; simpl; [reflexivity|]. now rewrite Hr.
Qed.

Lemma extract_no_match (valueSetString : jsstring) :
  trimString valueSetString = []
  \/ Forall (fun r => r (trimString valueSetString) = None) recognizers ->
  extractSnomedEclFromValueSet valueSetString = Ok [].
Proof.
  intros H. rewrite extract_chain.
  destruct (negb (truthy valueSetString)
            || jsstring_eqb (trimString valueSetString) []) eqn:B;
    [reflexivity|].
  destruct H as [H | H].
  - rewrite H in B. simpl in B. now rewrite orb_true_r in B.
  - now apply first_fired_none.
Qed.

(** ** Guard skip *)

(** C7, as amended: when skipExistingEcl is true and the snomedECL field of
    an element is not blank (not empty after trimming white space),
    processing the element writes no tagged value and increments only the
    elements-processed and existing-skipped counters; a second run does the
    same again, so it adds no write. *)
Theorem guard_skip_no_write
  (conversionConfig : Config) (today : jsstring)
  (refuses : ElementRef -> jsstring -> bool)
  (element : ElementRef) (w : World) :
  skipExistingEcl conversionConfig = true ->
  trimString (readTag (taggedValues w element) (lit "snomedECL")) <> [] ->
  let run := convertSingleDataElement conversionConfig today refuses element in
  let once := incExistingEclSkipped (incElementsProcessed (conversionCounter w)) in
  run w = (Ok tt, mkWorld once (taggedValues w)) /\
  run (snd (run w))
  = (Ok tt,
     mkWorld (incExistingEclSkipped (incElementsProcessed once))
       (taggedValues w)).
Proof.
  intros Hskip Hecl run once.
  assert (H1 : run w = (Ok tt, mkWorld once (taggedValues w)))
    by (apply guard_skips; assumption).
  split; [exact H1|].
  rewrite H1. cbn [snd]. unfold run.
  rewrite guard_skips; [reflexivity | assumption | exact Hecl].
Qed.

Lemma guard_skip_no_write_witness :
  let w := worldWith [mkTag (lit "snomedECL") (lit "< 123456 |dm+d concept|") [];
                      mkTag (lit "valueSets") (lit "dm+d: 999999") []] in
  fst (convertSingleDataElement defaultConfig (lit "2024-12-19") neverRefuses 0 w)
  = Ok tt.
Proof.
  intros w.
  assert (Hskip : skipExistingEcl defaultConfig = true) by reflexivity.
  assert (Hecl : trimString (readTag (taggedValues w 0) (lit "snomedECL")) <> [])
    by (vm_compute; discriminate).
  exact (f_equal fst
           (proj1 (guard_skip_no_write defaultConfig (lit "2024-12-19")
                     neverRefuses 0 w Hskip Hecl))).
Defined.

(** C7 as stated fails for a snomedECL field that is not empty but blank:
    the element is converted and written. *)
Lemma guard_skip_counterexample :
  let w := worldWith [mkTag (lit "snomedECL") (lit " ") [];
                      mkTag (lit "valueSets") (lit "dm+d: 123456") []] in
  let w' := snd (convertSingleDataElement defaultConfig (lit "2024-12-19")
                   neverRefuses 0 w) in
  skipExistingEcl defaultConfig = true /\
  readTag (taggedValues w 0) (lit "snomedECL") <> [] /\
  readTag (taggedValues w' 0) (lit "snomedECL") = lit "< 123456 |dm+d concept|" /\
  conversionsPerformed (conversionCounter w') = 1 /\
  existingEclSkipped (conversionCounter w') = 0.
Proof. vm_compute. repeat split; discriminate. Qed.

(** ** No SNOMED pattern *)

(** C8, as amended: for every element the guard does not skip (its snomedECL
    field is blank, or skipExistingEcl is false) whose valueSets descriptor
    is missing, empty or blank, or makes every recognizer fall through, the
    conversion returns the empty string, no tagged value is written, the
    no-SNOMED-pattern counter is incremented, and the error counter is
    unchanged. *)
Theorem no_match_is_not_an_error
  (conversionConfig : Config) (today : jsstring)
  (refuses : ElementRef -> jsstring -> bool)
  (element : ElementRef) (w : World) :
  let existingEcl := readTag (taggedValues w element) (lit "snomedECL") in
  let valueSetString := readTag (taggedValues w element) (lit "valueSets") in
  trimString existingEcl = [] \/ skipExistingEcl conversionConfig = false ->
  trimString valueSetString = []
  \/ Forall (fun r => r (trimString valueSetString) = None) recognizers ->
  extractSnomedEclFromValueSet valueSetString = Ok [] /\
  exists w',
    convertSingleDataElement conversionConfig today refuses element w
    = (Ok tt, w') /\
    taggedValues w' = taggedValues w /\
    nonSnomedSkipped (conversionCounter w')
    = S (nonSnomedSkipped (conversionCounter w)) /\
    errors (conversionCounter w') = errors (conversionCounter w) /\
    conversionsPerformed (conversionCounter w')
    = conversionsPerformed (conversionCounter w) /\
    existingEclSkipped (conversionCounter w')
    = existingEclSkipped (conversionCounter w).
Proof.
  intros existingEcl valueSetString Hguard Hvs.
  assert (E : extractSnomedEclFromValueSet valueSetString = Ok [])
    by (apply extract_no_match; exact Hvs).
  split; [exact E|].
  eexists. split.
  - apply no_pattern_counted; [exact Hguard | right; exact E].
  - repeat split.
Qed.

Lemma no_match_is_not_an_error_witness :
  let w := worldWith [mkTag (lit "valueSets") (lit "Local procedure codes") []] in
  extractSnomedEclFromValueSet (readTag (taggedValues w 0) (lit "valueSets"))
  = Ok [].
Proof.
  intros w.
  refine (proj1 (no_match_is_not_an_error defaultConfig (lit "2024-12-19")
                   neverRefuses 0 w _ _)).
  - left. vm_compute. reflexivity.
  - right. unfold recognizers.
    repeat (apply Forall_cons; [vm_compute; reflexivity|]).
    apply Forall_nil.
Defined.

(** C8 as stated fails for an element that the guard skips: its descriptor
    is empty, yet the counter that moves is existing-skipped. *)
Lemma no_match_counterexample :
  let w := worldWith [mkTag (lit "snomedECL") (lit "< 123456 |dm+d concept|") []] in
  let w' := snd (convertSingleDataElement defaultConfig (lit "2024-12-19")
                   neverRefuses 0 w) in
  readTag (taggedValues w 0) (lit "valueSets") = [] /\
  nonSnomedSkipped (conversionCounter w') = nonSnomedSkipped (conversionCounter w) /\
  existingEclSkipped (conversionCounter w') = 1.
Proof. vm_compute. repeat split. Qed.

(** ** Fault containment *)

Section Containment.

Variable conversionConfig : Config.
Variable today : jsstring.
Variable refuses : ElementRef -> jsstring -> bool.

Let body := convertBody conversionConfig today refuses.
Let convertSingle := convertSingleDataElement conversionConfig today refuses.
Let convertAll := forEachDataElement conversionConfig today refuses.

Lemma addOrUpdate_counter (element : ElementRef) (name value : jsstring)
      (w : World) :
  conversionCounter
    (snd (addOrUpdateTaggedValue refuses element name value w))
  = conversionCounter w.
Proof.
  destruct (refuses element name) eqn:R.
  - rewrite addOrUpdate_refused by exact R. simpl.
    now destruct (findTag (taggedValues w element) name).
  - now rewrite addOrUpdate_accepted by exact R.
Qed.

(** Whatever path the try block takes, returning or throwing, it counts the
    element as processed and leaves the error counter alone. *)
Lemma body_counters (element : ElementRef) (w : World) :
  let c' := conversionCounter (snd (body element w)) in
  elementsProcessed c' = S (elementsProcessed (conversionCounter w)) /\
  errors c' = errors (conversionCounter w).
Proof.
  unfold body, convertBody. run_script.
  destruct (truthy _ && negb _ && skipExistingEcl conversionConfig);
    run_script; [split; reflexivity|].
  destruct (negb _ || jsstring_eqb _ []); run_script; [split; reflexivity|].
  destruct (extractSnomedEclFromValueSet _) as [ecl|e]; run_script;
    [|split; reflexivity].
  destruct (truthy ecl && negb _); run_script; [|split; reflexivity].
  destruct (refuses element (lit "snomedECL")) eqn:R1;
    [rewrite addOrUpdate_refused by exact R1
    |rewrite addOrUpdate_accepted by exact R1]; run_script;
    [destruct (findTag _ _); split; reflexivity|].
  destruct (refuses element (lit "eclSource")) eqn:R2;
    [rewrite addOrUpdate_refused by exact R2
    |rewrite addOrUpdate_accepted by exact R2]; run_script;
    [destruct (findTag _ _); split; reflexivity|].
  destruct (refuses element (lit "eclConversionDate")) eqn:R3;
    [rewrite addOrUpdate_refused by exact R3
    |rewrite addOrUpdate_accepted by exact R3]; run_script;
    [destruct (findTag _ _); split; reflexivity|].
  split; reflexivity.
Qed.

Lemma convertSingle_cases (element : ElementRef) (w : World) :
  (exists w', body element w = (Ok tt, w')
              /\ convertSingle element w = (Ok tt, w')) \/
  (exists e w', body element w = (Throw e, w')
                /\ convertSingle element w
                   = (Ok tt, mkWorld (incErrors (conversionCounter w'))
                               (taggedValues w'))).
Proof.
  unfold convertSingle, convertSingleDataElement, try_catch, bump.
  fold (body element).
  destruct (body element w) as [[[]|e] w'].
  - left. exists w'. split; reflexivity.
  - right. exists e, w'. split; reflexivity.
Qed.

Lemma convertSingle_returns (element : ElementRef) (w : World) :
  fst (convertSingle element w) = Ok tt /\
  elementsProcessed (conversionCounter (snd (convertSingle element w)))
  = S (elementsProcessed (conversionCounter w)).
Proof.
  destruct (body_counters element w) as [Hp _].
  destruct (convertSingle_cases element w)
    as [(w' & Hb & Hc) | (e & w' & Hb & Hc)];
    rewrite Hc; rewrite Hb in Hp; simpl in *; auto.
Qed.

Lemma convertAll_app (before after : list ElementRef) (w : World) :
  convertAll (before ++ after) w = convertAll after (snd (convertAll before w)).
Proof.
  revert w. induction before as [|el before IH]; intros w; [reflexivity|].
  simpl. unfold bind. fold convertSingle.
  destruct (convertSingle_returns el w) as [Hr _].
  destruct (convertSingle el w) as [r w1]. simpl in Hr. subst r.
  apply IH.
Qed.

Lemma convertAll_returns (elements : list ElementRef) (w : World) :
  fst (convertAll elements w) = Ok tt /\
  elementsProcessed (conversionCounter (snd (convertAll elements w)))
  = elementsProcessed (conversionCounter w) + List.length elements.
Proof.
  revert w. induction elements as [|el elements IH]; intros w.
  - simpl. split; [reflexivity | lia].
  - simpl. unfold bind. fold convertSingle.
    destruct (convertSingle_returns el w) as [Hr Hp].
    destruct (convertSingle el w) as [r w1]. simpl in Hr, Hp. subst r.
    destruct (IH w1) as [IH1 IH2]. split; [exact IH1|].
    unfold convertAll in IH2 |- *. rewrite IH2, Hp. lia.
Qed.

End Containment.

(** C9: when the processing of one element of a batch raises an exception,
    the exception is caught for that element, the error counter goes up by
    one, the loop goes on with the elements that follow, and the batch
    returns normally with every element counted as processed. *)
Theorem fault_containment
  (conversionConfig : Config) (today : jsstring)
  (refuses : ElementRef -> jsstring -> bool)
  (findAllDataElements : ElementRef -> list ElementRef)
  (standardElement : ElementRef)
  (before after : list ElementRef) (element : ElementRef)
  (w w1 : World) (e : Exn) :
  let loop := forEachDataElement conversionConfig today refuses in
  let batch :=
    convertAllDataElementsInStandard conversionConfig today refuses
      findAllDataElements standardElement in
  let w0 := snd (loop before w) in
  findAllDataElements standardElement = before ++ element :: after ->
  convertBody conversionConfig today refuses element w0 = (Throw e, w1) ->
  let caught := mkWorld (incErrors (conversionCounter w1)) (taggedValues w1) in
  convertSingleDataElement conversionConfig today refuses element w0
  = (Ok tt, caught) /\
  errors (conversionCounter caught) = S (errors (conversionCounter w0)) /\
  batch w = loop after caught /\
  fst (batch w) = Ok tt /\
  elementsProcessed (conversionCounter (snd (batch w)))
  = elementsProcessed (conversionCounter w)
    + List.length (findAllDataElements standardElement).
Proof.
  intros loop batch w0 Hfound Hthrow caught.
  assert (Hbatch : batch w = loop (before ++ element :: after) w).
  { unfold batch, convertAllDataElementsInStandard. rewrite Hfound.
    destruct before; reflexivity. }
  assert (Hsingle :
            convertSingleDataElement conversionConfig today refuses element w0
            = (Ok tt, caught)).
  { destruct (convertSingle_cases conversionConfig today refuses element w0)
      as [(w' & Hb & _) | (e' & w' & Hb & Hc)].
    - rewrite Hthrow in Hb. discriminate.
    - rewrite Hthrow in Hb. injection Hb as <- <-. exact Hc. }
  split; [exact Hsingle|]. split.
  - destruct (body_counters conversionConfig today refuses element w0)
      as [_ He].
    rewrite Hthrow in He. simpl in He. simpl. now rewrite He.
  - rewrite Hbatch, Hfound. split.
    + unfold loop. rewrite convertAll_app.
      change (forEachDataElement conversionConfig today refuses
                (element :: after))
        with (bind (convertSingleDataElement conversionConfig today refuses
                      element)
                (fun _ => forEachDataElement conversionConfig today
                            refuses after)).
      unfold bind. fold loop. fold w0. rewrite Hsingle. reflexivity.
    + apply convertAll_returns.
Qed.

Lemma fault_containment_witness :
  fst (convertAllDataElementsInStandard defaultConfig (lit "2024-12-19")
         neverRefuses (fun _ => [0; 1; 2]) 7 sampleBatchWorld)
  = Ok tt.
Proof.
  pose (loop := forEachDataElement defaultConfig (lit "2024-12-19")
                  neverRefuses).
  pose (w0 := snd (loop [0] sampleBatchWorld)).
  pose (thrown := convertBody defaultConfig (lit "2024-12-19") neverRefuses
                    1 w0).
  assert (F : fst thrown = Throw URIError) by (vm_compute; reflexivity).
  assert (H : thrown = (Throw URIError, snd thrown))
    by (rewrite <- F; apply surjective_pairing).
  exact (proj1 (proj2 (proj2 (proj2
           (@fault_containment defaultConfig (lit "2024-12-19") neverRefuses
              (fun _ => [0; 1; 2]) 7 [0] [2] 1 sampleBatchWorld (snd thrown)
              URIError eq_refl H))))).
Defined.

(** ** The matcher against the texts a pattern can match *)

Section MatcherFacts.

Variable ic : bool.
Variable R : Type.

Lemma rep_match_sound (a : Atom) (lo : nat) (hi : option nat) :
  forall (s : jsstring) (n i : nat) (caps : Caps) (k : Cont R) (x : R),
    rep_match ic a lo hi n i s caps k = Some x ->
    exists w s',
      s = w ++ s'
      /\ Forall (fun c => atom_match ic a c = true) w
      /\ lo <= n + List.length w
      /\ (within hi n -> within hi (n + List.length w))
      /\ k (i + List.length w) s' caps = Some x.
Proof.
  assert (Stop : forall s n i caps (k : Cont R) x,
             (if Nat.leb lo n then k i s caps else None) = Some x ->
             exists w s',
               s = w ++ s'
               /\ Forall (fun c => atom_match ic a c = true) w
               /\ lo <= n + List.length w
               /\ (within hi n -> within hi (n + List.length w))
               /\ k (i + List.length w) s' caps = Some x).
  { intros s n i caps k x H.
    destruct (Nat.leb lo n) eqn:L; [|discriminate].
    apply Nat.leb_le in L.
    exists [], s. simpl. rewrite !Nat.add_0_r. repeat split; auto. }
  induction s as [|c s IH]; intros n i caps k x H; simpl in H.
  - now apply Stop.
  - destruct (atom_match ic a c && below hi n) eqn:T; [|now apply Stop].
    destruct (rep_match ic a lo hi (S n) (S i) s caps k) as [y|] eqn:E;
      [|now apply Stop].
    injection H as ->.
    apply andb_true_iff in T. destruct T as [Ta Tb].
    destruct (IH _ _ _ _ _ E) as (w & s' & -> & Hw & Hlo & Hhi & Hk).
    exists (c :: w), s'. simpl.
    replace (n + S (List.length w)) with (S n + List.length w) by lia.
    replace (i + S (List.length w)) with (S i + List.length w) by lia.
    repeat split; auto.
    intros _. apply Hhi. destruct hi as [h|]; simpl in *; [|exact I].
    apply Nat.ltb_lt in Tb. lia.
Qed.

Lemma rmatch_sound (r : Regex) :
  forall (i : nat) (s : jsstring) (caps : Caps) (k : Cont R) (x : R),
    rmatch ic r i s caps k = Some x ->
    exists w s' caps',
      s = w ++ s' /\ lang ic r w
      /\ k (i + List.length w) s' caps' = Some x.
Proof.
  induction r as [|a|a lo hi|r1 IH1|r1 IH1 r2 IH2|r1 IH1 r2 IH2|n r1 IH1| |];
    intros i s caps k x H; simpl in H.
  - exists [], s, caps. simpl. rewrite Nat.add_0_r. auto.
  - destruct s as [|c s]; [discriminate|].
    destruct (atom_match ic a c) eqn:T; [|discriminate].
    exists [c], s, caps. simpl. replace (i + 1) with (S i) by lia.
    repeat split; eauto.
  - destruct (rep_match_sound _ _ _ _ _ _ _ _ H)
      as (w & s' & -> & Hw & Hlo & Hhi & Hk).
    exists w, s', caps. simpl. repeat split; auto.
    apply Hhi. destruct hi; simpl; [lia | exact I].
  - destruct (rmatch ic r1 i s caps _) as [y|] eqn:E.
    + injection H as ->.
      destruct (IH1 _ _ _ _ _ E) as (w & s' & caps' & -> & Hw & Hk).
      destruct (Nat.eqb (i + List.length w) i); [discriminate|].
      exists w, s', caps'. simpl. auto.
    + exists [], s, caps. simpl. rewrite Nat.add_0_r. auto.
  - destruct (IH1 _ _ _ _ _ H) as (w1 & s1 & caps1 & -> & Hw1 & Hk1).
    destruct (IH2 _ _ _ _ _ Hk1) as (w2 & s2 & caps2 & -> & Hw2 & Hk2).
    exists (w1 ++ w2), s2, caps2. simpl.
    rewrite <- app_assoc, length_app, Nat.add_assoc.
    repeat split; eauto.
  - destruct (rmatch ic r1 i s caps k) as [y|] eqn:E.
    + injection H as ->.
      destruct (IH1 _ _ _ _ _ E) as (w & s' & caps' & -> & Hw & Hk).
      exists w, s', caps'. simpl. auto.
    + destruct (IH2 _ _ _ _ _ H) as (w & s' & caps' & -> & Hw & Hk).
      exists w, s', caps'. simpl. auto.
  - destruct (IH1 _ _ _ _ _ H) as (w & s' & caps' & -> & Hw & Hk).
    exists w, s', ((n, firstn (i + List.length w - i) (w ++ s')) :: caps').
    simpl. auto.
  - destruct (Nat.eqb i 0); [|discriminate].
    exists [], s, caps. simpl. rewrite Nat.add_0_r. auto.
  - destruct s; [|discriminate].
    exists [], [], caps. simpl. rewrite Nat.add_0_r. auto.
Qed.

Lemma rep_match_complete (a : Atom) (lo : nat) (hi : option nat) :
  forall (w s' : jsstring) (n i : nat) (caps : Caps) (k : Cont R),
    Forall (fun c => atom_match ic a c = true) w ->
    lo <= n + List.length w ->
    within hi (n + List.length w) ->
    k (i + List.length w) s' caps <> None ->
    rep_match ic a lo hi n i (w ++ s') caps k <> None.
Proof.
  induction w as [|c w IH]; intros s' n i caps k Hw Hlo Hhi Hk.
  - simpl in *. rewrite Nat.add_0_r in *.
    apply Nat.leb_le in Hlo.
    destruct s' as [|c s']; simpl; rewrite Hlo; [exact Hk|].
    destruct (atom_match ic a c && below hi n); [|exact Hk].
    destruct (rep_match ic a lo hi (S n) (S i) s' caps k);
      [discriminate | exact Hk].
  - inversion Hw as [|? ? Hc Hw']; subst. simpl in *.
    assert (B : below hi n = true).
    { destruct hi as [h|]; simpl in *; [|reflexivity].
      apply Nat.ltb_lt. lia. }
    rewrite Hc, B. simpl.
    assert (H : rep_match ic a lo hi (S n) (S i) (w ++ s') caps k <> None).
    { apply IH; auto.
      - lia.
      - destruct hi; simpl in *; [lia | exact I].
      - replace (S i + List.length w) with (i + S (List.length w)) by lia.
        exact Hk. }
    destruct (rep_match ic a lo hi (S n) (S i) (w ++ s') caps k);
      [discriminate | now elim H].
Qed.

Lemma rmatch_complete (r : Regex) :
  anchor_free r = true ->
  forall (w s' : jsstring) (i : nat) (caps : Caps) (k : Cont R),
    lang ic r w ->
    (forall caps', k (i + List.length w) s' caps' <> None) ->
    rmatch ic r i (w ++ s') caps k <> None.
Proof.
  induction r as [|a|a lo hi|r1 IH1|r1 IH1 r2 IH2|r1 IH1 r2 IH2|n r1 IH1| |];
    intros AF w s' i caps k Hw Hk; simpl in *; try discriminate.
  - subst w. simpl in *. rewrite Nat.add_0_r in Hk. apply Hk.
  - destruct Hw as (c & -> & Hc). simpl. rewrite Hc.
    replace (S i) with (i + 1) by lia. apply Hk.
  - destruct Hw as (Hw & Hlo & Hhi).
    apply rep_match_complete; auto.
  - destruct w as [|c w].
    + simpl in *. rewrite Nat.add_0_r in Hk.
      destruct (rmatch ic r1 i s' caps _); [discriminate | apply Hk].
    + destruct Hw as [Hw | Hw]; [discriminate|].
      assert (H : rmatch ic r1 i ((c :: w) ++ s') caps
                    (fun j s'0 caps' =>
                       if Nat.eqb j i then None else k j s'0 caps')
                  <> None).
      { apply IH1; auto. intros caps'.
        destruct (Nat.eqb (i + List.length (c :: w)) i) eqn:E.
        - apply Nat.eqb_eq in E. simpl in E. lia.
        - apply Hk. }
      simpl in H |- *.
      destruct (rmatch ic r1 i (c :: w ++ s') caps _);
        [discriminate | now elim H].
  - apply andb_true_iff in AF. destruct AF as [AF1 AF2].
    destruct Hw as (w1 & w2 & -> & Hw1 & Hw2).
    rewrite <- app_assoc. apply IH1; auto.
    intros caps'. apply IH2; auto.
    intros caps''. rewrite <- Nat.add_assoc, <- length_app. apply Hk.
  - apply andb_true_iff in AF. destruct AF as [AF1 AF2].
    destruct (rmatch ic r1 i (w ++ s') caps k) eqn:E; [discriminate|].
    destruct Hw as [Hw | Hw].
    + exfalso. revert E. apply IH1; auto.
    + apply IH2; auto.
  - apply IH1; auto.
Qed.

End MatcherFacts.

Lemma firstn_add_sub (i : nat) (w s' : jsstring) :
  firstn (i + List.length w - i) (w ++ s') = w.
Proof.
  replace (i + List.length w - i) with (List.length w + 0) by lia.
  rewrite firstn_app_2. simpl. apply app_nil_r.
Qed.

Lemma match_here_sound (re : RegExp) (i : nat) (s : jsstring) (m : MatchResult) :
  match_here re i s = Some m ->
  exists w s', s = w ++ s' /\ matches re w /\ m_text m = w /\ m_index m = i.
Proof.
  unfold match_here. intros H.
  destruct (rmatch_sound _ _ _ _ _ _ H) as (w & s' & caps' & -> & Hw & Hk).
  injection Hk as <-. simpl. rewrite firstn_add_sub.
  exists w, s'. auto.
Qed.

Lemma match_here_complete (re : RegExp) (i : nat) (w s' : jsstring) :
  anchor_free (re_body re) = true -> matches re w ->
  match_here re i (w ++ s') <> None.
Proof.
  intros AF Hw. unfold match_here.
  apply rmatch_complete; auto. discriminate.
Qed.

Lemma search_sound (re : RegExp) :
  forall (s : jsstring) (i : nat) (m : MatchResult),
    search re i s = Some m ->
    exists pre w post,
      s = pre ++ w ++ post /\ matches re w /\ m_text m = w
      /\ m_index m = i + List.length pre.
Proof.
  induction s as [|c s IH]; intros i m H; simpl in H.
  - destruct (match_here re i []) as [m'|] eqn:E; [|discriminate].
    injection H as ->.
    destruct (match_here_sound _ _ _ E) as (w & s' & Hs & Hw & Ht & Hi).
    exists [], w, s'. simpl. rewrite Nat.add_0_r. auto.
  - destruct (match_here re i (c :: s)) as [m'|] eqn:E.
    + injection H as ->.
      destruct (match_here_sound _ _ _ E) as (w & s' & Hs & Hw & Ht & Hi).
      exists [], w, s'. simpl. rewrite Nat.add_0_r. auto.
    + destruct (IH _ _ H) as (pre & w & post & -> & Hw & Ht & Hi).
      exists (c :: pre), w, post. simpl. repeat split; auto. lia.
Qed.

Lemma search_complete (re : RegExp) :
  anchor_free (re_body re) = true ->
  forall (pre w post : jsstring) (i : nat),
    matches re w -> search re i (pre ++ w ++ post) <> None.
Proof.
  intros AF. induction pre as [|c pre IH]; intros w post i Hw.
  - simpl.
    pose proof (match_here_complete re i w post AF Hw) as H.
    destruct (w ++ post); simpl;
      destruct (match_here re i _); try discriminate; now elim H.
  - simpl. destruct (match_here re i _); [discriminate|].
    now apply IH.
Qed.

(** For a pattern without anchors, [test] says whether the text has a part
    the pattern can match. *)
Lemma js_test_iff (re : RegExp) (s : jsstring) :
  anchor_free (re_body re) = true ->
  js_test re s = true <-> contains (matches re) s.
Proof.
  intros AF. unfold js_test, js_match. split.
  - destruct (search re 0 s) as [m|] eqn:E; [|discriminate]. intros _.
    destruct (search_sound _ _ _ E) as (pre & w & post & Hs & Hw & _).
    exists pre, w, post. auto.
  - intros (pre & w & post & -> & Hw).
    pose proof (search_complete re AF pre w post 0 Hw) as H.
    destruct (search re 0 _); [reflexivity | now elim H].
Qed.

(** ** The patterns of the validity gate *)

Lemma atom_sp (ic : bool) (c : jschar) : atom_match ic sp c = is_space c.
Proof. simpl. now rewrite orb_false_r. Qed.

Lemma atom_dg (ic : bool) (c : jschar) : atom_match ic dg c = is_digit c.
Proof. simpl. now rewrite orb_false_r. Qed.

Lemma Forall_atom_sp (ic : bool) (w : jsstring) :
  Forall (fun c => atom_match ic sp c = true) w <-> all_space w.
Proof.
  unfold all_space. rewrite !Forall_forall.
  split; intros H c Hc; specialize (H c Hc); now rewrite atom_sp in *.
Qed.

Lemma Forall_atom_dg (ic : bool) (w : jsstring) :
  Forall (fun c => atom_match ic dg c = true) w <-> all_digits w.
Proof.
  unfold all_digits. rewrite !Forall_forall.
  split; intros H c Hc; specialize (H c Hc); now rewrite atom_dg in *.
Qed.

(** A literal word matches letter by letter. *)
Lemma lang_letters (ic : bool) (l : list ascii) (w : jsstring) :
  lang ic (cat (List.map (fun a => One (AChar (chr a))) l)) w
  <-> Forall2 (fun a c => char_match ic (chr a) c = true) l w.
Proof.
  revert w. induction l as [|a l IH]; intros w; simpl.
  - split; [intros ->; constructor | intros H; now inversion H].
  - split.
    + intros (w1 & w2 & -> & (c & -> & Hc) & H2).
      constructor; [exact Hc | now apply IH].
    + intros H. inversion H as [|? c ? w' Hc Hw]; subst.
      exists [c], w'. repeat split; eauto. now apply IH.
Qed.

Lemma letters_ignoring_case (l : list ascii) (w : jsstring) :
  Forall2 (fun a c => char_match true (chr a) c = true) l w
  <-> same_ignoring_case (List.map chr l) w.
Proof.
  unfold same_ignoring_case. revert w.
  induction l as [|a l IH]; intros [|c w]; simpl;
    try (split; intros H; [inversion H | discriminate]).
  - split; [reflexivity | constructor].
  - split.
    + intros H. inversion H as [|? ? ? ? Hc Hw]; subst.
      apply N.eqb_eq in Hc. f_equal; [exact Hc | now apply IH].
    + intros H. injection H as Hc Hw. constructor.
      * now apply N.eqb_eq.
      * now apply IH.
Qed.

Lemma lang_word_ignoring_case (kw : string) (w : jsstring) :
  lang true (word kw) w <-> same_ignoring_case (lit kw) w.
Proof.
  unfold word. rewrite lang_letters, letters_ignoring_case. reflexivity.
Qed.

Lemma lang_keywords (k1 k2 k3 : string) (w : jsstring) :
  lang true (Alt (word k1) (Alt (word k2) (word k3))) w
  <-> is_keyword [k1; k2; k3] w.
Proof.
  simpl lang. rewrite !lang_word_ignoring_case. unfold is_keyword. split.
  - intros [H | [H | H]]; eexists; (split; [|exact H]); simpl; auto.
  - intros (kw & [<- | [<- | [<- | []]]] & H); auto.
Qed.

(** The folding of the matcher identifies exactly the two cases of a
    letter. *)
Lemma fold_case_same_letter (a b : jschar) :
  fold_case a = fold_case b <-> same_letter a b.
Proof.
  unfold fold_case, same_letter.
  destruct (N.leb_spec 97 a), (N.leb_spec a 122), (N.leb_spec 97 b),
    (N.leb_spec b 122); cbn [andb]; lia.
Qed.

Lemma same_ignoring_case_letters (a b : jsstring) :
  same_ignoring_case a b <-> Forall2 same_letter a b.
Proof.
  unfold same_ignoring_case. revert b.
  induction a as [|x a IH]; intros [|y b]; cbn [List.map];
    try (split; intros H; [discriminate | inversion H]).
  - split; [constructor | reflexivity].
  - split.
    + intros H. injection H as Hx Hab. constructor.
      * now apply fold_case_same_letter.
      * now apply IH.
    + intros H. inversion H as [|? ? ? ? Hx Hab]; subst. f_equal.
      * now apply fold_case_same_letter.
      * now apply IH.
Qed.

(** The keywords of a pattern, written in either case there, are the
    logical keywords. *)
Lemma is_keyword_logical (k1 k2 k3 : string) (w : jsstring) :
  List.map fold_case (lit k1) = List.map fold_case (lit "AND") ->
  List.map fold_case (lit k2) = List.map fold_case (lit "OR") ->
  List.map fold_case (lit k3) = List.map fold_case (lit "MINUS") ->
  is_keyword [k1; k2; k3] w <-> logical_keyword w.
Proof.
  intros E1 E2 E3. unfold logical_keyword, in_any_case, is_keyword.
  rewrite <- !same_ignoring_case_letters. unfold same_ignoring_case.
  rewrite <- E1, <- E2, <- E3. split.
  - intros (kw & [<- | [<- | [<- | []]]] & H); auto.
  - intros [H | [H | H]]; eexists; (split; [|exact H]); simpl; auto.
Qed.

Lemma is_keyword_swap (k1 k2 k3 : string) (w : jsstring) :
  is_keyword [k1; k2; k3] w <-> is_keyword [k2; k1; k3] w.
Proof.
  unfold is_keyword.
  split; intros (kw & Hin & H); exists kw; (split; [|exact H]);
    simpl in *; tauto.
Qed.

Lemma fold_case_not_letter (p c : jschar) :
  (p < 65 \/ 90 < p)%N -> fold_case c = p -> c = p.
Proof.
  unfold fold_case. intros Hp.
  destruct ((97 <=? c)%N && (c <=? 122)%N) eqn:E; [|auto].
  apply andb_true_iff in E. destruct E as [E1 E2].
  apply N.leb_le in E1, E2. lia.
Qed.

Lemma operator_class (c : jschar) :
  atom_match true
    (ASet false [CChar (chr "<"); CChar (chr ">"); CChar (chr "^")]) c = true
  <-> is_operator_char c.
Proof.
  unfold is_operator_char.
  cbn [atom_match existsb item_match char_match]. rewrite xorb_false_l.
  rewrite !orb_true_iff, !N.eqb_eq. split.
  - intros [H | [H | [H | H]]]; try discriminate;
      symmetry in H; apply fold_case_not_letter in H; auto;
      vm_compute; intuition discriminate.
  - intros [-> | [-> | ->]]; vm_compute; auto.
Qed.

Lemma eclOperatorsPattern_matches (w : jsstring) :
  matches eclOperatorsPattern w <-> operator_or_keyword w.
Proof.
  unfold matches, eclOperatorsPattern, operator_or_keyword.
  cbn [re_body re_ignoreCase].
  change (lang true (Alt ?a ?b) w) with (lang true a w \/ lang true b w).
  rewrite lang_keywords, is_keyword_logical by reflexivity. cbn [lang].
  split; (intros [(c & -> & Hc) | H]; [left | right; exact H]);
    exists c; split; auto; now apply operator_class.
Qed.

Lemma conceptIdsPattern_matches (w : jsstring) :
  matches conceptIdsPattern w <-> digit_run_6_18 w.
Proof.
  unfold matches, conceptIdsPattern, digit_run_6_18, digits_6_18.
  cbn [re_body re_ignoreCase lang within]. now rewrite Forall_atom_dg.
Qed.

Lemma length_pos_not_nil (w : jsstring) : 1 <= List.length w <-> w <> [].
Proof.
  destruct w; simpl; split; intros H; try lia; try discriminate.
  now elim H.
Qed.

Lemma lang_plus_sp (ic : bool) (w : jsstring) :
  lang ic (plus sp) w <-> w <> [] /\ all_space w.
Proof.
  unfold plus. cbn [lang within].
  rewrite Forall_atom_sp, length_pos_not_nil. tauto.
Qed.

Lemma lang_star_sp (ic : bool) (w : jsstring) :
  lang ic (star sp) w <-> all_space w.
Proof.
  unfold star. cbn [lang within]. rewrite Forall_atom_sp.
  split; [tauto | intros H; repeat split; auto; lia].
Qed.

Lemma logicalJoinPattern_matches (w : jsstring) :
  matches logicalJoinPattern w <-> keyword_join w.
Proof.
  unfold matches, logicalJoinPattern, keyword_join.
  cbn [re_body re_ignoreCase]. split.
  - intros (a & t & -> & Ha & (kw & u & -> & Hkw & (b & e & -> & Hb & ->))).
    apply lang_plus_sp in Ha, Hb. apply lang_keywords in Hkw.
    apply is_keyword_swap, is_keyword_logical in Hkw; try reflexivity.
    rewrite app_nil_r. exists a, kw, b. tauto.
  - intros (a & kw & b & -> & Ha1 & Ha2 & Hkw & Hb1 & Hb2).
    exists a, (kw ++ b). split; [reflexivity|]. split.
    + apply lang_plus_sp. tauto.
    + exists kw, b. split; [reflexivity|]. split.
      * apply lang_keywords, is_keyword_swap.
        now apply is_keyword_logical; try reflexivity.
      * exists b, []. rewrite app_nil_r. split; [reflexivity|].
        split; [apply lang_plus_sp; tauto | reflexivity].
Qed.

Lemma one_or_two (p : jschar) (w : jsstring) :
  lang false (Rep (AChar p) 1 (Some 2)) w <-> w = [p] \/ w = [p; p].
Proof.
  cbn [lang within atom_match]. unfold char_match. split.
  - intros (Hw & Hlo & Hhi).
    destruct w as [|a [|b [|c w]]]; simpl in *; try lia.
    + inversion Hw as [|? ? Ha _]; subst. apply N.eqb_eq in Ha. subst. auto.
    + inversion Hw as [|? ? Ha Hw']; subst.
      inversion Hw' as [|? ? Hb _]; subst.
      apply N.eqb_eq in Ha, Hb. subst. auto.
  - intros [-> | ->]; repeat split; simpl; try lia;
      repeat constructor; apply N.eqb_refl.
Qed.

Lemma lang_one_dg (ic : bool) (w : jsstring) :
  lang ic (One dg) w <-> exists d, w = [d] /\ is_digit d = true.
Proof.
  cbn [lang]. split; intros (d & -> & H); exists d;
    rewrite atom_dg in *; auto.
Qed.

(** An operator, white space, a digit. *)
Lemma lang_operator_digit (rop : Regex) (ops : list jsstring) (w : jsstring) :
  (forall op, lang false rop op <-> In op ops) ->
  lang false (cat [rop; star sp; One dg]) w
  <-> exists op gap d,
        w = op ++ gap ++ [d] /\ In op ops /\ all_space gap
        /\ is_digit d = true.
Proof.
  intros Hop. split.
  - intros (op & t & -> & Hr & (gap & u & -> & Hg & (x & e & -> & Hd & ->))).
    apply lang_star_sp in Hg. apply lang_one_dg in Hd.
    destruct Hd as (d & -> & Hd). apply Hop in Hr.
    exists op, gap, d. auto.
  - intros (op & gap & d & -> & Hr & Hg & Hd).
    exists op, (gap ++ [d]). split; [reflexivity|]. split; [now apply Hop|].
    exists gap, [d]. split; [reflexivity|]. split; [now apply lang_star_sp|].
    exists [d], []. split; [reflexivity|].
    split; [apply lang_one_dg; eauto | reflexivity].
Qed.

Lemma operatorDigitPattern_matches (w : jsstring) :
  matches operatorDigitPattern w <-> operator_before_digit w.
Proof.
  unfold matches, operatorDigitPattern, operator_before_digit.
  cbn [re_body re_ignoreCase].
  change (lang false (Alt ?a (Alt ?b ?c)) w)
    with (lang false a w \/ lang false b w \/ lang false c w).
  rewrite (@lang_operator_digit _ [lit "<"; lit "<<"] w),
          (@lang_operator_digit _ [lit ">"; lit ">>"] w),
          (@lang_operator_digit _ [lit "^"] w).
  - split.
    + intros [H | [H | H]]; destruct H as (op & gap & d & -> & Hop & Hg & Hd);
        exists op, gap, d; repeat split; auto;
        simpl in Hop |- *; intuition.
    + intros (op & gap & d & -> & Hop & Hg & Hd).
      simpl in Hop. destruct Hop as [<- | [<- | [<- | [<- | [<- | []]]]]];
        [left | left | right; left | right; left | right; right];
        eexists; exists gap, d; (split; [reflexivity|]); simpl; auto.
  - intros op. cbn [lang atom_match char_match]. split.
    + intros (c & -> & Hc). apply N.eqb_eq in Hc. subst. left. reflexivity.
    + intros [<- | []]. exists (chr "^"). split; reflexivity.
  - intros op. rewrite one_or_two. simpl. intuition.
  - intros op. rewrite one_or_two. simpl. intuition.
Qed.

Lemma contains_iff (P Q : jsstring -> Prop) (text : jsstring) :
  (forall w, P w <-> Q w) -> contains P text <-> contains Q text.
Proof.
  intros H. unfold contains.
  split; intros (pre & w & post & Hs & Hw); exists pre, w, post;
    (split; [exact Hs | now apply H]).
Qed.

(** An operator in front of a digit begins with an operator token. *)
Lemma operator_before_digit_operator (text : jsstring) :
  contains operator_before_digit text -> contains operator_or_keyword text.
Proof.
  intros (pre & w & post & -> & (op & gap & d & -> & Hop & _)).
  assert (H : exists c op', op = c :: op' /\ is_operator_char c).
  { unfold is_operator_char. simpl in Hop.
    destruct Hop as [<- | [<- | [<- | [<- | [<- | []]]]]];
      eexists _, _; (split; [reflexivity|]); auto. }
  destruct H as (c & op' & -> & Hc).
  exists pre, [c], (op' ++ gap ++ [d] ++ post). split.
  - cbn [app]. now rewrite <- !app_assoc.
  - left. eauto.
Qed.

(** What the three tests of the script come to. *)
Lemma isValidEclExpression_tests (text : jsstring) :
  isValidEclExpression text = true
  <-> contains operator_or_keyword text
      /\ contains digit_run_6_18 text
      /\ ((contains keyword_join text \/ contains operator_before_digit text)
          \/ 20 < List.length text).
Proof.
  unfold isValidEclExpression.
  rewrite !andb_true_iff, !orb_true_iff, Nat.ltb_lt.
  rewrite !js_test_iff by reflexivity.
  rewrite (@contains_iff _ _ text eclOperatorsPattern_matches),
          (@contains_iff _ _ text conceptIdsPattern_matches),
          (@contains_iff _ _ text logicalJoinPattern_matches),
          (@contains_iff _ _ text operatorDigitPattern_matches).
  tauto.
Qed.

(** C4, as amended: the validity gate accepts a text exactly when the text
    passes the gate as the specification words it (an ECL operator token or
    logical keyword, a numeric run of 6 to 18 digits, and a logical keyword
    between white space or more than 20 characters), or when it contains a
    numeric run of 6 to 18 digits and an operator in front of a digit: the
    script takes such an operator for logical structure as well.  Keywords
    are found in either letter case. *)
Theorem validity_gate (text : jsstring) :
  isValidEclExpression text = true
  <-> isPlausibleComplexExpression text
      \/ (contains digit_run_6_18 text
          /\ contains operator_before_digit text).
Proof.
  rewrite isValidEclExpression_tests. unfold isPlausibleComplexExpression.
  pose proof (@operator_before_digit_operator text). tauto.
Qed.

(** C4 as stated fails: a single constraint of seven characters has no
    logical keyword and is accepted, for its operator in front of a
    digit. *)
Lemma validity_gate_counterexample :
  let text := lit "<123456" in
  isValidEclExpression text = true
  /\ List.length text = 7
  /\ ~ contains keyword_join text
  /\ ~ isPlausibleComplexExpression text.
Proof.
  intros text.
  assert (K : ~ contains keyword_join text).
  { rewrite <- (@contains_iff _ _ text logicalJoinPattern_matches).
    rewrite <- js_test_iff by reflexivity. vm_compute. discriminate. }
  split; [vm_compute; reflexivity|]. split; [reflexivity|].
  split; [exact K|].
  intros (_ & _ & [H | H]); [now apply K | vm_compute in H; lia].
Qed.

(** The keywords are looked for as parts of the text, whatever surrounds
    them: the "or" of "disorder" counts. *)
Example keyword_inside_a_word :
  isValidEclExpression (lit "Hypertensive disorder 38341003") = true
  /\ isValidEclExpression (lit "Hypertensive disease 38341003") = false.
Proof. vm_compute. split; reflexivity. Qed.

(** ** Replacements and visible characters *)

Lemma visible_app_l (a b : jsstring) : visible a -> visible (a ++ b).
Proof.
  unfold visible. intros H. apply Exists_app. now left.
Qed.

Lemma visible_app_r (a b : jsstring) : visible b -> visible (a ++ b).
Proof.
  unfold visible. intros H. apply Exists_app. now right.
Qed.


Lemma visible_cons_space (c : jschar) (s : jsstring) :
  is_space c = true -> visible (c :: s) -> visible s.
Proof.
  intros Hc H. inversion H as [? ? Hv | ? ? Hv]; subst; [|exact Hv].
  rewrite Hc in Hv. discriminate.
Qed.

(** A replacement whose every replacing text is visible keeps a visible
    text visible. *)
Lemma replace_visible_text (re : RegExp) (f : MatchResult -> jsstring) :
  (forall m, matches re (m_text m) -> visible (f m)) ->
  forall (s : jsstring) (i : nat),
    visible s -> visible (replace_from re f i s 0).
Proof.
  intros Hf. induction s as [|c s IH]; intros i Hs; [inversion Hs|].
  cbn [replace_from].
  destruct (match_here re i (c :: s)) as [m|] eqn:E.
  - apply visible_app_l. apply Hf.
    destruct (match_here_sound _ _ _ E) as (w & s' & _ & Hw & -> & _).
    exact Hw.
  - inversion Hs as [? ? Hv | ? ? Hv]; subst.
    + now constructor.
    + apply Exists_cons_tl. now apply IH.
Qed.

(** A replacement that only ever replaces white space keeps a visible text
    visible. *)
Lemma replace_visible_space (re : RegExp) (f : MatchResult -> jsstring) :
  (forall w, matches re w -> all_space w) ->
  forall (s : jsstring) (i skip : nat),
    all_space (firstn skip s) -> visible s ->
    visible (replace_from re f i s skip).
Proof.
  intros Hre. induction s as [|c s IH]; intros i skip Hskip Hs;
    [inversion Hs|].
  destruct skip as [|skip]; cbn [replace_from].
  - destruct (match_here re i (c :: s)) as [m|] eqn:E.
    + destruct (match_here_sound _ _ _ E) as (w & s' & Hsplit & Hw & -> & _).
      apply visible_app_r. apply Hre in Hw.
      destruct w as [|c' w]; cbn [List.length].
      * inversion Hs as [? ? Hv | ? ? Hv]; subst.
        -- now constructor.
        -- apply Exists_cons_tl. apply IH; [constructor | exact Hv].
      * simpl in Hsplit. injection Hsplit as <- ->.
        inversion Hw as [|? ? Hc Hw']; subst.
        apply IH.
        -- now rewrite firstn_app, firstn_all, Nat.sub_diag, app_nil_r.
        -- eapply visible_cons_space; eauto.
    + inversion Hs as [? ? Hv | ? ? Hv]; subst.
      * now constructor.
      * apply Exists_cons_tl. apply IH; [constructor | exact Hv].
  - simpl in Hskip. inversion Hskip as [|? ? Hc Hrest]; subst.
    apply IH; [exact Hrest|]. eapply visible_cons_space; eauto.
Qed.

Lemma trimPattern_space (w : jsstring) : matches trimPattern w -> all_space w.
Proof.
  unfold matches, trimPattern. cbn [re_body re_ignoreCase].
  intros [(a & b & -> & -> & Hb) | (a & b & -> & Ha & ->)].
  - apply lang_plus_sp in Hb. tauto.
  - apply lang_plus_sp in Ha. rewrite app_nil_r. tauto.
Qed.

Lemma trimString_visible (s : jsstring) : visible s -> visible (trimString s).
Proof.
  intros H. unfold trimString.
  destruct s as [|c s]; [inversion H|]. cbn [truthy negb].
  apply replace_visible_space;
    [exact trimPattern_space | constructor | exact H].
Qed.

(** A text that starts with a literal which has a visible character. *)
Ltac visible_literal :=
  repeat apply visible_app_l;
  match goal with
  | |- visible (lit ?s) =>
      let v := eval vm_compute in (lit s) in change (lit s) with v
  end;
  solve [repeat first [apply Exists_cons_hd; reflexivity
                      | apply Exists_cons_tl]].

Lemma angleSpacing_visible (op : ascii) (w : jsstring) :
  is_space (chr op) = false ->
  matches (angleSpacingPattern op) w -> visible w.
Proof.
  unfold matches, angleSpacingPattern. cbn [re_body re_ignoreCase].
  intros Hop (a & t & -> & _ & (o & u & -> & Ho & _)).
  apply visible_app_r, visible_app_l.
  cbn [lang within atom_match char_match] in Ho.
  destruct Ho as (Ho & Hlen & _).
  destruct o as [|c o]; [simpl in Hlen; lia|].
  inversion Ho as [|? ? Hc _]; subst. apply N.eqb_eq in Hc. subst c.
  now constructor.
Qed.

Lemma oneSpacePattern_space (w : jsstring) :
  matches oneSpacePattern w -> all_space w.
Proof.
  unfold matches, oneSpacePattern. cbn [re_body re_ignoreCase lang].
  intros (c & -> & Hc). rewrite atom_sp in Hc. now repeat constructor.
Qed.

Lemma whitespaceRunPattern_space (w : jsstring) :
  matches whitespaceRunPattern w -> all_space w.
Proof.
  unfold matches, whitespaceRunPattern. cbn [re_body re_ignoreCase].
  intros H. apply lang_plus_sp in H. tauto.
Qed.

(** The canonicalizer never turns a text with a visible character into the
    empty string. *)
Lemma cleanAndStandardizeEcl_visible (e : jsstring) :
  visible e -> visible (cleanAndStandardizeEcl e).
Proof.
  intros H. unfold cleanAndStandardizeEcl, js_replace_all.
  apply trimString_visible.
  apply replace_visible_space;
    [exact whitespaceRunPattern_space | constructor |].
  apply replace_visible_text; [intros; visible_literal|].
  apply replace_visible_text; [intros; visible_literal|].
  apply replace_visible_text.
  { intros m Hm. unfold respace. apply visible_app_l.
    apply replace_visible_space;
      [exact oneSpacePattern_space | constructor |].
    eapply angleSpacing_visible; [|exact Hm]. reflexivity. }
  apply replace_visible_text.
  { intros m Hm. unfold respace. apply visible_app_l.
    apply replace_visible_space;
      [exact oneSpacePattern_space | constructor |].
    eapply angleSpacing_visible; [|exact Hm]. reflexivity. }
  apply replace_visible_text; [intros; visible_literal|].
  apply replace_visible_text; [intros; visible_literal|].
  apply replace_visible_text; [intros; visible_literal|].
  now apply trimString_visible.
Qed.

Lemma digit_not_space (c : jschar) : is_digit c = true -> is_space c = false.
Proof.
  unfold is_digit, is_space. intros H.
  apply andb_true_iff in H. destruct H as [H1 H2].
  apply N.leb_le in H1, H2.
  repeat (apply orb_false_iff; split);
    try (apply andb_false_iff; left; apply N.leb_gt; lia);
    try (apply N.eqb_neq; lia).
  apply andb_false_iff. right. apply N.leb_gt. lia.
Qed.



(** ** What the recognizers return *)









(** ** Recognizer priority *)




(** ** FHIR ECL value-set URLs *)


(** ** The documented example *)

(** C2: on the example of the script's header the engine does not return
    the documented "< 71388002 |Procedure|": the first recognizer captures
    the text from the dash on, and the canonicalizer glues the dash to the
    operator.  The recognizer for descendants, which allows for the dash,
    would give the documented result, but it is never reached. *)
Theorem documented_example_result :
  let valueSetString := lit "SNOMED CT: - <71388002 |Procedure (procedure)|" in
  extractSnomedEclFromValueSet valueSetString
  = Ok (lit "-< 71388002 |Procedure|")
  /\ complexEcl (trimString valueSetString)
     = Some (Ok (lit "-< 71388002 |Procedure|"))
  /\ descendantsExclusive (trimString valueSetString)
     = Some (Ok (lit "< 71388002 |Procedure|")).
Proof. vm_compute. repeat split. Qed.

(** ** Greedy repetition *)

Section Greedy.

Variable ic : bool.
Variable R : Type.

(** With a continuation that cannot fail, a repetition without upper bound
    takes the whole run. *)
Lemma rep_match_greedy (a : Atom) (lo : nat) (k : Cont R) :
  (forall j s' caps', k j s' caps' <> None) ->
  forall (s : jsstring) (n i : nat) (caps : Caps),
    rep_match ic a lo None n i s caps k
    = let run := span (atom_match ic a) s in
      if Nat.leb lo (n + run) then k (i + run) (skipn run s) caps
      else None.
Proof.
  intros Hk. induction s as [|c s IH]; intros n i caps; cbn [rep_match span].
  - cbn zeta. rewrite !Nat.add_0_r. reflexivity.
  - destruct (atom_match ic a c) eqn:T; cbn [andb below].
    + rewrite IH. cbn zeta.
      replace (S n + span (atom_match ic a) s)
        with (n + S (span (atom_match ic a) s)) by lia.
      replace (S i + span (atom_match ic a) s)
        with (i + S (span (atom_match ic a) s)) by lia.
      destruct (Nat.leb lo (n + S (span (atom_match ic a) s))) eqn:L.
      * cbn [skipn].
        destruct (k _ _ caps) eqn:E; [reflexivity | now elim (Hk _ _ _ E)].
      * apply Nat.leb_gt in L.
        destruct (Nat.leb lo n) eqn:L'; [|reflexivity].
        apply Nat.leb_le in L'. lia.
    + cbn zeta. rewrite !Nat.add_0_r. reflexivity.
Qed.

(** In front of the end-of-input anchor, a repetition without upper bound
    matches only when the run reaches the end. *)
Lemma rep_match_eol (a : Atom) (lo : nat) (k : Cont R) :
  forall (s : jsstring) (n i : nat) (caps : Caps),
    rep_match ic a lo None n i s caps
      (fun j s' caps' =>
         match s' with [] => k j s' caps' | _ :: _ => None end)
    = if forallb (atom_match ic a) s && Nat.leb lo (n + List.length s)
      then k (i + List.length s) [] caps
      else None.
Proof.
  induction s as [|c s IH]; intros n i caps;
    cbn [rep_match forallb List.length].
  - rewrite !Nat.add_0_r. reflexivity.
  - destruct (atom_match ic a c) eqn:T; cbn [andb below rmatch].
    + rewrite IH.
      replace (S n + List.length s) with (n + S (List.length s)) by lia.
      replace (S i + List.length s) with (i + S (List.length s)) by lia.
      destruct (forallb (atom_match ic a) s
                && Nat.leb lo (n + S (List.length s))) eqn:E.
      * destruct (k _ [] caps); [reflexivity|].
        destruct (Nat.leb lo n); reflexivity.
      * destruct (Nat.leb lo n); reflexivity.
    + destruct (Nat.leb lo n); reflexivity.
Qed.

End Greedy.

Lemma span_ext (p q : jschar -> bool) (s : jsstring) :
  (forall c, p c = q c) -> span p s = span q s.
Proof.
  intros H. induction s as [|c s IH]; simpl; [reflexivity|].
  rewrite H, IH. reflexivity.
Qed.

Lemma forallb_ext' (p q : jschar -> bool) (s : jsstring) :
  (forall c, p c = q c) -> forallb p s = forallb q s.
Proof.
  intros H. induction s as [|c s IH]; simpl; [reflexivity|].
  rewrite H, IH. reflexivity.
Qed.

Lemma span_le_length (p : jschar -> bool) (s : jsstring) :
  span p s <= List.length s.
Proof.
  induction s as [|c s IH]; simpl; [lia|]. destruct (p c); simpl; lia.
Qed.

Lemma firstn_span_length (p : jschar -> bool) (s : jsstring) :
  List.length (firstn (span p s) s) = span p s.
Proof. rewrite length_firstn. pose proof (span_le_length p s). lia. Qed.

(** ** The scan of a global replacement *)

Lemma replace_from_skip (re : RegExp) (f : MatchResult -> jsstring) :
  forall (s : jsstring) (i skip : nat),
    skip <= List.length s ->
    replace_from re f i s skip = replace_from re f (i + skip) (skipn skip s) 0.
Proof.
  induction s as [|c s IH]; intros i skip Hlen.
  - simpl in Hlen. assert (skip = 0) by lia. subst.
    rewrite Nat.add_0_r. reflexivity.
  - destruct skip as [|skip].
    + rewrite Nat.add_0_r. reflexivity.
    + cbn [replace_from skipn]. simpl in Hlen.
      rewrite IH by lia. f_equal. lia.
Qed.

(** ** The white-space patterns, directly *)

Lemma match_here_whitespaceRun (i : nat) (s : jsstring) :
  match_here whitespaceRunPattern i s
  = if Nat.leb 1 (span is_space s)
    then Some (mkMatch i (firstn (span is_space s) s) [])
    else None.
Proof.
  unfold match_here, whitespaceRunPattern, plus.
  cbn [re_body re_ignoreCase rmatch].
  rewrite rep_match_greedy by discriminate. cbn zeta.
  rewrite (span_ext _ is_space s (atom_sp false)). cbn [Nat.add].
  destruct (Nat.leb 1 (span is_space s)); [|reflexivity].
  do 2 f_equal. f_equal. lia.
Qed.

Lemma span_zero_not_all (s : jsstring) :
  span is_space s = 0 -> forallb is_space s && Nat.leb 1 (List.length s) = false.
Proof.
  destruct s as [|c s]; simpl; [reflexivity|].
  destruct (is_space c); [discriminate | reflexivity].
Qed.

Lemma match_here_trim_start (s : jsstring) :
  match_here trimPattern 0 s
  = if Nat.leb 1 (span is_space s)
    then Some (mkMatch 0 (firstn (span is_space s) s) [])
    else None.
Proof.
  unfold match_here, trimPattern, plus.
  cbn [re_body re_ignoreCase rmatch Nat.eqb].
  rewrite rep_match_greedy by discriminate. cbn zeta.
  rewrite (span_ext _ is_space s (atom_sp false)). cbn [Nat.add].
  destruct (Nat.leb 1 (span is_space s)) eqn:L.
  - do 2 f_equal. f_equal. lia.
  - rewrite rep_match_eol.
    rewrite (forallb_ext' _ is_space s (atom_sp false)). cbn [Nat.add].
    rewrite span_zero_not_all; [reflexivity|].
    apply Nat.leb_gt in L. lia.
Qed.

Lemma match_here_trim_later (i : nat) (s : jsstring) :
  i <> 0 ->
  match_here trimPattern i s
  = if forallb is_space s && Nat.leb 1 (List.length s)
    then Some (mkMatch i s [])
    else None.
Proof.
  intros Hi. unfold match_here, trimPattern, plus.
  cbn [re_body re_ignoreCase rmatch].
  destruct (Nat.eqb i 0) eqn:E; [apply Nat.eqb_eq in E; contradiction|].
  rewrite rep_match_eol.
  rewrite (forallb_ext' _ is_space s (atom_sp false)). cbn [Nat.add].
  destruct (forallb is_space s && Nat.leb 1 (List.length s)); [|reflexivity].
  replace (i + List.length s - i) with (List.length s) by lia.
  now rewrite firstn_all.
Qed.

(** A global replacement of white-space runs by one space is [squeeze]. *)
Lemma collapseWhitespace_squeeze_from (s : jsstring) :
  forall i : nat,
    replace_from whitespaceRunPattern (fun _ => lit " ") i s 0
    = squeeze false s
    /\ replace_from whitespaceRunPattern (fun _ => lit " ") i s
         (span is_space s)
       = squeeze true s.
Proof.
  induction s as [|c s IH]; intros i.
  - split; reflexivity.
  - assert (H0 : replace_from whitespaceRunPattern (fun _ => lit " ") i
                   (c :: s) 0
                 = squeeze false (c :: s)).
    { cbn [replace_from]. rewrite match_here_whitespaceRun.
      cbn [span squeeze]. destruct (is_space c) eqn:Hc.
      - cbn [Nat.leb m_text firstn List.length]. rewrite firstn_span_length.
        rewrite (proj2 (IH (S i))). reflexivity.
      - cbn [Nat.leb]. rewrite (proj1 (IH (S i))). reflexivity. }
    split; [exact H0|].
    cbn [span]. destruct (is_space c) eqn:Hc.
    + cbn [replace_from squeeze]. rewrite Hc. apply IH.
    + rewrite H0. cbn [squeeze]. rewrite Hc. reflexivity.
Qed.

Lemma collapseWhitespace_direct (s : jsstring) :
  collapseWhitespace s = squeeze false s.
Proof. apply (collapseWhitespace_squeeze_from s 0). Qed.

Lemma trim_scan_later (s : jsstring) :
  forall i : nat,
    i <> 0 -> replace_from trimPattern (fun _ => []) i s 0 = strip_end s.
Proof.
  induction s as [|c s IH]; intros i Hi; cbn [replace_from].
  - rewrite match_here_trim_later by exact Hi. reflexivity.
  - rewrite match_here_trim_later by exact Hi.
    cbn [strip_end List.length Nat.leb]. rewrite andb_true_r.
    destruct (forallb is_space (c :: s)) eqn:A.
    + cbn [m_text List.length app].
      rewrite replace_from_skip by lia. rewrite skipn_all.
      cbn [replace_from]. rewrite match_here_trim_later by lia. reflexivity.
    + rewrite IH by lia. reflexivity.
Qed.

Lemma strip_start_skipn (s : jsstring) :
  strip_start s = skipn (span is_space s) s.
Proof.
  induction s as [|c s IH]; simpl; [reflexivity|].
  destruct (is_space c); [exact IH | reflexivity].
Qed.

(** trimString removes the white space at both ends. *)
Lemma trimString_direct (s : jsstring) :
  trimString s = strip_end (strip_start s).
Proof.
  destruct s as [|c s]; [reflexivity|].
  unfold trimString, js_replace_all. cbn [truthy negb replace_from].
  rewrite match_here_trim_start. cbn [span strip_start].
  destruct (is_space c) eqn:Hc.
  - cbn [Nat.leb m_text firstn List.length app].
    rewrite firstn_span_length.
    rewrite replace_from_skip by apply span_le_length.
    rewrite trim_scan_later by lia. now rewrite strip_start_skipn.
  - cbn [Nat.leb strip_end forallb]. rewrite Hc. cbn [andb].
    rewrite trim_scan_later by lia. reflexivity.
Qed.

(** ** Tidy texts *)

Lemma squeeze_single_spaced (s : jsstring) :
  forall b : bool,
    single_spaced (squeeze b s)
    /\ (b = true -> span is_space (squeeze b s) = 0).
Proof.
  induction s as [|c s IH]; intros b; cbn [squeeze].
  - split; [exact I | reflexivity].
  - destruct (is_space c) eqn:Hc.
    + destruct b.
      * apply IH.
      * split; [|discriminate]. cbn [single_spaced].
        destruct (IH true) as [H1 H2]. auto.
    + split.
      * cbn [single_spaced]. split; [|apply IH].
        rewrite Hc. discriminate.
      * intros _. cbn [span]. now rewrite Hc.
Qed.

Lemma strip_start_single_spaced (s : jsstring) :
  single_spaced s -> single_spaced (strip_start s).
Proof.
  induction s as [|c s IH]; cbn [strip_start]; [auto|].
  destruct (is_space c); [|auto]. intros [_ H]. auto.
Qed.

Lemma strip_start_span (s : jsstring) : span is_space (strip_start s) = 0.
Proof.
  induction s as [|c s IH]; cbn [strip_start]; [reflexivity|].
  destruct (is_space c) eqn:Hc; [exact IH|]. cbn [span]. now rewrite Hc.
Qed.

Lemma span_zero_head (c : jschar) (s : jsstring) :
  span is_space (c :: s) = 0 -> is_space c = false.
Proof. cbn [span]. destruct (is_space c); [discriminate | reflexivity]. Qed.

Lemma strip_end_span (s : jsstring) :
  span is_space s = 0 -> span is_space (strip_end s) = 0.
Proof.
  destruct s as [|c s]; [reflexivity|]. intros H.
  apply span_zero_head in H. cbn [strip_end forallb span].
  rewrite H. cbn [andb span]. now rewrite H.
Qed.

Lemma strip_end_single_spaced (s : jsstring) :
  single_spaced s -> single_spaced (strip_end s).
Proof.
  induction s as [|c s IH]; [auto|].
  intros [Hc Hs]. cbn [strip_end].
  destruct (forallb is_space (c :: s)); [exact I|].
  cbn [single_spaced]. split; [|auto].
  intros Hsp. destruct (Hc Hsp) as [-> H]. split; [reflexivity|].
  now apply strip_end_span.
Qed.

Lemma strip_end_keeps_visible (s : jsstring) :
  forallb is_space s = false -> forallb is_space (strip_end s) = false.
Proof.
  induction s as [|c s IH]; [discriminate|].
  intros H. cbn [strip_end]. rewrite H. cbn [forallb].
  cbn [forallb] in H. destruct (is_space c); [|reflexivity].
  cbn [andb] in *. auto.
Qed.

Lemma strip_end_idempotent (s : jsstring) :
  strip_end (strip_end s) = strip_end s.
Proof.
  induction s as [|c s IH]; [reflexivity|].
  cbn [strip_end]. destruct (forallb is_space (c :: s)) eqn:A; [reflexivity|].
  pose proof (strip_end_keeps_visible _ A) as B.
  cbn [strip_end] in B. rewrite A in B.
  cbn [strip_end]. rewrite B, IH. reflexivity.
Qed.

Lemma strip_start_fixed (s : jsstring) :
  span is_space s = 0 -> strip_start s = s.
Proof.
  destruct s as [|c s]; [reflexivity|]. intros H.
  apply span_zero_head in H. cbn [strip_start]. now rewrite H.
Qed.

Lemma squeeze_fixed (s : jsstring) :
  single_spaced s ->
  squeeze false s = s /\ (span is_space s = 0 -> squeeze true s = s).
Proof.
  induction s as [|c s IH]; [split; reflexivity|].
  intros [Hc Hs]. destruct (IH Hs) as [IH1 IH2]. cbn [squeeze].
  destruct (is_space c) eqn:Hsp.
  - destruct (Hc eq_refl) as [-> Hspan]. split.
    + now rewrite IH2.
    + cbn [span]. rewrite Hsp. discriminate.
  - rewrite IH1. split; reflexivity.
Qed.

(** The three facts that make a canonical form tidy. *)
Lemma canonical_form_tidy (x : jsstring) :
  let y := cleanAndStandardizeEcl x in
  single_spaced y /\ span is_space y = 0 /\ strip_end y = y.
Proof.
  intros y.
  assert (E : y = strip_end (strip_start
                               (squeeze false (rewriteSteps (trimString x))))).
  { unfold y.
    change (cleanAndStandardizeEcl x)
      with (trimString (collapseWhitespace (rewriteSteps (trimString x)))).
    now rewrite trimString_direct, collapseWhitespace_direct. }
  rewrite E. split; [|split].
  - apply strip_end_single_spaced, strip_start_single_spaced.
    apply squeeze_single_spaced.
  - apply strip_end_span, strip_start_span.
  - apply strip_end_idempotent.
Qed.

(** ** Captures *)

Lemma parses_lang (ic : bool) (r : Regex) :
  forall (w : jsstring) (caps caps' : Caps),
    parses ic r w caps caps' -> lang ic r w.
Proof.
  induction r as [|a|a lo hi|r1 IH1|r1 IH1 r2 IH2|r1 IH1 r2 IH2|n r1 IH1| |];
    intros w caps caps' H; cbn [parses lang] in *; try tauto.
  - destruct H as [[H _] | H]; [now left | right; eauto].
  - destruct H as (w1 & w2 & caps1 & -> & H1 & H2).
    exists w1, w2. repeat split; eauto.
  - destruct H as [H | H]; eauto.
  - destruct H as (caps1 & H & _). eauto.
Qed.

Lemma parses_group_free (ic : bool) (r : Regex) :
  group_free r = true ->
  forall (w : jsstring) (caps caps' : Caps),
    parses ic r w caps caps' -> caps' = caps.
Proof.
  induction r as [|a|a lo hi|r1 IH1|r1 IH1 r2 IH2|r1 IH1 r2 IH2|n r1 IH1| |];
    intros GF w caps caps' H; cbn [parses group_free] in *;
    try tauto; try discriminate.
  - destruct H as [[_ H] | H]; eauto.
  - apply andb_true_iff in GF. destruct GF as [G1 G2].
    destruct H as (w1 & w2 & caps1 & _ & H1 & H2).
    rewrite (IH2 G2 _ _ _ H2). eauto.
  - apply andb_true_iff in GF. destruct GF as [G1 G2].
    destruct H as [H | H]; eauto.
Qed.

(** A group that can only match texts with [P] only ever captures such
    texts. *)
Lemma parses_captures_only (ic : bool) (P : jsstring -> Prop) (n : nat)
      (r : Regex) :
  captures_only ic P n r ->
  forall (w : jsstring) (caps caps' : Caps),
    parses ic r w caps caps' ->
    (forall x, cap_lookup n caps = Some x -> P x) ->
    forall x, cap_lookup n caps' = Some x -> P x.
Proof.
  induction r as [|a|a lo hi|r1 IH1|r1 IH1 r2 IH2|r1 IH1 r2 IH2|m r1 IH1| |];
    intros CO w caps caps' H Hin x Hx; cbn [parses captures_only] in *;
    try (destruct H as [_ ->]; now apply Hin).
  - destruct H as [[_ ->] | H]; [now apply Hin | eauto].
  - destruct CO as [C1 C2].
    destruct H as (w1 & w2 & caps1 & _ & H1 & H2).
    eapply (IH2 C2 _ _ _ H2); [|exact Hx].
    intros y Hy. eapply (IH1 C1 _ _ _ H1); eauto.
  - destruct CO as [C1 C2]. destruct H as [H | H]; eauto.
  - destruct CO as [C1 C2]. destruct H as (caps1 & H & ->).
    cbn [cap_lookup] in Hx. destruct (Nat.eqb m n) eqn:E.
    + injection Hx as <-. apply Nat.eqb_eq in E.
      apply (C1 E). eapply parses_lang; eauto.
    + eauto.
Qed.

Section CaptureFacts.

Variable ic : bool.
Variable R : Type.

Lemma rmatch_captures (r : Regex) :
  forall (i : nat) (s : jsstring) (caps : Caps) (k : Cont R) (x : R),
    rmatch ic r i s caps k = Some x ->
    exists w s' caps',
      s = w ++ s' /\ parses ic r w caps caps'
      /\ k (i + List.length w) s' caps' = Some x.
Proof.
  induction r as [|a|a lo hi|r1 IH1|r1 IH1 r2 IH2|r1 IH1 r2 IH2|n r1 IH1| |];
    intros i s caps k x H; cbn [rmatch] in H.
  - exists [], s, caps. cbn [parses lang List.length].
    rewrite Nat.add_0_r. auto.
  - destruct s as [|c s]; [discriminate|].
    destruct (atom_match ic a c) eqn:T; [|discriminate].
    exists [c], s, caps. cbn [parses lang List.length app].
    replace (i + 1) with (S i) by lia. repeat split; eauto.
  - apply rep_match_sound in H.
    destruct H as (w0 & s0 & -> & Hw0 & Hlo & Hhi & Hk0).
    exists w0, s0, caps. cbn [parses lang]. repeat split; auto.
    apply Hhi. destruct hi; simpl; [lia | exact I].
  - destruct (rmatch ic r1 i s caps _) as [y|] eqn:E.
    + injection H as ->.
      destruct (IH1 _ _ _ _ _ E) as (w & s' & caps' & -> & Hw & Hk).
      destruct (Nat.eqb (i + List.length w) i); [discriminate|].
      exists w, s', caps'. cbn [parses]. auto.
    + exists [], s, caps. cbn [parses List.length].
      rewrite Nat.add_0_r. auto.
  - destruct (IH1 _ _ _ _ _ H) as (w1 & s1 & caps1 & -> & Hw1 & Hk1).
    destruct (IH2 _ _ _ _ _ Hk1) as (w2 & s2 & caps2 & -> & Hw2 & Hk2).
    exists (w1 ++ w2), s2, caps2. cbn [parses].
    rewrite <- app_assoc, length_app, Nat.add_assoc.
    repeat split; eauto 7.
  - destruct (rmatch ic r1 i s caps k) as [y|] eqn:E.
    + injection H as ->.
      destruct (IH1 _ _ _ _ _ E) as (w & s' & caps' & -> & Hw & Hk).
      exists w, s', caps'. cbn [parses]. auto.
    + destruct (IH2 _ _ _ _ _ H) as (w & s' & caps' & -> & Hw & Hk).
      exists w, s', caps'. cbn [parses]. auto.
  - destruct (IH1 _ _ _ _ _ H) as (w & s' & caps' & -> & Hw & Hk).
    rewrite firstn_add_sub in Hk.
    exists w, s', ((n, w) :: caps'). cbn [parses]. eauto.
  - destruct (Nat.eqb i 0); [|discriminate].
    exists [], s, caps. cbn [parses lang List.length].
    rewrite Nat.add_0_r. auto.
  - destruct s; [|discriminate].
    exists [], [], caps. cbn [parses lang List.length].
    rewrite Nat.add_0_r. auto.
Qed.

End CaptureFacts.

Lemma match_here_captures (re : RegExp) (i : nat) (s : jsstring)
      (m : MatchResult) :
  match_here re i s = Some m ->
  exists s',
    s = m_text m ++ s'
    /\ parses (re_ignoreCase re) (re_body re) (m_text m) [] (m_caps m).
Proof.
  unfold match_here. intros H.
  destruct (rmatch_captures _ _ _ _ _ _ H) as (w & s' & caps' & -> & Hw & Hk).
  injection Hk as <-. cbn [m_text m_caps]. rewrite firstn_add_sub.
  exists s'. auto.
Qed.

Lemma search_captures (re : RegExp) :
  forall (s : jsstring) (i : nat) (m : MatchResult),
    search re i s = Some m ->
    exists pre post,
      s = pre ++ m_text m ++ post
      /\ parses (re_ignoreCase re) (re_body re) (m_text m) [] (m_caps m).
Proof.
  induction s as [|c s IH]; intros i m H; cbn [search] in H.
  - destruct (match_here re i []) as [m'|] eqn:E; [|discriminate].
    injection H as ->.
    destruct (match_here_captures _ _ _ E) as (s' & Hs & Hp).
    exists [], s'. auto.
  - destruct (match_here re i (c :: s)) as [m'|] eqn:E.
    + injection H as ->.
      destruct (match_here_captures _ _ _ E) as (s' & Hs & Hp).
      exists [], s'. auto.
    + destruct (IH _ _ H) as (pre & post & -> & Hp).
      exists (c :: pre), post. auto.
Qed.

(** What [str.match(re)] returns: the matched text stands in [str], and the
    captures are those of a match of the pattern on that text. *)
Lemma js_match_captures (re : RegExp) (s : jsstring) (m : MatchResult) :
  js_match re s = Some m ->
  exists pre post,
    s = pre ++ m_text m ++ post
    /\ parses (re_ignoreCase re) (re_body re) (m_text m) [] (m_caps m).
Proof. apply search_captures. Qed.

(** ** The identifiers the recognizers capture *)

Lemma digits_6_18_lang (ic : bool) (w : jsstring) :
  lang ic digits_6_18 w -> digit_run_6_18 w.
Proof.
  unfold digits_6_18, digit_run_6_18. cbn [lang within].
  now rewrite Forall_atom_dg.
Qed.

Ltac identifier_group :=
  cbn [captures_only re_body re_ignoreCase cat fold_right app word
       List.map list_ascii_of_string snomed_ct_head dash_gap piped_term
       star plus maybe];
  repeat split; try discriminate;
  intros; eapply digits_6_18_lang; eassumption.

(** In each of the ten patterns with an identifier group, what the group
    captures is a run of 6 to 18 digits. *)
Lemma identifier_captured (re : RegExp) (s : jsstring) (m : MatchResult)
      (id : jsstring) :
  In re identifierPatterns ->
  js_match re s = Some m ->
  cap_lookup 1 (m_caps m) = Some id ->
  digit_run_6_18 id.
Proof.
  intros Hre Hm Hid.
  destruct (js_match_captures _ _ Hm) as (pre & post & _ & Hp).
  eapply (@parses_captures_only (re_ignoreCase re) digit_run_6_18 1
            (re_body re)); [| exact Hp | discriminate | exact Hid].
  unfold identifierPatterns in Hre. cbn [In] in Hre.
  repeat (destruct Hre as [<- | Hre];
          [unfold refsetPattern, exactPattern, descendantsInclusivePattern,
             descendantsExclusivePattern, ancestorsInclusivePattern,
             ancestorsExclusivePattern, operatorPattern, fhirRefsetPattern,
             simpleConceptPattern, standaloneRefsetPattern,
             standaloneConceptPattern;
           identifier_group|]).
  contradiction.
Qed.

Lemma match_all_texts (re : RegExp) :
  forall (s : jsstring) (i skip : nat),
    Forall (matches re) (match_all_from re i s skip).
Proof.
  induction s as [|c s IH]; intros i skip; destruct skip as [|skip];
    cbn [match_all_from]; auto.
  - destruct (match_here re i []) as [m|] eqn:E; [|constructor].
    constructor; [|constructor].
    destruct (match_here_sound _ _ _ E) as (w & s' & _ & Hw & -> & _).
    exact Hw.
  - destruct (match_here re i (c :: s)) as [m|] eqn:E; [|apply IH].
    constructor; [|apply IH].
    destruct (match_here_sound _ _ _ E) as (w & s' & _ & Hw & -> & _).
    exact Hw.
Qed.

(** The identifiers of the list recognizer are runs of 6 to 18 digits too. *)
Lemma list_identifiers (s : jsstring) :
  Forall digit_run_6_18 (js_match_all conceptIdsPattern s).
Proof.
  unfold js_match_all.
  eapply Forall_impl; [|apply match_all_texts].
  intros w Hw. now apply conceptIdsPattern_matches.
Qed.

Lemma parses_keeps (ic : bool) (n : nat) (r : Regex) :
  forall (w : jsstring) (caps caps' : Caps),
    parses ic r w caps caps' ->
    cap_lookup n caps <> None -> cap_lookup n caps' <> None.
Proof.
  induction r as [|a|a lo hi|r1 IH1|r1 IH1 r2 IH2|r1 IH1 r2 IH2|m r1 IH1| |];
    intros w caps caps' H Hin; cbn [parses] in H;
    try (destruct H as [_ ->]; exact Hin).
  - destruct H as [[_ ->] | H]; eauto.
  - destruct H as (w1 & w2 & caps1 & _ & H1 & H2). eauto.
  - destruct H as [H | H]; eauto.
  - destruct H as (caps1 & H & ->). cbn [cap_lookup].
    destruct (Nat.eqb m n); [discriminate | eauto].
Qed.

Lemma parses_captures_always (ic : bool) (n : nat) (r : Regex) :
  captures_always n r = true ->
  forall (w : jsstring) (caps caps' : Caps),
    parses ic r w caps caps' -> cap_lookup n caps' <> None.
Proof.
  induction r as [|a|a lo hi|r1 IH1|r1 IH1 r2 IH2|r1 IH1 r2 IH2|m r1 IH1| |];
    intros CA w caps caps' H; cbn [parses captures_always] in *;
    try discriminate.
  - apply orb_true_iff in CA.
    destruct H as (w1 & w2 & caps1 & _ & H1 & H2).
    destruct CA as [CA | CA]; [|eauto].
    eapply parses_keeps; eauto.
  - apply andb_true_iff in CA. destruct CA as [C1 C2].
    destruct H as [H | H]; eauto.
  - destruct H as (caps1 & H & ->). cbn [cap_lookup].
    destruct (Nat.eqb m n) eqn:E; [discriminate|].
    cbn [orb] in CA. eauto.
Qed.

(** Whatever text a recognizer takes as the identifier of a concept or of
    a reference set is a run of 6 to 18 digits. *)
Lemma recognized_identifier_6_18 (re : RegExp) (s : jsstring)
      (m : MatchResult) :
  In re identifierPatterns ->
  js_match re s = Some m ->
  digit_run_6_18 (cap m 1).
Proof.
  intros Hre Hm.
  destruct (js_match_captures _ _ Hm) as (pre & post & _ & Hp).
  assert (A : cap_lookup 1 (m_caps m) <> None).
  { eapply parses_captures_always; [|exact Hp].
    unfold identifierPatterns in Hre. cbn [In] in Hre.
    repeat (destruct Hre as [<- | Hre]; [reflexivity|]). contradiction. }
  unfold cap. destruct (cap_lookup 1 (m_caps m)) as [id|] eqn:E;
    [|now elim A].
  eapply identifier_captured; eauto.
Qed.

(** C6: a run of 19 digits is recognized by its first 18 digits, here by
    the fallback recognizer for a concept identifier in SNOMED context. *)
Theorem nineteen_digits_recognized :
  extractSnomedEclFromValueSet (lit "SNOMED CT: 1234567890123456789")
  = Ok (lit "< 123456789012345678 |SNOMED CT concept|")
  /\ simpleConcept (lit "SNOMED CT: 1234567890123456789")
     = Some (Ok (lit "< 123456789012345678 |SNOMED CT concept|"))
  /\ standaloneConcept (lit "code 1234567890123456789")
     = Some (Ok (lit "< 123456789012345678 |SNOMED CT concept|")).
Proof. vm_compute. repeat split. Qed.

(** The text captured by the FHIR ECL pattern is what follows the URL, up
    to the end of the line. *)
Lemma fhirEcl_capture (valueSet : jsstring) (m : MatchResult) :
  js_match fhirEclPattern valueSet = Some m ->
  exists pre url post,
    valueSet = pre ++ url ++ cap m 1 ++ post
    /\ same_ignoring_case (lit "snomed.info/sct?fhir_vs=ecl/") url
    /\ cap m 1 <> []
    /\ Forall (fun c => is_line_terminator c = false) (cap m 1).
Proof.
  intros Hm.
  destruct (js_match_captures _ _ Hm) as (pre & post & Hs & Hp).
  unfold fhirEclPattern in Hp. cbn [re_body re_ignoreCase cat fold_right] in Hp.
  cbn [parses] in Hp.
  destruct Hp as (url & t & caps1 & Ht & Hurl
                  & (expr & e & caps2 & Hte & (caps3 & Hexpr & Hc2) & He)).
  apply parses_group_free in Hurl as Hc1; [|reflexivity]. subst caps1.
  apply parses_lang in Hurl. apply lang_word_ignoring_case in Hurl.
  cbn [lang] in He. destruct He as [He Hcaps]. subst e caps2.
  unfold plus in Hexpr. cbn [parses lang within atom_match] in Hexpr.
  destruct Hexpr as [(Hall & Hlen & _) Hc3].
  assert (Hcap : cap m 1 = expr).
  { unfold cap. rewrite Hcaps. reflexivity. }
  rewrite Hcap. exists pre, url, post. repeat split.
  - rewrite Hs, Ht, Hte, app_nil_r, <- app_assoc. reflexivity.
  - exact Hurl.
  - apply length_pos_not_nil. exact Hlen.
  - eapply Forall_impl; [|exact Hall]. intros c Hc.
    now apply negb_true_iff.
Qed.

(** ** FHIR ECL value-set URLs: the engine *)




(** * Further properties of the script *)

(** ** trimString *)

Lemma strip_start_all_space (lead s : jsstring) :
  all_space lead -> strip_start (lead ++ s) = strip_start s.
Proof.
  induction 1 as [|c lead Hc _ IH]; [reflexivity|].
  cbn [app strip_start]. now rewrite Hc.
Qed.

Lemma forallb_all_space (s : jsstring) :
  forallb is_space s = true <-> all_space s.
Proof.
  unfold all_space. rewrite forallb_forall, Forall_forall. reflexivity.
Qed.

Lemma strip_end_all_space (s : jsstring) : all_space s -> strip_end s = [].
Proof.
  intros H. destruct s as [|c s]; [reflexivity|].
  cbn [strip_end]. apply forallb_all_space in H. now rewrite H.
Qed.

Lemma strip_start_nil_all_space (s : jsstring) :
  strip_start s = [] -> all_space s.
Proof.
  induction s as [|c s IH]; [constructor|].
  cbn [strip_start]. destruct (is_space c) eqn:Hc; [|discriminate].
  intros H. constructor; [exact Hc | exact (IH H)].
Qed.

Lemma strip_end_nil_all_space (s : jsstring) :
  strip_end s = [] -> all_space s.
Proof.
  destruct s as [|c s]; [constructor|].
  cbn [strip_end]. destruct (forallb is_space (c :: s)) eqn:A; [|discriminate].
  intros _. now apply forallb_all_space.
Qed.

(** The last character of [s], if any, is not white space. *)
Lemma strip_end_core (core trail : jsstring) :
  (forall front c, core = front ++ [c] -> is_space c = false) ->
  all_space trail ->
  strip_end (core ++ trail) = core.
Proof.
  revert trail. induction core as [|c core IH]; intros trail Hlast Htrail.
  - now apply strip_end_all_space.
  - cbn [app strip_end].
    assert (V : forallb is_space (c :: core ++ trail) = false).
    { destruct (forallb is_space (c :: core ++ trail)) eqn:A; [|reflexivity].
      exfalso. apply forallb_all_space in A.
      destruct (@exists_last _ (c :: core) ltac:(discriminate))
        as (front & z & E).
      pose proof (Hlast front z E) as Hz.
      change (c :: core ++ trail) with ((c :: core) ++ trail) in A.
      rewrite E in A. unfold all_space in A. rewrite Forall_forall in A.
      rewrite (A z) in Hz; [discriminate|].
      apply in_or_app. left. apply in_or_app. right. now left. }
    rewrite V. f_equal. apply IH; [|exact Htrail].
    intros front z E. apply (Hlast (c :: front) z). now rewrite E.
Qed.

(** X1: trimString removes exactly the white space at both ends: a text
    made of white space, then a core that neither starts nor ends with
    white space, then white space again, is trimmed to the core. *)
Theorem trimString_strips_both_ends (lead core trail : jsstring) :
  all_space lead -> all_space trail ->
  (forall c rest, core = c :: rest -> is_space c = false) ->
  (forall front c, core = front ++ [c] -> is_space c = false) ->
  trimString (lead ++ core ++ trail) = core.
Proof.
  intros Hlead Htrail Hfirst Hlast.
  rewrite trimString_direct, strip_start_all_space by exact Hlead.
  destruct core as [|c core].
  - cbn [app]. rewrite <- (app_nil_r trail).
    rewrite strip_start_all_space by exact Htrail. reflexivity.
  - cbn [app strip_start]. rewrite (Hfirst c core eq_refl).
    change (c :: core ++ trail) with ((c :: core) ++ trail).
    now apply strip_end_core.
Qed.

Lemma trimString_strips_both_ends_witness :
  trimString (lit "  " ++ lit "dm+d: 123456" ++ lit " ") = lit "dm+d: 123456".
Proof.
  apply trimString_strips_both_ends.
  - vm_compute. repeat constructor.
  - vm_compute. repeat constructor.
  - intros c rest E. vm_compute in E. injection E as <- _. reflexivity.
  - intros front c E.
    assert (L : last (front ++ [c]) 0%N = last (lit "dm+d: 123456") 0%N)
      by now rewrite E.
    rewrite last_last in L. subst c. reflexivity.
Defined.

Lemma trimString_all_space (s : jsstring) :
  all_space s -> trimString s = [].
Proof.
  intros H. rewrite trimString_direct.
  rewrite <- (app_nil_r s), strip_start_all_space by exact H.
  reflexivity.
Qed.

(** X2: trimString gives the empty string exactly for the texts that are
    empty or all white space; this is the test for a blank field that the
    script uses throughout. *)
Theorem trimString_blank (s : jsstring) :
  trimString s = [] <-> all_space s.
Proof.
  split; [|apply trimString_all_space].
  rewrite trimString_direct. intros H.
  apply strip_end_nil_all_space in H.
  pose proof (strip_start_span s) as S.
  destruct (strip_start s) as [|c t] eqn:E.
  - now apply strip_start_nil_all_space.
  - apply span_zero_head in S. inversion H as [|? ? Hc _]; subst.
    rewrite Hc in S. discriminate.
Qed.

(** X3: trimming twice is trimming once. *)
Theorem trimString_idempotent (s : jsstring) :
  trimString (trimString s) = trimString s.
Proof.
  rewrite !trimString_direct.
  rewrite (strip_start_fixed (strip_end (strip_start s))).
  - apply strip_end_idempotent.
  - apply strip_end_span, strip_start_span.
Qed.

(** ** cleanAndStandardizeEcl on blank input *)

Lemma all_space_or_visible (s : jsstring) : all_space s \/ visible s.
Proof.
  induction s as [|c s [IH | IH]].
  - left. constructor.
  - destruct (is_space c) eqn:Hc.
    + left. now constructor.
    + right. now constructor.
  - right. now apply Exists_cons_tl.
Qed.

Lemma all_space_not_visible (s : jsstring) :
  all_space s -> visible s -> False.
Proof.
  unfold all_space, visible. rewrite Forall_forall, Exists_exists.
  intros A (c & Hin & Hc). rewrite (A c Hin) in Hc. discriminate.
Qed.

(** X4: the canonicalizer returns the empty string exactly for the
    expressions that are empty or all white space: an expression with a
    visible character always has a canonical form with a visible character. *)
Theorem cleanAndStandardizeEcl_blank (e : jsstring) :
  cleanAndStandardizeEcl e = [] <-> all_space e.
Proof.
  split.
  - intros H. destruct (all_space_or_visible e) as [A | V]; [exact A|].
    apply cleanAndStandardizeEcl_visible in V. rewrite H in V. inversion V.
  - intros A. unfold cleanAndStandardizeEcl.
    rewrite (trimString_all_space A). reflexivity.
Qed.

(** ** cleanConceptTerm *)

Section Committed.

Variable ic : bool.
Variable R : Type.

(** When what follows cannot start with a character of the class, a
    repetition without upper bound takes the whole run or fails. *)
Lemma rep_match_committed (a : Atom) (lo : nat) (k : Cont R) :
  (forall j c s' caps', atom_match ic a c = true ->
                        k j (c :: s') caps' = None) ->
  forall (s : jsstring) (n i : nat) (caps : Caps),
    rep_match ic a lo None n i s caps k
    = let run := span (atom_match ic a) s in
      if Nat.leb lo (n + run) then k (i + run) (skipn run s) caps
      else None.
Proof.
  intros Hk. induction s as [|c s IH]; intros n i caps; cbn [rep_match span].
  - cbn zeta. rewrite !Nat.add_0_r. reflexivity.
  - destruct (atom_match ic a c) eqn:T; cbn [andb below].
    + rewrite IH. cbn zeta. rewrite (Hk i c s caps T).
      replace (S n + span (atom_match ic a) s)
        with (n + S (span (atom_match ic a) s)) by lia.
      replace (S i + span (atom_match ic a) s)
        with (i + S (span (atom_match ic a) s)) by lia.
      cbn [skipn].
      destruct (Nat.leb lo (n + S (span (atom_match ic a) s)));
        [|destruct (Nat.leb lo n); reflexivity].
      destruct (k _ _ caps); [reflexivity|].
      destruct (Nat.leb lo n); reflexivity.
    + cbn zeta. rewrite !Nat.add_0_r. reflexivity.
Qed.

End Committed.

Lemma space_not_open_paren (c : jschar) :
  is_space c = true -> (40 =? c)%N = false.
Proof.
  intros H. destruct (N.eqb_spec 40 c) as [<-|]; [discriminate | reflexivity].
Qed.

Lemma atom_not_close (c : jschar) :
  atom_match false (ASet true [CChar 41%N]) c = negb (c =? 41)%N.
Proof.
  cbn [atom_match existsb item_match char_match].
  now rewrite orb_false_r, N.eqb_sym.
Qed.

Lemma length_skipn_cons (n : nat) (s t : jsstring) (c : jschar) :
  skipn n s = c :: t -> List.length s = n + S (List.length t).
Proof.
  intros E. rewrite <- (firstn_skipn n s) at 1.
  rewrite length_app, E, length_firstn. cbn [List.length].
  assert (n < List.length s); [|lia].
  destruct (Nat.lt_ge_cases n (List.length s)) as [H | H]; [exact H|].
  rewrite skipn_all2 in E by exact H. discriminate.
Qed.

Lemma match_here_trailingTag (i : nat) (s : jsstring) :
  match_here trailingTagPattern i s
  = if is_tag_suffix s then Some (mkMatch i s []) else None.
Proof.
  unfold match_here, trailingTagPattern, star, plus.
  cbn [re_body re_ignoreCase cat fold_right rmatch].
  change (chr "(") with 40%N. change (chr ")") with 41%N.
  rewrite rep_match_committed.
  2:{ intros j c s' caps' Hc. rewrite atom_sp in Hc.
      cbn [atom_match char_match].
      now rewrite (space_not_open_paren _ Hc). }
  cbn zeta. cbn [Nat.leb Nat.add].
  rewrite (span_ext _ is_space s (atom_sp false)).
  unfold is_tag_suffix. rewrite strip_start_skipn.
  destruct (skipn (span is_space s) s) as [|c t] eqn:Es; [reflexivity|].
  cbn [atom_match char_match]. rewrite (N.eqb_sym 40 c).
  destruct (N.eqb c 40) eqn:E40; cbn [andb]; [|reflexivity].
  rewrite rep_match_committed.
  2:{ intros j c0 s' caps' Hc0. rewrite atom_not_close in Hc0.
      cbn [atom_match char_match]. rewrite N.eqb_sym.
      apply negb_true_iff in Hc0. now rewrite Hc0. }
  cbn zeta. cbn [Nat.add].
  rewrite (span_ext _ (fun c => negb (c =? 41)%N) t atom_not_close).
  set (n := span (fun c => negb (c =? 41)%N) t).
  destruct (Nat.leb 1 n); cbn [andb]; [|reflexivity].
  destruct (skipn n t) as [|c' u] eqn:Et; [reflexivity|].
  cbn [atom_match char_match]. rewrite (N.eqb_sym 41 c').
  destruct (N.eqb c' 41); cbn [andb]; [|reflexivity].
  rewrite (rep_match_eol false sp 0
             (fun j _ caps => Some (mkMatch i (firstn (j - i) s) caps))).
  rewrite (forallb_ext' _ is_space u (atom_sp false)).
  cbn [Nat.leb andb]. rewrite andb_true_r.
  destruct (forallb is_space u); [|reflexivity].
  apply length_skipn_cons in Es, Et.
  rewrite firstn_all2; [reflexivity | lia].
Qed.

Lemma strip_tag_scan (s : jsstring) :
  forall i : nat, replace_from trailingTagPattern (fun _ => []) i s 0
                  = strip_tag s.
Proof.
  induction s as [|c s IH]; intros i; cbn [replace_from strip_tag].
  - rewrite match_here_trailingTag. reflexivity.
  - rewrite match_here_trailingTag.
    destruct (is_tag_suffix (c :: s)).
    + cbn [m_text List.length app].
      rewrite replace_from_skip by lia. rewrite skipn_all.
      cbn [replace_from]. rewrite match_here_trailingTag. reflexivity.
    + now rewrite IH.
Qed.

(** cleanConceptTerm cuts the term at the leftmost place from which the
    rest is a tag in parentheses, and trims what is left. *)
Lemma cleanConceptTerm_direct (term : jsstring) :
  cleanConceptTerm term = trimString (strip_tag term).
Proof.
  unfold cleanConceptTerm, js_replace_all. now rewrite strip_tag_scan.
Qed.

Lemma strip_start_suffix (s : jsstring) (c : jschar) (t : jsstring) :
  strip_start s = c :: t -> In c s.
Proof.
  induction s as [|d s IH]; [discriminate|]. cbn [strip_start].
  destruct (is_space d).
  - intros H. right. now apply IH.
  - intros H. injection H as -> _. now left.
Qed.

Lemma strip_start_visible_app (s rest : jsstring) :
  visible s -> strip_start (s ++ rest) = strip_start s ++ rest.
Proof.
  induction s as [|c s IH]; intros V; [inversion V|].
  cbn [app strip_start]. destruct (is_space c) eqn:Hc; [|reflexivity].
  apply IH. eapply visible_cons_space; eauto.
Qed.

Lemma visible_strip_start (s : jsstring) : visible s -> strip_start s <> [].
Proof.
  intros V E. apply strip_start_nil_all_space in E.
  exact (all_space_not_visible E V).
Qed.

(** Without an opening parenthesis in front of it, nothing is a tag. *)
Lemma is_tag_suffix_no_paren (s rest : jsstring) :
  Forall (fun c => c <> 40%N) s -> visible s ->
  is_tag_suffix (s ++ rest) = false.
Proof.
  intros Hs V. unfold is_tag_suffix.
  rewrite strip_start_visible_app by exact V.
  destruct (strip_start s) as [|c t] eqn:E;
    [now elim (visible_strip_start V)|].
  cbn [app]. apply strip_start_suffix in E.
  rewrite Forall_forall in Hs. apply Hs in E.
  apply N.eqb_neq in E. now rewrite E.
Qed.

Lemma is_tag_suffix_spaces (gap s : jsstring) :
  all_space gap -> is_tag_suffix (gap ++ s) = is_tag_suffix s.
Proof.
  intros H. unfold is_tag_suffix. now rewrite strip_start_all_space.
Qed.

Lemma span_app_stop (p : jschar -> bool) (a b : jsstring) (c : jschar) :
  Forall (fun x => p x = true) a -> p c = false ->
  span p (a ++ c :: b) = List.length a.
Proof.
  intros Ha Hc. induction Ha as [|x a Hx _ IH]; cbn [app span List.length].
  - now rewrite Hc.
  - now rewrite Hx, IH.
Qed.

Lemma is_tag_suffix_tag (tag trail : jsstring) :
  tag <> [] -> Forall (fun c => c <> 41%N) tag -> all_space trail ->
  is_tag_suffix (lit "(" ++ tag ++ lit ")" ++ trail) = true.
Proof.
  intros Hne Htag Htrail. unfold is_tag_suffix.
  change (lit "(" ++ tag ++ lit ")" ++ trail)
    with (40%N :: tag ++ 41%N :: trail).
  cbn [strip_start]. change (is_space 40%N) with false. cbn iota zeta.
  rewrite span_app_stop; [| |reflexivity].
  - rewrite skipn_app, skipn_all, Nat.sub_diag. cbn [app skipn].
    apply forallb_all_space in Htrail. rewrite Htrail.
    destruct tag; [now elim Hne | reflexivity].
  - eapply Forall_impl; [|exact Htag]. intros c Hc. cbn beta.
    apply negb_true_iff. now apply N.eqb_neq.
Qed.

Lemma strip_tag_tagged (body tail : jsstring) :
  Forall (fun c => c <> 40%N) body -> is_tag_suffix tail = true ->
  strip_tag (body ++ tail) = strip_end body.
Proof.
  intros Hbody Htail. induction Hbody as [|c b Hc Hb IH].
  - cbn [app strip_end]. destruct tail as [|c t]; [reflexivity|].
    cbn [strip_tag]. now rewrite Htail.
  - cbn [app strip_tag strip_end].
    change (c :: b ++ tail) with ((c :: b) ++ tail).
    destruct (all_space_or_visible (c :: b)) as [A | V].
    + rewrite is_tag_suffix_spaces, Htail by exact A.
      apply forallb_all_space in A. now rewrite A.
    + rewrite is_tag_suffix_no_paren; [|now constructor | exact V].
      destruct (forallb is_space (c :: b)) eqn:A.
      * apply forallb_all_space in A.
        now elim (all_space_not_visible A V).
      * now rewrite IH.
Qed.

Lemma strip_tag_no_paren (s : jsstring) :
  Forall (fun c => c <> 40%N) s -> strip_tag s = s.
Proof.
  induction 1 as [|c s Hc Hs IH]; [reflexivity|].
  assert (T : is_tag_suffix (c :: s) = false).
  { destruct (all_space_or_visible (c :: s)) as [A | V].
    - unfold is_tag_suffix.
      rewrite <- (app_nil_r (c :: s)), strip_start_all_space by exact A.
      reflexivity.
    - rewrite <- (app_nil_r (c :: s)).
      apply is_tag_suffix_no_paren; [now constructor | exact V]. }
  cbn [strip_tag]. now rewrite T, IH.
Qed.

Lemma strip_start_strip_end (s : jsstring) :
  strip_start (strip_end s) = strip_end (strip_start s).
Proof.
  induction s as [|c s IH]; [reflexivity|].
  cbn [strip_end]. destruct (forallb is_space (c :: s)) eqn:A.
  - apply forallb_all_space in A.
    rewrite <- (app_nil_r (c :: s)), strip_start_all_space by exact A.
    reflexivity.
  - cbn [strip_start]. destruct (is_space c) eqn:Hc; [exact IH|].
    cbn [strip_end]. now rewrite A.
Qed.

Lemma trimString_strip_end (s : jsstring) :
  trimString (strip_end s) = trimString s.
Proof.
  rewrite !trimString_direct, strip_start_strip_end.
  apply strip_end_idempotent.
Qed.

(** X5: cleanConceptTerm removes the semantic tag that ends a term: for a
    term made of a body without an opening parenthesis, then white space, a
    non-empty tag in parentheses and white space, the result is the body,
    trimmed. *)
Theorem cleanConceptTerm_strips_tag (body gap tag trail : jsstring) :
  Forall (fun c => c <> chr "(") body ->
  all_space gap ->
  tag <> [] -> Forall (fun c => c <> chr ")") tag ->
  all_space trail ->
  cleanConceptTerm (body ++ gap ++ lit "(" ++ tag ++ lit ")" ++ trail)
  = trimString body.
Proof.
  intros Hbody Hgap Hne Htag Htrail.
  rewrite cleanConceptTerm_direct, strip_tag_tagged.
  - apply trimString_strip_end.
  - exact Hbody.
  - rewrite is_tag_suffix_spaces by exact Hgap.
    now apply is_tag_suffix_tag.
Qed.

Lemma cleanConceptTerm_strips_tag_witness :
  cleanConceptTerm
    (lit "Procedure" ++ lit " " ++ lit "(" ++ lit "procedure" ++ lit ")" ++ [])
  = trimString (lit "Procedure").
Proof.
  apply cleanConceptTerm_strips_tag.
  - vm_compute. repeat (constructor; [discriminate|]). constructor.
  - vm_compute. repeat constructor.
  - discriminate.
  - vm_compute. repeat (constructor; [discriminate|]). constructor.
  - constructor.
Defined.

(** X6: a term without an opening parenthesis is only trimmed. *)
Theorem cleanConceptTerm_without_tag (term : jsstring) :
  Forall (fun c => c <> chr "(") term ->
  cleanConceptTerm term = trimString term.
Proof.
  intros H. now rewrite cleanConceptTerm_direct, strip_tag_no_paren.
Qed.

Lemma cleanConceptTerm_without_tag_witness :
  cleanConceptTerm (lit " Procedure ") = trimString (lit " Procedure ").
Proof.
  apply cleanConceptTerm_without_tag.
  vm_compute. repeat (constructor; [discriminate|]). constructor.
Defined.

(** ** decodeURIComponent *)

Lemma decode_plain (s : jsstring) :
  Forall (fun c => c <> chr "%") s -> decodeURIComponent s = Ok s.
Proof.
  unfold decodeURIComponent.
  induction 1 as [|c s Hc _ IH]; [reflexivity|].
  cbn [decode_from]. change (chr "%") with 37%N in Hc.
  apply N.eqb_neq in Hc. now rewrite Hc, IH.
Qed.

Lemma decode_only_URIError (s : jsstring) :
  forall (skip : nat) (e : Exn), decode_from s skip = Throw e -> e = URIError.
Proof.
  induction s as [|c s IH]; intros skip e; cbn [decode_from];
    [discriminate|].
  destruct skip as [|skip]; [|apply IH].
  destruct (c =? 37)%N.
  - destruct (decode_escape (c :: s)) as [[units len]|].
    + destruct (decode_from s (len - 1)) eqn:E; [discriminate|].
      intros H. injection H as <-. eapply IH; eauto.
    + intros H. now injection H as <-.
  - destruct (decode_from s 0) eqn:E; [discriminate|].
    intros H. injection H as <-. eapply IH; eauto.
Qed.

Lemma hex_digit_hex_char (n : N) :
  (n < 16)%N -> hex_digit (hex_char n) = Some n.
Proof.
  intros H. unfold hex_char, hex_digit.
  destruct (N.ltb_spec n 10).
  - replace ((48 <=? 48 + n) && (48 + n <=? 57))%N with true.
    + f_equal. lia.
    + symmetry. apply andb_true_iff. split; apply N.leb_le; lia.
  - replace ((48 <=? 55 + n) && (55 + n <=? 57))%N with false.
    + replace ((65 <=? 55 + n) && (55 + n <=? 70))%N with true.
      * f_equal. lia.
      * symmetry. apply andb_true_iff. split; apply N.leb_le; lia.
    + symmetry. apply andb_false_iff. right. apply N.leb_gt. lia.
Qed.

Lemma decode_escape_ascii (b : N) (rest : jsstring) :
  (b < 128)%N -> decode_escape (escape b ++ rest) = Some ([b], 3).
Proof.
  intros H. unfold decode_escape, escape. cbn [app pct_byte].
  cbn [N.eqb Pos.eqb].
  assert (H1 : (b / 16 < 16)%N).
  { apply N.Div0.div_lt_upper_bound. lia. }
  assert (H2 : (b mod 16 < 16)%N) by (apply N.mod_lt; lia).
  rewrite (hex_digit_hex_char H1), (hex_digit_hex_char H2).
  rewrite <- (N.div_mod b 16) by lia.
  apply N.ltb_lt in H. now rewrite H.
Qed.

(** X7: decodeURIComponent undoes the percent-encoding of ASCII text:
    whatever set of characters the encoder leaves unescaped (the percent
    sign not among them), decoding the encoded text gives the text back. *)
Theorem decodeURIComponent_round_trip
  (unreserved : jschar -> bool) (s : jsstring) :
  unreserved (chr "%") = false ->
  Forall (fun c => (c < 128)%N) s ->
  decodeURIComponent (percentEncode unreserved s) = Ok s.
Proof.
  intros Hpct Hs. unfold decodeURIComponent, percentEncode.
  induction Hs as [|c s Hc _ IH]; [reflexivity|].
  cbn [flat_map]. destruct (unreserved c) eqn:U.
  - cbn [app decode_from].
    destruct (N.eqb_spec c 37) as [-> | _].
    + change (chr "%") with 37%N in Hpct. congruence.
    + now rewrite IH.
  - set (rest := flat_map
                   (fun c => if unreserved c then [c] else escape c) s) in *.
    pose proof (decode_escape_ascii rest Hc) as E.
    unfold escape in E |- *. cbn [app] in E |- *.
    cbn [decode_from N.eqb Pos.eqb]. rewrite E.
    change (3 - 1) with 2. cbn [decode_from app]. now rewrite IH.
Qed.

Lemma decodeURIComponent_round_trip_witness :
  decodeURIComponent
    (percentEncode (fun c => is_digit c) (lit "< 71388002 |Procedure|"))
  = Ok (lit "< 71388002 |Procedure|").
Proof.
  apply decodeURIComponent_round_trip.
  - reflexivity.
  - vm_compute. repeat (constructor; [reflexivity|]). constructor.
Defined.

(** X8: decodeURIComponent fails on the first percent sign that is not
    followed by two hexadecimal digits, whatever comes after. *)
Theorem decodeURIComponent_malformed (pre rest : jsstring) :
  Forall (fun c => c <> chr "%") pre ->
  (forall h1 h2 t, rest = h1 :: h2 :: t ->
                   hex_digit h1 = None \/ hex_digit h2 = None) ->
  decodeURIComponent (pre ++ lit "%" ++ rest) = Throw URIError.
Proof.
  intros Hpre Hrest. unfold decodeURIComponent.
  induction Hpre as [|c pre Hc _ IH].
  - change (lit "%" ++ rest) with (37%N :: rest).
    cbn [app decode_from]. cbn [N.eqb Pos.eqb].
    assert (P : pct_byte (37%N :: rest) = None).
    { destruct rest as [|h1 [|h2 t]]; [reflexivity | reflexivity |].
      cbn [pct_byte N.eqb Pos.eqb].
      destruct (Hrest h1 h2 t eq_refl) as [H | H]; rewrite H;
        [reflexivity | destruct (hex_digit h1); reflexivity]. }
    unfold decode_escape. now rewrite P.
  - cbn [app decode_from]. change (chr "%") with 37%N in Hc.
    apply N.eqb_neq in Hc. now rewrite Hc, IH.
Qed.

Lemma decodeURIComponent_malformed_witness :
  decodeURIComponent (lit "<<" ++ lit "%" ++ lit "2") = Throw URIError.
Proof.
  apply decodeURIComponent_malformed.
  - vm_compute. repeat (constructor; [discriminate|]). constructor.
  - intros h1 h2 t E. discriminate E.
Defined.

(** ** What the engine returns and throws *)

Lemma first_fired_each (P : Result jsstring -> Prop) (rs : list Recognizer)
      (valueSet : jsstring) :
  P (Ok []) ->
  Forall (fun r => forall res, r valueSet = Some res -> P res) rs ->
  P (first_fired rs valueSet).
Proof.
  intros Hnil. induction 1 as [|r rs Hr _ IH]; cbn [first_fired];
    [exact Hnil|].
  destruct (r valueSet) as [res|]; [now apply Hr | exact IH].
Qed.

Lemma extract_each (P : Result jsstring -> Prop) (valueSetString : jsstring) :
  P (Ok []) ->
  Forall (fun r => forall res, r (trimString valueSetString) = Some res ->
                               P res) recognizers ->
  P (extractSnomedEclFromValueSet valueSetString).
Proof.
  intros Hnil H. rewrite extract_chain.
  destruct (negb (truthy valueSetString)
            || jsstring_eqb (trimString valueSetString) []);
    [exact Hnil | now apply first_fired_each].
Qed.

Lemma strip_start_incl (s : jsstring) (c : jschar) :
  In c (strip_start s) -> In c s.
Proof.
  induction s as [|d s IH]; [easy|]. cbn [strip_start].
  destruct (is_space d); [intros H; right; now apply IH | easy].
Qed.

Lemma strip_end_incl (s : jsstring) (c : jschar) :
  In c (strip_end s) -> In c s.
Proof.
  induction s as [|d s IH]; [easy|]. cbn [strip_end].
  destruct (forallb is_space (d :: s)); [easy|].
  intros [H | H]; [now left | right; now apply IH].
Qed.

Lemma trimString_incl (s : jsstring) (c : jschar) :
  In c (trimString s) -> In c s.
Proof.
  rewrite trimString_direct. intros H.
  now apply strip_start_incl, strip_end_incl.
Qed.

(** The recognizers other than the one for FHIR ECL URLs never throw. *)
Ltac returns_normally :=
  intros res H e ->;
  repeat match type of H with
         | match ?x with _ => _ end = _ => destruct x; try discriminate H
         end.

Lemma fhirEcl_throws (valueSet : jsstring) (e : Exn) :
  fhirEcl valueSet = Some (Throw e) ->
  e = URIError /\ In (chr "%") valueSet.
Proof.
  unfold fhirEcl.
  destruct (js_match fhirEclPattern valueSet) as [m|] eqn:M; [|discriminate].
  destruct (decodeURIComponent (cap m 1)) as [ecl|e'] eqn:D; [discriminate|].
  intros H. injection H as <-. split.
  - eapply decode_only_URIError. exact D.
  - destruct (fhirEcl_capture _ M) as (pre & url & post & Hs & _).
    rewrite Hs. apply in_or_app. right. apply in_or_app. right.
    apply in_or_app. left.
    destruct (in_dec N.eq_dec (chr "%") (cap m 1)) as [Hin | Hout];
      [exact Hin|].
    rewrite decode_plain in D; [discriminate|].
    apply Forall_forall. intros c Hc ->. contradiction.
Qed.

(** X9: the only exception the conversion engine can throw is the
    URIError of decodeURIComponent, and it can only do so for a descriptor
    with a percent sign in which the FHIR ECL URL is found. *)
Theorem engine_throws_only_on_percent (valueSetString : jsstring) (e : Exn) :
  extractSnomedEclFromValueSet valueSetString = Throw e ->
  e = URIError
  /\ In (chr "%") valueSetString
  /\ js_test fhirEclPattern (trimString valueSetString) = true.
Proof.
  revert e.
  apply (extract_each
           (fun res => forall e, res = Throw e ->
              e = URIError /\ In (chr "%") valueSetString
              /\ js_test fhirEclPattern (trimString valueSetString) = true));
    [discriminate|].
  unfold recognizers.
  repeat apply Forall_cons; try apply Forall_nil;
    try (unfold complexEcl, altPrefix, dmd, refset, exact,
           descendantsInclusive, descendantsExclusive, ancestorsInclusive,
           ancestorsExclusive, withOperator, fhirRefset, simpleConcept,
           multipleConcept, standaloneRefset, standaloneConcept;
         returns_normally; fail).
  intros res H e ->. destruct (fhirEcl_throws _ H) as [He Hin].
  split; [exact He|]. split; [now apply trimString_incl|].
  unfold fhirEcl in H. unfold js_test.
  destruct (js_match fhirEclPattern _); [reflexivity | discriminate].
Qed.

Lemma engine_throws_only_on_percent_witness :
  In (chr "%") (lit "snomed.info/sct?fhir_vs=ecl/%").
Proof.
  refine (proj1 (proj2 (@engine_throws_only_on_percent
                          (lit "snomed.info/sct?fhir_vs=ecl/%") URIError _))).
  vm_compute. reflexivity.
Defined.

(** ** The result has no white space at its ends *)

Lemma trimmed_to_pipe (s : jsstring) :
  (exists a mid, s = a :: mid /\ is_space a = false) ->
  (exists front, s = front ++ lit "|") ->
  trimString s = s.
Proof.
  intros (a & mid & Hs & Ha) (front & Hf).
  rewrite trimString_direct.
  assert (E : strip_start s = s).
  { rewrite Hs. cbn [strip_start]. now rewrite Ha. }
  rewrite E. rewrite <- (app_nil_r s) at 1.
  apply strip_end_core; [|constructor].
  intros front' c Hc. rewrite Hf in Hc.
  apply app_inj_tail in Hc. destruct Hc as [_ <-]. reflexivity.
Qed.

Lemma canonical_form_trimmed (x : jsstring) :
  trimString (cleanAndStandardizeEcl x) = cleanAndStandardizeEcl x.
Proof.
  destruct (canonical_form_tidy x) as (_ & Hspan & Hend).
  rewrite trimString_direct, strip_start_fixed; assumption.
Qed.

Lemma ends_app (a t z : jsstring) :
  (exists front, t = front ++ z) -> exists front, a ++ t = front ++ z.
Proof.
  intros (front & ->). exists (a ++ front). now rewrite app_assoc.
Qed.

Lemma join_ends (sep z : jsstring) (x : jsstring) (l : list jsstring) :
  Forall (fun y => exists front, y = front ++ z) (x :: l) ->
  exists front, join sep (x :: l) = front ++ z.
Proof.
  revert x. induction l as [|y l IH]; intros x H.
  - now inversion H.
  - inversion H as [|? ? Hx Hl]; subst. cbn [join].
    change (exists front,
               x ++ sep ++ join sep (y :: l) = front ++ z).
    apply ends_app, ends_app, IH, Hl.
Qed.

(** A result put together from literal texts starts with an operator or a
    digit and ends with the closing pipe. *)
Lemma ends_cons (c : jschar) (t z : jsstring) :
  (exists front, t = front ++ z) -> exists front, c :: t = front ++ z.
Proof. intros (front & ->). now exists (c :: front). Qed.

Ltac ends_with_pipe :=
  lazymatch goal with
  | |- exists front, lit ?s = front ++ _ =>
      exists (removelast (lit s)); reflexivity
  | |- exists front, _ ++ _ = front ++ _ => apply ends_app; ends_with_pipe
  | |- exists front, _ :: _ = front ++ _ => apply ends_cons; ends_with_pipe
  end.

Lemma Some_Ok_inj (a b : jsstring) :
  Some (Ok a) = Some (Ok b) :> option (Result jsstring) -> a = b.
Proof. congruence. Qed.

Ltac literal_shape :=
  split; [eexists _, _; split; reflexivity | ends_with_pipe].

Lemma identifier_head (w : jsstring) :
  digit_run_6_18 w -> exists a mid, w = a :: mid /\ is_space a = false.
Proof.
  intros (Hd & Hlen & _). destruct w as [|a mid]; [simpl in Hlen; lia|].
  exists a, mid. split; [reflexivity|].
  inversion Hd; subst. now apply digit_not_space.
Qed.

Lemma multipleConcept_shape (valueSet out : jsstring) :
  multipleConcept valueSet = Some (Ok out) ->
  (exists a mid, out = a :: mid /\ is_space a = false)
  /\ exists front, out = front ++ lit "|".
Proof.
  unfold multipleConcept.
  destruct (js_match multipleConceptPattern valueSet) as [m|]; [|discriminate].
  destruct (js_match_all conceptIdsPattern (cap m 1)) as [|id1 [|id2 ids]];
    [discriminate| |]; intros H; apply Some_Ok_inj in H; subst out.
  - literal_shape.
  - split.
    + cbn [List.map join]. eexists _, _. split; reflexivity.
    + cbn [List.map]. apply join_ends.
      apply Forall_forall. intros y Hy.
      change (In y (List.map
                      (fun id => lit "< " ++ id ++ lit " |SNOMED CT concept|")
                      (id1 :: id2 :: ids))) in Hy.
      apply in_map_iff in Hy. destruct Hy as (id & <- & _).
      ends_with_pipe.
Qed.

Lemma exact_shape (valueSet out : jsstring) :
  exact valueSet = Some (Ok out) ->
  (exists a mid, out = a :: mid /\ is_space a = false)
  /\ exists front, out = front ++ lit "|".
Proof.
  unfold exact.
  destruct (js_match exactPattern valueSet) as [m|] eqn:M; [|discriminate].
  intros H; apply Some_Ok_inj in H; subst out.
  split; [|ends_with_pipe].
  assert (Hid : digit_run_6_18 (cap m 1)).
  { eapply recognized_identifier_6_18; [|exact M].
    unfold identifierPatterns. cbn [In]. tauto. }
  destruct (identifier_head Hid) as (a & mid & -> & Ha).
  eexists _, _. split; [reflexivity | exact Ha].
Qed.

Lemma withOperator_shape (pattern : RegExp) (op : string)
      (valueSet out : jsstring) :
  (exists a mid, lit op = a :: mid /\ is_space a = false) ->
  withOperator pattern op valueSet = Some (Ok out) ->
  (exists a mid, out = a :: mid /\ is_space a = false)
  /\ exists front, out = front ++ lit "|".
Proof.
  unfold withOperator. intros (a & mid & Hop & Ha).
  destruct (js_match pattern valueSet) as [m|]; [|discriminate].
  intros H; apply Some_Ok_inj in H; subst out.
  split; [|ends_with_pipe].
  rewrite Hop. eexists _, _. split; [reflexivity | exact Ha].
Qed.

(** What a recognizer returns when it fires: a canonical form, or a text
    that starts with a character other than white space and ends with the
    closing pipe. *)
Lemma fired_shape (r : Recognizer) (valueSet out : jsstring) :
  In r recognizers -> r valueSet = Some (Ok out) ->
  (exists e, out = cleanAndStandardizeEcl e)
  \/ ((exists a mid, out = a :: mid /\ is_space a = false)
      /\ exists front, out = front ++ lit "|").
Proof.
  unfold recognizers. cbn [In]. intros Hr H.
  repeat (destruct Hr as [<- | Hr]); try contradiction.
  - unfold complexEcl in H.
    destruct (js_match complexEclPattern _); [|discriminate].
    destruct (isValidEclExpression _); [|discriminate].
    apply Some_Ok_inj in H. subst out. left. eexists. reflexivity.
  - unfold altPrefix in H.
    destruct (js_match altPrefixPattern _); [|discriminate].
    destruct (js_match complexEclPattern _); [discriminate|].
    destruct (isValidEclExpression _); [|discriminate].
    apply Some_Ok_inj in H. subst out. left. eexists. reflexivity.
  - unfold dmd in H. destruct (js_match dmdPattern _); [|discriminate].
    apply Some_Ok_inj in H. subst out. right. literal_shape.
  - unfold refset in H. destruct (js_match refsetPattern _); [|discriminate].
    apply Some_Ok_inj in H. subst out. right. literal_shape.
  - right. now apply exact_shape in H.
  - right. apply withOperator_shape in H; [exact H|].
    eexists _, _. split; reflexivity.
  - right. apply withOperator_shape in H; [exact H|].
    eexists _, _. split; reflexivity.
  - right. apply withOperator_shape in H; [exact H|].
    eexists _, _. split; reflexivity.
  - right. apply withOperator_shape in H; [exact H|].
    eexists _, _. split; reflexivity.
  - unfold fhirEcl in H. destruct (js_match fhirEclPattern _); [|discriminate].
    destruct (decodeURIComponent _); [|discriminate].
    apply Some_Ok_inj in H. subst out. left. eexists. reflexivity.
  - unfold fhirRefset in H.
    destruct (js_match fhirRefsetPattern _); [|discriminate].
    apply Some_Ok_inj in H. subst out. right. literal_shape.
  - unfold simpleConcept in H.
    destruct (js_match simpleConceptPattern _); [|discriminate].
    apply Some_Ok_inj in H. subst out. right. literal_shape.
  - right. now apply multipleConcept_shape in H.
  - unfold standaloneRefset in H.
    destruct (js_match standaloneRefsetPattern _); [|discriminate].
    apply Some_Ok_inj in H. subst out. right. literal_shape.
  - unfold standaloneConcept in H.
    destruct (js_match standaloneConceptPattern _); [|discriminate].
    destruct (negb (js_test numberListPattern _)); [|discriminate].
    apply Some_Ok_inj in H. subst out. right. literal_shape.
Qed.

Lemma extract_shape (valueSetString out : jsstring) :
  extractSnomedEclFromValueSet valueSetString = Ok out ->
  out = []
  \/ (exists e, out = cleanAndStandardizeEcl e)
  \/ ((exists a mid, out = a :: mid /\ is_space a = false)
      /\ exists front, out = front ++ lit "|").
Proof.
  revert out.
  apply (extract_each
           (fun res => forall out, res = Ok out ->
              out = []
              \/ (exists e, out = cleanAndStandardizeEcl e)
              \/ ((exists a mid, out = a :: mid /\ is_space a = false)
                  /\ exists front, out = front ++ lit "|")));
    [intros out H; injection H as <-; now left|].
  apply Forall_forall. intros r Hr res H out ->. right.
  eapply fired_shape; eauto.
Qed.

Lemma extract_trimmed (valueSetString out : jsstring) :
  extractSnomedEclFromValueSet valueSetString = Ok out ->
  trimString out = out.
Proof.
  intros H.
  destruct (extract_shape _ H) as [-> | [(e & ->) | [Hhead Hend]]].
  - reflexivity.
  - apply canonical_form_trimmed.
  - now apply trimmed_to_pipe.
Qed.

(** X10: whatever the engine returns has no white space at its ends: the
    result is the empty string or is left unchanged by trimString and has a
    visible character, so the driver's test of the trimmed result only
    ever tells the empty string from the rest. *)
Theorem engine_result_is_trimmed (valueSetString out : jsstring) :
  extractSnomedEclFromValueSet valueSetString = Ok out ->
  trimString out = out /\ (out = [] \/ visible out).
Proof.
  intros H. pose proof (extract_trimmed _ H) as T.
  split; [exact T|].
  destruct (all_space_or_visible out) as [A | V]; [left | now right].
  rewrite <- T. now apply trimString_all_space.
Qed.

Lemma engine_result_is_trimmed_witness :
  trimString (lit "< 123456 |dm+d concept|") = lit "< 123456 |dm+d concept|".
Proof.
  refine (proj1 (@engine_result_is_trimmed (lit " dm+d: 123456 ")
                   (lit "< 123456 |dm+d concept|") _)).
  vm_compute. reflexivity.
Defined.

(** ** Descriptors without a label *)

Lemma word_first_letter (kw : string) (a : jschar) (rest w : jsstring) :
  lit kw = a :: rest -> lang true (word kw) w ->
  exists c, In c w /\ fold_case c = fold_case a.
Proof.
  intros Hkw Hw. apply lang_word_ignoring_case in Hw.
  unfold same_ignoring_case in Hw. rewrite Hkw in Hw.
  destruct w as [|c w]; [discriminate|]. cbn [List.map] in Hw.
  injection Hw as Hc _. exists c. split; [now left | now rewrite Hc].
Qed.

Ltac starts_with_word :=
  match goal with
  | H : lang true (word ?kw) ?w |- _ =>
      let c := fresh "c" in
      let Hin := fresh "Hin" in
      let Hc := fresh "Hc" in
      destruct (@word_first_letter kw _ _ w eq_refl H) as (c & Hin & Hc);
      exists c; split;
      [repeat first [assumption | apply in_or_app; left]
      | first [left; exact Hc | right; exact Hc]]
  end.

(** Every labelled pattern needs the letter S or the letter D. *)
Lemma labelled_needs_letter (re : RegExp) (w : jsstring) :
  In re labelledPatterns -> matches re w ->
  exists c, In c w /\ (fold_case c = chr "S" \/ fold_case c = chr "D").
Proof.
  unfold labelledPatterns, matches. cbn [In]. intros Hre.
  repeat (destruct Hre as [<- | Hre]); try contradiction;
    cbn [re_body re_ignoreCase complexEclPattern altPrefixPattern dmdPattern
         refsetPattern exactPattern descendantsInclusivePattern
         descendantsExclusivePattern ancestorsInclusivePattern
         ancestorsExclusivePattern operatorPattern fhirEclPattern
         fhirRefsetPattern simpleConceptPattern multipleConceptPattern
         snomed_ct_head app cat fold_right];
    cbn [lang];
    try (intros (w1 & w2 & -> & Hw1 & _); starts_with_word; fail).
  intros (w1 & w2 & -> & [Hw1 | [Hw1 | (w3 & w4 & -> & Hw1 & _)]] & _);
    starts_with_word.
Qed.

Lemma js_match_unlabelled (re : RegExp) (s : jsstring) :
  In re labelledPatterns -> Forall no_label_letter s -> js_match re s = None.
Proof.
  intros Hre Hs. unfold js_match.
  destruct (search re 0 s) as [m|] eqn:E; [exfalso | reflexivity].
  destruct (search_sound _ _ _ E) as (pre & w & post & -> & Hw & _).
  destruct (@labelled_needs_letter re w Hre Hw) as (c & Hin & Hc).
  rewrite Forall_forall in Hs.
  destruct (Hs c) as [H1 H2];
    [apply in_or_app; right; apply in_or_app; now left|].
  destruct Hc; contradiction.
Qed.

Lemma trimString_Forall (P : jschar -> Prop) (s : jsstring) :
  Forall P s -> Forall P (trimString s).
Proof.
  rewrite !Forall_forall. intros H c Hc. now apply H, trimString_incl.
Qed.

(** Without a label, only the two standalone recognizers are left. *)
Lemma unlabelled_chain (valueSetString : jsstring) :
  Forall no_label_letter valueSetString ->
  extractSnomedEclFromValueSet valueSetString
  = first_fired [standaloneRefset; standaloneConcept]
      (trimString valueSetString).
Proof.
  intros Hv. rewrite extract_chain.
  destruct (negb (truthy valueSetString)
            || jsstring_eqb (trimString valueSetString) []) eqn:B.
  - assert (E : trimString valueSetString = []).
    { destruct valueSetString; [reflexivity|]. cbn [truthy negb orb] in B.
      now apply jsstring_eqb_eq. }
    rewrite E. reflexivity.
  - apply trimString_Forall in Hv.
    set (valueSet := trimString valueSetString) in *.
    assert (N : forall re, In re labelledPatterns ->
                           js_match re valueSet = None)
      by (intros re Hre; now apply js_match_unlabelled).
    unfold recognizers. cbn [first_fired].
    unfold complexEcl, altPrefix, dmd, refset, exact, descendantsInclusive,
      descendantsExclusive, ancestorsInclusive, ancestorsExclusive,
      withOperator, fhirEcl, fhirRefset, simpleConcept, multipleConcept.
    rewrite !N by (unfold labelledPatterns; cbn [In]; tauto).
    reflexivity.
Qed.



(** ** Lists of numbers *)

Lemma fold_case_cases (c p : jschar) :
  fold_case c = p -> c = p \/ c = (p + 32)%N.
Proof.
  unfold fold_case.
  destruct ((97 <=? c) && (c <=? 122))%N eqn:E; [|now left].
  apply andb_true_iff in E. destruct E as [E _]. apply N.leb_le in E.
  intros <-. right. lia.
Qed.

Lemma number_list_char_no_label (c : jschar) :
  number_list_char c = true -> no_label_letter c.
Proof.
  intros H. split; intros F; apply fold_case_cases in F;
    destruct F as [-> | ->]; vm_compute in H; discriminate H.
Qed.

Lemma atom_number_list (c : jschar) :
  atom_match false (ASet false [CDigit; CSpace; CChar (chr ",")]) c
  = number_list_char c.
Proof.
  unfold number_list_char.
  cbn [atom_match existsb item_match char_match xorb].
  now rewrite orb_false_r, orb_assoc, N.eqb_sym.
Qed.

Lemma numberListPattern_test (s : jsstring) :
  s <> [] -> Forall (fun c => number_list_char c = true) s ->
  js_test numberListPattern s = true.
Proof.
  intros Hne Hs. unfold js_test, js_match.
  assert (M : match_here numberListPattern 0 s <> None).
  { unfold match_here, numberListPattern, plus.
    cbn [re_body re_ignoreCase cat fold_right rmatch Nat.eqb].
    rewrite (rep_match_eol false
               (ASet false [CDigit; CSpace; CChar (chr ",")]) 1
               (fun j _ caps => Some (mkMatch 0 (firstn (j - 0) s) caps))).
    rewrite (forallb_ext' _ number_list_char s atom_number_list).
    replace (forallb number_list_char s) with true
      by (symmetry; apply forallb_forall; now apply Forall_forall).
    destruct s; [now elim Hne | discriminate]. }
  destruct s as [|c s]; [now elim Hne|]. cbn [search].
  destruct (match_here numberListPattern 0 (c :: s));
    [reflexivity | now elim M].
Qed.

Lemma standaloneRefset_needs_caret (s : jsstring) (m : MatchResult) :
  js_match standaloneRefsetPattern s = Some m -> In (chr "^") s.
Proof.
  unfold js_match. intros E.
  destruct (search_sound _ _ _ E) as (pre & w & post & -> & Hw & _).
  unfold matches, standaloneRefsetPattern in Hw.
  cbn [re_body re_ignoreCase cat fold_right lang] in Hw.
  destruct Hw as (w1 & w2 & -> & -> & (w3 & w4 & -> & (c & -> & Hc) & _)).
  cbn [atom_match char_match] in Hc. apply N.eqb_eq in Hc. subst c.
  apply in_or_app. right. now left.
Qed.

(** X12: a descriptor that is only a list of numbers (digits, white space
    and commas) is never converted, however many valid identifiers it
    holds: without a label the engine returns the empty string for it. *)
Theorem number_list_is_not_converted (valueSetString : jsstring) :
  Forall (fun c => number_list_char c = true) valueSetString ->
  extractSnomedEclFromValueSet valueSetString = Ok [].
Proof.
  intros Hv.
  assert (L : Forall no_label_letter valueSetString).
  { eapply Forall_impl; [|exact Hv]. exact number_list_char_no_label. }
  rewrite (unlabelled_chain L).
  apply trimString_Forall in Hv.
  destruct (trimString valueSetString) as [|c s] eqn:E; [reflexivity|].
  assert (Hne : trimString valueSetString <> [])
    by (rewrite E; discriminate).
  rewrite <- E in *. clear E c s.
  cbn [first_fired]. unfold standaloneRefset, standaloneConcept.
  destruct (js_match standaloneRefsetPattern _) as [m|] eqn:M.
  - apply standaloneRefset_needs_caret in M.
    rewrite Forall_forall in Hv. apply Hv in M. discriminate M.
  - destruct (js_match standaloneConceptPattern _); [|reflexivity].
    rewrite numberListPattern_test; [reflexivity | exact Hne | exact Hv].
Qed.

Lemma number_list_is_not_converted_witness :
  extractSnomedEclFromValueSet (lit "71388002, 123456789") = Ok [].
Proof.
  apply number_list_is_not_converted.
  vm_compute. repeat (constructor; [reflexivity|]). constructor.
Defined.

(** ** The dm+d recognizer *)

Lemma span_all (p : jschar -> bool) (s : jsstring) :
  Forall (fun c => p c = true) s -> span p s = List.length s.
Proof.
  induction 1 as [|c s Hc _ IH]; cbn [span List.length];
    [reflexivity | now rewrite Hc, IH].
Qed.

Lemma match_here_dmd (gap code : jsstring) :
  all_space gap -> code <> [] -> all_digits code ->
  exists m,
    match_here dmdPattern 0 (lit "dm+d:" ++ gap ++ code) = Some m
    /\ cap m 1 = code.
Proof.
  intros Hgap Hne Hcode.
  unfold match_here, dmdPattern, star, plus.
  cbn [re_body re_ignoreCase].
  change (lit "dm+d:" ++ gap ++ code)
    with (100%N :: 109%N :: 43%N :: 100%N :: 58%N :: gap ++ code).
  cbn.
  destruct code as [|d code']; [now elim Hne|].
  assert (Hd : is_space d = false)
    by (inversion Hcode; subst; now apply digit_not_space).
  rewrite rep_match_committed.
  2:{ intros j c s' caps' Hc. rewrite atom_sp in Hc.
      cbn [rep_match]. rewrite atom_dg.
      destruct (is_digit c) eqn:D; [|reflexivity].
      apply digit_not_space in D. congruence. }
  cbn zeta. cbn [Nat.leb].
  rewrite (span_ext _ is_space _ (atom_sp true)).
  rewrite span_app_stop by assumption.
  rewrite skipn_app, skipn_all, Nat.sub_diag. cbn [app skipn].
  rewrite rep_match_greedy by discriminate.
  cbn zeta.
  rewrite (span_ext _ is_digit _ (atom_dg true)).
  rewrite span_all by exact Hcode.
  cbn [Nat.add Nat.leb List.length].
  eexists. split; [reflexivity|].
  unfold cap. cbn [m_caps cap_lookup Nat.eqb].
  apply firstn_all2. cbn [List.length]. lia.
Qed.

Lemma needs_S (re : RegExp) (w : jsstring) :
  re = complexEclPattern \/ re = altPrefixPattern -> matches re w ->
  exists c, In c w /\ fold_case c = chr "S".
Proof.
  unfold matches. intros [-> | ->];
    cbn [re_body re_ignoreCase complexEclPattern altPrefixPattern
         cat fold_right]; cbn [lang].
  - intros (w1 & w2 & -> & Hw1 & _).
    destruct (@word_first_letter "SNOMED" _ _ w1 eq_refl Hw1)
      as (c & Hin & Hc).
    exists c. split; [apply in_or_app; now left | exact Hc].
  - intros (w1 & w2 & -> & [Hw1 | [Hw1 | (w3 & w4 & -> & Hw1 & _)]] & _).
    + destruct (@word_first_letter "SCT" _ _ w1 eq_refl Hw1)
        as (c & Hin & Hc).
      exists c. split; [apply in_or_app; now left | exact Hc].
    + destruct (@word_first_letter "SNOMEDCT" _ _ w1 eq_refl Hw1)
        as (c & Hin & Hc).
      exists c. split; [apply in_or_app; now left | exact Hc].
    + destruct (@word_first_letter "SNOMED" _ _ w3 eq_refl Hw1)
        as (c & Hin & Hc).
      exists c. split; [do 2 (apply in_or_app; left); exact Hin | exact Hc].
Qed.

Lemma js_match_without_S (re : RegExp) (s : jsstring) :
  re = complexEclPattern \/ re = altPrefixPattern ->
  Forall (fun c => fold_case c <> chr "S") s -> js_match re s = None.
Proof.
  intros Hre Hs. unfold js_match.
  destruct (search re 0 s) as [m|] eqn:E; [exfalso | reflexivity].
  destruct (search_sound _ _ _ E) as (pre & w & post & -> & Hw & _).
  destruct (@needs_S re w Hre Hw) as (c & Hin & Hc).
  rewrite Forall_forall in Hs. apply (Hs c); [|exact Hc].
  apply in_or_app. right. apply in_or_app. now left.
Qed.

Lemma trimmed_ends (s front : jsstring) (a z : jschar) (mid : jsstring) :
  s = a :: mid -> s = front ++ [z] ->
  is_space a = false -> is_space z = false ->
  trimString s = s.
Proof.
  intros Hs Hf Ha Hz. rewrite trimString_direct.
  assert (E : strip_start s = s).
  { rewrite Hs. cbn [strip_start]. now rewrite Ha. }
  rewrite E. rewrite <- (app_nil_r s) at 1.
  apply strip_end_core; [|constructor].
  intros front' c Hc. rewrite Hf in Hc.
  apply app_inj_tail in Hc. destruct Hc as [_ <-]. exact Hz.
Qed.

(** X13: a dm+d code is converted whatever its length: for the descriptor
    dm+d: followed by optional white space and a run of digits, the engine
    returns the run, all of it, as descendants of a dm+d concept; the
    bound of 6 to 18 digits of the SNOMED recognizers does not apply. *)
Theorem dmd_descriptor (gap code : jsstring) :
  all_space gap -> code <> [] -> all_digits code ->
  extractSnomedEclFromValueSet (lit "dm+d:" ++ gap ++ code)
  = Ok (lit "< " ++ code ++ lit " |dm+d concept|").
Proof.
  intros Hgap Hne Hcode.
  set (valueSet := lit "dm+d:" ++ gap ++ code).
  assert (T : trimString valueSet = valueSet).
  { destruct (@exists_last _ code Hne) as (front & z & Hz).
    apply (@trimmed_ends valueSet (lit "dm+d:" ++ gap ++ front)
             (chr "d") z (lit "m+d:" ++ gap ++ code)).
    - reflexivity.
    - unfold valueSet. now rewrite Hz, <- !app_assoc.
    - reflexivity.
    - apply digit_not_space. unfold all_digits in Hcode.
      rewrite Forall_forall in Hcode. apply Hcode. rewrite Hz.
      apply in_or_app. right. now left. }
  assert (S : Forall (fun c => fold_case c <> chr "S") valueSet).
  { unfold valueSet.
    apply Forall_app; split; [|apply Forall_app; split].
    - vm_compute. repeat (constructor; [discriminate|]). constructor.
    - eapply Forall_impl; [|exact Hgap]. intros c Hc F.
      apply fold_case_cases in F. destruct F as [-> | ->]; discriminate Hc.
    - eapply Forall_impl; [|exact Hcode]. intros c Hc F.
      apply fold_case_cases in F. destruct F as [-> | ->]; discriminate Hc. }
  rewrite extract_chain, T.
  replace (negb (truthy valueSet) || jsstring_eqb valueSet []) with false
    by reflexivity.
  unfold recognizers. cbn [first_fired].
  unfold complexEcl, altPrefix, dmd.
  rewrite (js_match_without_S (or_introl eq_refl) S).
  rewrite (js_match_without_S (or_intror eq_refl) S).
  destruct (match_here_dmd Hgap Hne Hcode) as (m & Hm & Hcap).
  unfold js_match. unfold valueSet.
  change (lit "dm+d:" ++ gap ++ code)
    with (100%N :: lit "m+d:" ++ gap ++ code) at 1.
  cbn [search].
  change (100%N :: lit "m+d:" ++ gap ++ code)
    with (lit "dm+d:" ++ gap ++ code).
  now rewrite Hm, Hcap.
Qed.

Lemma dmd_descriptor_witness :
  extractSnomedEclFromValueSet (lit "dm+d:" ++ lit " " ++ lit "42")
  = Ok (lit "< " ++ lit "42" ++ lit " |dm+d concept|").
Proof.
  apply dmd_descriptor.
  - vm_compute. repeat constructor.
  - discriminate.
  - vm_compute. repeat constructor.
Defined.

(** ** Operator spacing in a canonical form *)

Lemma spaced_app (op : jschar -> bool) (a b : jsstring) :
  spaced op a = true -> spaced op b = true ->
  op (last a 0%N) = false \/ head_after_operator b = true ->
  spaced op (a ++ b) = true.
Proof.
  intros Ha Hb Hj. induction a as [|x a IH]; [exact Hb|].
  cbn [spaced] in Ha. apply andb_true_iff in Ha. destruct Ha as [Hx Ha].
  cbn [app spaced]. apply andb_true_iff. split.
  - destruct a as [|y a]; [|exact Hx]. cbn [app last] in *.
    destruct Hj as [Hj | Hj]; [now rewrite Hj | now rewrite Hj, orb_true_r].
  - destruct a as [|y a]; [exact Hb | apply IH; [exact Ha | exact Hj]].
Qed.

Lemma spaced_suffix (op : jschar -> bool) (a b : jsstring) :
  spaced op (a ++ b) = true -> spaced op b = true.
Proof.
  induction a as [|x a IH]; [easy|]. cbn [app spaced]. intros H.
  apply andb_true_iff in H. now apply IH.
Qed.

Lemma spaced_prefix (op : jschar -> bool) (a b : jsstring) :
  spaced op (a ++ b) = true -> spaced op a = true.
Proof.
  induction a as [|x a IH]; [reflexivity|]. cbn [app spaced]. intros H.
  apply andb_true_iff in H. destruct H as [Hx H].
  apply andb_true_iff. split; [|now apply IH].
  destruct a; [apply orb_true_r | exact Hx].
Qed.

Lemma spaced_never (s : jsstring) : spaced (fun _ => false) s = true.
Proof. induction s as [|c s IH]; [reflexivity | exact IH]. Qed.

Section ReplaceSpaced.

Variable re : RegExp.
Variable f : MatchResult -> jsstring.
Variables op_in op_out : jschar -> bool.

(** A match is not empty, and what replaces it starts with a character
    that may follow an operator, is spaced, and does not end with an
    operator. *)
Hypothesis replacement :
  forall i s m,
    match_here re i s = Some m -> spaced op_in s = true ->
    m_text m <> [] /\ f m <> []
    /\ head_after_operator (f m) = true
    /\ spaced op_out (f m) = true
    /\ op_out (last (f m) 0%N) = false.

(** A character of the class is already spaced in the input, or is always
    inside a match. *)
Hypothesis covered :
  forall c, op_out c = true ->
            op_in c = true
            \/ forall i s', match_here re i (c :: s') <> None.

(** The output starts with a character that may follow an operator, or
    with the first character of the input. *)
Let head_kept (s out : jsstring) : Prop :=
  head_after_operator out = true
  \/ exists d s' out', s = d :: s' /\ out = d :: out'.

Lemma replace_spaced_within (n : nat) :
  forall (s : jsstring) (i : nat),
    List.length s <= n -> spaced op_in s = true ->
    spaced op_out (replace_from re f i s 0) = true
    /\ head_kept s (replace_from re f i s 0).
Proof.
  induction n as [|n IH]; intros s i Hlen Hs.
  - destruct s; [|simpl in Hlen; lia]. cbn [replace_from].
    destruct (match_here re i []) as [m|] eqn:E;
      [|split; [reflexivity | now left]].
    destruct (replacement _ _ E Hs) as (Hne & _).
    destruct (match_here_sound _ _ _ E) as (w & s' & Hw & _ & Ht & _).
    symmetry in Hw. apply app_eq_nil in Hw. destruct Hw as [-> _].
    now elim Hne.
  - destruct s as [|c s].
    { apply IH; [simpl; lia | exact Hs]. }
    cbn [replace_from].
    destruct (match_here re i (c :: s)) as [m|] eqn:E.
    + destruct (replacement _ _ E Hs) as (Hne & Hfne & Hhead & Hsp & Hlast).
      destruct (match_here_sound _ _ _ E) as (w & rest & Hw & _ & Ht & _).
      rewrite Ht in *.
      destruct w as [|c' w]; [now elim Hne|].
      cbn [app] in Hw. injection Hw as <- ->.
      cbn [List.length].
      rewrite replace_from_skip by (rewrite length_app; lia).
      rewrite skipn_app, skipn_all, Nat.sub_diag. cbn [app skipn].
      destruct (IH rest (S i + List.length w)) as [IH1 _].
      { simpl in Hlen. rewrite length_app in Hlen. lia. }
      { eapply (spaced_suffix op_in (c :: w)). exact Hs. }
      split.
      * apply spaced_app; [exact Hsp | exact IH1 | now left].
      * left. destruct (f m); [now elim Hfne | exact Hhead].
    + cbn [spaced] in Hs. apply andb_true_iff in Hs. destruct Hs as [Hc Hs].
      destruct (IH s (S i)) as [IH1 IH2]; [simpl in Hlen; lia | exact Hs|].
      split; [|right; eexists _, _, _; split; reflexivity].
      cbn [spaced]. apply andb_true_iff. split; [|exact IH1].
      destruct (op_out c) eqn:Oc; [|reflexivity]. cbn [negb orb].
      destruct (covered Oc) as [Ic | M]; [|now elim (M i s)].
      rewrite Ic in Hc. cbn [negb orb] in Hc.
      destruct IH2 as [H | (d & s' & out' & -> & ->)]; [exact H | exact Hc].
Qed.

Lemma replace_spaced (s : jsstring) :
  spaced op_in s = true -> spaced op_out (js_replace_all re f s) = true.
Proof.
  intros Hs. apply (@replace_spaced_within (List.length s) s 0 (le_n _) Hs).
Qed.

End ReplaceSpaced.


Lemma match_here_oneSpace (i : nat) (s : jsstring) :
  match_here oneSpacePattern i s
  = match s with
    | c :: _ => if is_space c then Some (mkMatch i [c] []) else None
    | [] => None
    end.
Proof.
  unfold match_here, oneSpacePattern. cbn [re_body re_ignoreCase rmatch].
  destruct s as [|c s]; [reflexivity|]. rewrite atom_sp.
  destruct (is_space c); [|reflexivity].
  replace (S i - i) with 1 by lia. reflexivity.
Qed.

(** [match.replace(/\s/g, "")] removes the white space. *)
Lemma remove_spaces (s : jsstring) :
  forall i : nat,
    replace_from oneSpacePattern (fun _ => []) i s 0
    = filter (fun c => negb (is_space c)) s.
Proof.
  induction s as [|c s IH]; intros i; cbn [replace_from filter];
    rewrite match_here_oneSpace; [reflexivity|].
  destruct (is_space c); cbn [negb m_text List.length app];
    now rewrite IH.
Qed.

Lemma filter_all_space (s : jsstring) :
  all_space s -> filter (fun c => negb (is_space c)) s = [].
Proof.
  induction 1 as [|c s Hc _ IH]; [reflexivity|].
  cbn [filter]. now rewrite Hc.
Qed.

(** What replaces a match of an angle-bracket step: the one or two
    brackets and one space. *)
Lemma respace_angle (op : ascii) (m : MatchResult) :
  is_space (chr op) = false ->
  matches (angleSpacingPattern op) (m_text m) ->
  m_text m <> []
  /\ (respace m = [chr op; 32%N] \/ respace m = [chr op; chr op; 32%N]).
Proof.
  intros Hop. unfold matches, angleSpacingPattern, respace, js_replace_all.
  cbn [re_body re_ignoreCase cat fold_right lang].
  intros (a & t & -> & Ha & (os & u & -> & Hos & (b & e & -> & Hb & ->))).
  apply lang_star_sp in Ha, Hb. destruct Hos as (Hos & Hlo & Hhi).
  cbn [within] in Hhi.
  assert (O : os = [chr op] \/ os = [chr op; chr op]).
  { destruct os as [|x [|y [|z os]]]; cbn [List.length] in *; try lia.
    - inversion Hos as [|? ? Hx _]; subst.
      cbn [atom_match char_match] in Hx. apply N.eqb_eq in Hx. subst.
      now left.
    - inversion Hos as [|? ? Hx Hos']; subst.
      inversion Hos' as [|? ? Hy _]; subst.
      cbn [atom_match char_match] in Hx, Hy.
      apply N.eqb_eq in Hx, Hy. subst. now right. }
  split.
  - destruct O as [-> | ->]; intros E; apply app_eq_nil in E;
      destruct E as [_ E]; discriminate E.
  - rewrite remove_spaces, !filter_app, app_nil_r.
    rewrite (filter_all_space Ha), (filter_all_space Hb), app_nil_r.
    destruct O as [-> | ->]; cbn [filter app]; rewrite Hop; cbn [negb];
      [left | right]; reflexivity.
Qed.

Lemma lang_star_sp_nil (ic : bool) : lang ic (star sp) [].
Proof. apply lang_star_sp. constructor. Qed.

Lemma angle_matches_single (op : ascii) :
  matches (angleSpacingPattern op) [chr op].
Proof.
  unfold matches, angleSpacingPattern.
  cbn [re_body re_ignoreCase cat fold_right lang].
  exists [], [chr op]. split; [reflexivity|].
  split; [apply lang_star_sp_nil|].
  exists [chr op], []. split; [reflexivity|]. split.
  - cbn [within List.length]. repeat split; try lia.
    constructor; [|constructor]. cbn [atom_match char_match].
    apply N.eqb_refl.
  - exists [], []. split; [reflexivity|].
    split; [apply lang_star_sp_nil | reflexivity].
Qed.

Lemma angle_always_matches (op : ascii) (i : nat) (s' : jsstring) :
  match_here (angleSpacingPattern op) i (chr op :: s') <> None.
Proof.
  apply (@match_here_complete (angleSpacingPattern op) i [chr op] s');
    [reflexivity | apply angle_matches_single].
Qed.

(** After the step for [<], every [<] is followed by a space or by [<]. *)
Lemma spaced_after_lt (s : jsstring) :
  spaced (fun c => (c =? 60)%N)
    (js_replace_all (angleSpacingPattern "<") respace s) = true.
Proof.
  apply replace_spaced with (op_in := fun _ => false);
    [| |apply spaced_never].
  - intros i t m E _.
    destruct (match_here_sound _ _ _ E) as (w & t' & _ & Hw & Ht & _).
    rewrite <- Ht in Hw.
    destruct (@respace_angle "<" m eq_refl Hw) as (Hne & [-> | ->]);
      repeat split; try exact Hne; discriminate.
  - intros c Hc. right. apply N.eqb_eq in Hc. subst c.
    intros i s'. apply (angle_always_matches "<").
Qed.

Lemma spaced_after_gt (s : jsstring) :
  spaced (fun c => (c =? 60)%N) s = true ->
  spaced (fun c => (c =? 60) || (c =? 62))%N
    (js_replace_all (angleSpacingPattern ">") respace s) = true.
Proof.
  apply replace_spaced.
  - intros i t m E _.
    destruct (match_here_sound _ _ _ E) as (w & t' & _ & Hw & Ht & _).
    rewrite <- Ht in Hw.
    destruct (@respace_angle ">" m eq_refl Hw) as (Hne & [-> | ->]);
      repeat split; try exact Hne; discriminate.
  - intros c Hc. apply orb_true_iff in Hc. destruct Hc as [Hc | Hc];
      [now left | right].
    apply N.eqb_eq in Hc. subst c.
    intros i s'. apply (angle_always_matches ">").
Qed.

Lemma spaced_after_caret (s : jsstring) :
  spaced (fun c => (c =? 60) || (c =? 62))%N s = true ->
  spaced operator_char
    (js_replace_all caretSpacingPattern (fun _ => lit "^ ") s) = true.
Proof.
  apply replace_spaced.
  - intros i t m E _.
    destruct (match_here_sound _ _ _ E) as (w & t' & _ & Hw & Ht & _).
    repeat split; try discriminate. rewrite Ht.
    unfold matches, caretSpacingPattern in Hw.
    cbn [re_body re_ignoreCase cat fold_right lang] in Hw.
    destruct Hw as (a & u & -> & _ & (o & v & -> & (c & -> & _) & _)).
    intros H. apply app_eq_nil in H. destruct H as [_ H]. discriminate H.
  - intros c Hc. unfold operator_char in Hc.
    apply orb_true_iff in Hc. destruct Hc as [Hc | Hc]; [now left | right].
    apply N.eqb_eq in Hc. subst c. intros i s'.
    apply (@match_here_complete caretSpacingPattern i [94%N] s');
      [reflexivity|].
    unfold matches, caretSpacingPattern.
    cbn [re_body re_ignoreCase cat fold_right lang].
    exists [], [94%N]. split; [reflexivity|].
    split; [apply lang_star_sp_nil|].
    exists [94%N], []. split; [reflexivity|]. split.
    + exists 94%N. split; reflexivity.
    + exists [], []. split; [reflexivity|].
    split; [apply lang_star_sp_nil | reflexivity].
Qed.

Lemma strip_end_prefix (s : jsstring) : exists t, s = strip_end s ++ t.
Proof.
  induction s as [|c s (t & IH)]; [now exists []|].
  cbn [strip_end]. destruct (forallb is_space (c :: s)).
  - now exists (c :: s).
  - exists t. cbn [app]. now rewrite <- IH.
Qed.

Lemma spaced_trimString (op : jschar -> bool) (s : jsstring) :
  spaced op s = true -> spaced op (trimString s) = true.
Proof.
  intros H. rewrite trimString_direct.
  destruct (strip_end_prefix (strip_start s)) as (t & E).
  apply (spaced_prefix op _ t). rewrite <- E.
  rewrite strip_start_skipn.
  apply (spaced_suffix op (firstn (span is_space s) s)).
  now rewrite firstn_skipn.
Qed.

(** The text captured by the semantic-tag pattern is a part of the match. *)
Lemma semanticTag_capture (i : nat) (s : jsstring) (m : MatchResult) :
  match_here semanticTagPattern i s = Some m ->
  exists pre post, s = pre ++ cap m 1 ++ post /\ m_text m <> [].
Proof.
  intros E. destruct (match_here_captures _ _ _ E) as (s' & Hs & Hp).
  unfold semanticTagPattern in Hp. cbn [re_body re_ignoreCase] in Hp.
  set (rest := cat [star sp; One (AChar (chr "("));
                    plus (ASet true [CChar (chr ")")]);
                    One (AChar (chr ")")); star sp; One (AChar (chr "|"))])
    in *.
  change (parses false
            (Seq (One (AChar (chr "|")))
               (Seq (Group 1 (plus not_pipe)) rest))
            (m_text m) [] (m_caps m)) in Hp.
  cbn [parses] in Hp.
  destruct Hp as (w1 & t & caps1 & Ht & [(c & -> & _) ->]
                  & (w3 & w4 & caps2 & -> & (caps3 & _ & ->) & Hrest)).
  apply parses_group_free in Hrest; [|reflexivity].
  exists [c], (w4 ++ s'). split.
  - rewrite Hs, Ht, <- !app_assoc. unfold cap. rewrite Hrest.
    cbn [cap_lookup Nat.eqb]. reflexivity.
  - rewrite Ht. discriminate.
Qed.

Lemma spaced_after_semanticTag (s : jsstring) :
  spaced operator_char s = true ->
  spaced operator_char
    (js_replace_all semanticTagPattern
       (fun m => lit "|" ++ trimString (cap m 1) ++ lit "|") s) = true.
Proof.
  apply replace_spaced; [|now left].
  intros i t m E Ht.
  destruct (semanticTag_capture _ _ E) as (pre & post & Hs & Hne).
  assert (C : spaced operator_char (trimString (cap m 1)) = true).
  { apply spaced_trimString. rewrite Hs in Ht.
    apply spaced_suffix in Ht. now apply spaced_prefix in Ht. }
  split; [exact Hne|]. split; [discriminate|]. split; [reflexivity|].
  split.
  - change (lit "|" ++ trimString (cap m 1) ++ lit "|")
      with (124%N :: trimString (cap m 1) ++ [124%N]).
    cbn [spaced]. apply spaced_app; [exact C | reflexivity | now right].
  - change (lit "|" ++ trimString (cap m 1) ++ lit "|")
      with ((124%N :: trimString (cap m 1)) ++ [124%N]).
    now rewrite last_last.
Qed.

Lemma spaced_after_collapse (s : jsstring) :
  spaced operator_char s = true ->
  spaced operator_char (collapseWhitespace s) = true.
Proof.
  apply replace_spaced; [|now left].
  intros i t m E _.
  destruct (match_here_sound _ _ _ E) as (w & t' & _ & Hw & Hm & _).
  repeat split; try discriminate. rewrite Hm.
  unfold matches, whitespaceRunPattern in Hw.
  cbn [re_body re_ignoreCase] in Hw. apply lang_plus_sp in Hw. tauto.
Qed.

Lemma canonical_form_spaced (e : jsstring) :
  spaced operator_char (cleanAndStandardizeEcl e) = true.
Proof.
  change (cleanAndStandardizeEcl e)
    with (trimString (collapseWhitespace (rewriteSteps (trimString e)))).
  apply spaced_trimString, spaced_after_collapse.
  unfold rewriteSteps.
  apply spaced_after_semanticTag, spaced_after_caret, spaced_after_gt,
    spaced_after_lt.
Qed.

Lemma spaced_at (op : jschar -> bool) (pre post : jsstring) (c d : jschar) :
  spaced op (pre ++ c :: d :: post) = true -> op c = true ->
  after_operator d = true.
Proof.
  intros H Hc. apply spaced_suffix in H. cbn [spaced] in H.
  rewrite Hc in H. cbn [negb orb head_after_operator] in H.
  now apply andb_true_iff in H.
Qed.

(** X14: in a canonical form no operator stands directly against what it
    applies to: each of the characters <, > and ^ that is not the last
    character is followed by white space, by another of these characters
    or by a pipe. *)
Theorem canonical_form_operators_spaced
  (e pre post : jsstring) (c d : jschar) :
  cleanAndStandardizeEcl e = pre ++ c :: d :: post ->
  c = chr "<" \/ c = chr ">" \/ c = chr "^" ->
  is_space d = true
  \/ d = chr "<" \/ d = chr ">" \/ d = chr "^" \/ d = chr "|".
Proof.
  intros E Hc. pose proof (canonical_form_spaced e) as S. rewrite E in S.
  apply spaced_at in S.
  - unfold after_operator in S.
    apply orb_true_iff in S. destruct S as [S | S];
      [|apply N.eqb_eq in S; subst d; tauto].
    apply orb_true_iff in S. destruct S as [S | S]; [now left|].
    unfold operator_char in S.
    apply orb_true_iff in S. destruct S as [S | S];
      [|apply N.eqb_eq in S; subst d; tauto].
    apply orb_true_iff in S.
    destruct S as [S | S]; apply N.eqb_eq in S; subst d; tauto.
  - destruct Hc as [-> | [-> | ->]]; reflexivity.
Qed.

Lemma canonical_form_operators_spaced_witness :
  is_space 32%N = true
  \/ 32%N = chr "<" \/ 32%N = chr ">" \/ 32%N = chr "^" \/ 32%N = chr "|".
Proof.
  apply (@canonical_form_operators_spaced (lit "<<71388002") [chr "<"]
           (lit "71388002") (chr "<") 32%N).
  - vm_compute. reflexivity.
  - now left.
Defined.

Lemma canonical_form_not_memo (e : jsstring) :
  cleanAndStandardizeEcl e <> lit "<memo>".
Proof.
  intros E. pose proof (canonical_form_spaced e) as S. rewrite E in S.
  discriminate S.
Qed.

(** The engine never returns the text that addOrUpdateTaggedValue uses as
    the sign of a long value. *)
Lemma engine_not_memo (valueSetString : jsstring) :
  extractSnomedEclFromValueSet valueSetString <> Ok (lit "<memo>").
Proof.
  intros H.
  destruct (extract_shape _ H) as [E | [(e & E) | [_ (front & E)]]].
  - discriminate E.
  - symmetry in E. revert E. apply canonical_form_not_memo.
  - change (lit "<memo>") with (lit "<memo" ++ [62%N]) in E.
    change (lit "|") with [124%N] in E.
    apply app_inj_tail in E. destruct E as [_ E]. discriminate E.
Qed.

(** X15: what the engine returns is always read back as written: for every
    descriptor, the result of extractSnomedEclFromValueSet, written to a
    tagged value by addOrUpdateTaggedValue, is returned unchanged by
    getTaggedValue; the engine never returns the text kept for long
    values. *)
Theorem engine_result_round_trip
  (refuses : ElementRef -> jsstring -> bool) (element : ElementRef)
  (name valueSetString out : jsstring) (w w' : World) :
  extractSnomedEclFromValueSet valueSetString = Ok out ->
  addOrUpdateTaggedValue refuses element name out w = (Ok tt, w') ->
  getTaggedValue element name w' = (Ok out, w').
Proof.
  intros Hex H. apply addOrUpdate_returns in H as [_ ->].
  unfold getTaggedValue.
  cbn [taggedValues]. rewrite Nat.eqb_refl.
  rewrite readTag_writeTag; [reflexivity|].
  intros ->. now apply (@engine_not_memo valueSetString).
Qed.

Lemma engine_result_round_trip_witness :
  let w := worldWith [] in
  let w' := snd (addOrUpdateTaggedValue neverRefuses 0 (lit "snomedECL")
                   (lit "< 123456 |dm+d concept|") w) in
  getTaggedValue 0 (lit "snomedECL") w'
  = (Ok (lit "< 123456 |dm+d concept|"), w').
Proof.
  intros w w'.
  apply (@engine_result_round_trip neverRefuses 0 (lit "snomedECL")
           (lit "dm+d: 123456") (lit "< 123456 |dm+d concept|") w w').
  - vm_compute. reflexivity.
  - reflexivity.
Defined.

(** ** A global replacement that changes nothing *)

Section ReplaceFixed.

Variable re : RegExp.
Variable f : MatchResult -> jsstring.

(** When every match that the pattern can find in [s] is replaced by
    itself, the replacement returns [s]. *)
Lemma replace_fixed_within (n : nat) :
  forall (s : jsstring) (i : nat),
    List.length s <= n ->
    (forall pre t j m,
        s = pre ++ t -> match_here re j t = Some m ->
        f m = m_text m /\ m_text m <> []) ->
    replace_from re f i s 0 = s.
Proof.
  induction n as [|n IH]; intros s i Hlen Hfix.
  - destruct s; [|simpl in Hlen; lia]. cbn [replace_from].
    destruct (match_here re i []) as [m|] eqn:E; [|reflexivity].
    destruct (Hfix [] [] i m eq_refl E) as [_ Hne].
    destruct (match_here_sound _ _ _ E) as (w & s' & Hw & _ & Ht & _).
    symmetry in Hw. apply app_eq_nil in Hw. destruct Hw as [-> _].
    now elim Hne.
  - destruct s as [|c s].
    { apply IH; [simpl; lia | exact Hfix]. }
    cbn [replace_from].
    destruct (match_here re i (c :: s)) as [m|] eqn:E.
    + destruct (Hfix [] (c :: s) i m eq_refl E) as [Hf Hne].
      destruct (match_here_sound _ _ _ E) as (w & rest & Hw & _ & Ht & _).
      rewrite Hf, Ht in *.
      destruct w as [|c' w]; [now elim Hne|].
      cbn [app] in Hw. injection Hw as <- ->.
      cbn [List.length].
      rewrite replace_from_skip by (rewrite length_app; lia).
      rewrite skipn_app, skipn_all, Nat.sub_diag. cbn [app skipn].
      rewrite IH; [reflexivity | |].
      * simpl in Hlen. rewrite length_app in Hlen. lia.
      * intros pre t j m' Hs. apply (Hfix ((c :: w) ++ pre) t j m').
        now rewrite Hs, <- app_assoc.
    + f_equal. apply IH; [simpl in Hlen; lia|].
      intros pre t j m' Hs. apply (Hfix (c :: pre) t j m').
      now rewrite Hs.
Qed.

Lemma replace_fixed (s : jsstring) :
  (forall pre t j m,
      s = pre ++ t -> match_here re j t = Some m ->
      f m = m_text m /\ m_text m <> []) ->
  js_replace_all re f s = s.
Proof. apply (@replace_fixed_within (List.length s) s 0 (le_n _)). Qed.

End ReplaceFixed.

(** ** The parts of a settled form *)

Lemma single_spaced_suffix (pre t : jsstring) :
  single_spaced (pre ++ t) -> single_spaced t.
Proof.
  induction pre as [|c pre IH]; [auto|].
  cbn [app single_spaced]. intros [_ H]. auto.
Qed.

Lemma keyword_settled_suffix (kw : string) (pre t : jsstring) :
  keyword_settled kw (pre ++ t) = true -> keyword_settled kw t = true.
Proof.
  induction pre as [|c pre IH]; [auto|].
  cbn [app keyword_settled]. intros H.
  apply andb_true_iff in H. destruct H as [_ H]. auto.
Qed.

(** In a single-spaced text a run of white space is one space. *)
Lemma single_spaced_run (a rest : jsstring) :
  single_spaced (a ++ rest) -> a <> [] -> all_space a ->
  a = [32%N] /\ span is_space rest = 0.
Proof.
  intros Hs Hne Ha. destruct a as [|c a]; [now elim Hne|].
  inversion Ha as [|? ? Hc Ha']; subst.
  cbn [app single_spaced] in Hs. destruct Hs as [Hs _].
  destruct (Hs Hc) as [-> Hspan].
  destruct a as [|d a]; [split; [reflexivity | exact Hspan]|].
  inversion Ha' as [|? ? Hd _]; subst.
  cbn [app span] in Hspan. rewrite Hd in Hspan. discriminate.
Qed.

Lemma starts_in_any_case_app (p k rest : jsstring) :
  List.map fold_case p = List.map fold_case k ->
  starts_in_any_case p (k ++ rest) = true.
Proof.
  revert k. induction p as [|a p IH]; intros [|c k] H;
    try discriminate; [reflexivity|].
  cbn [List.map] in H. injection H as Hc Hk.
  cbn [app starts_in_any_case char_match].
  rewrite Hc, N.eqb_refl. cbn [andb]. auto.
Qed.

Lemma starts_with_app (p k rest : jsstring) :
  List.length p = List.length k ->
  starts_with p (k ++ rest) = true -> k = p.
Proof.
  revert k. induction p as [|a p IH]; intros [|c k] Hlen H;
    try discriminate; [reflexivity|].
  cbn [app starts_with] in H. apply andb_true_iff in H.
  destruct H as [Hc H]. apply N.eqb_eq in Hc. subst.
  f_equal. apply IH; [simpl in Hlen; lia | exact H].
Qed.

(** In a settled form, what a keyword step finds is what it writes. *)
Lemma keyword_match_fixed (kw : string) (written : jsstring) (j : nat)
      (t : jsstring) (m : MatchResult) :
  written = 32%N :: List.map fold_case (lit kw) ++ [32%N] ->
  single_spaced t -> keyword_settled kw t = true ->
  match_here (keywordPattern kw) j t = Some m ->
  written = m_text m /\ m_text m <> [].
Proof.
  intros Hw Hs Hk E.
  destruct (match_here_sound _ _ _ E) as (w & rest & -> & Hm & -> & _).
  unfold matches, keywordPattern in Hm.
  cbn [re_body re_ignoreCase cat fold_right lang] in Hm.
  destruct Hm as (a & u & -> & Ha & (k & v & -> & Hkw & (b & e & -> & Hb & ->))).
  apply lang_plus_sp in Ha, Hb. apply lang_word_ignoring_case in Hkw.
  unfold same_ignoring_case in Hkw. rewrite app_nil_r in *.
  rewrite <- !app_assoc in Hs, Hk.
  destruct (@single_spaced_run a (k ++ b ++ rest) Hs (proj1 Ha) (proj2 Ha))
    as [-> _].
  assert (Hs' : single_spaced (b ++ rest)).
  { apply (@single_spaced_suffix ([32%N] ++ k)).
    now rewrite <- app_assoc. }
  destruct (@single_spaced_run b rest Hs' (proj1 Hb) (proj2 Hb)) as [-> _].
  assert (L : List.length (lit kw) = List.length k).
  { rewrite <- (length_map fold_case (lit kw)), Hkw. apply length_map. }
  cbn [app keyword_settled] in Hk.
  apply andb_true_iff in Hk. destruct Hk as [Hk _].
  rewrite starts_in_any_case_app in Hk by exact Hkw.
  rewrite skipn_app, L, skipn_all, Nat.sub_diag in Hk.
  cbn [app skipn head_is_space] in Hk.
  change (is_space 32%N) with true in Hk. cbn [andb] in Hk.
  apply starts_with_app in Hk; [|now rewrite length_map].
  split; [|discriminate]. rewrite Hw, Hk. reflexivity.
Qed.

(** ** The operator patterns, directly *)

Lemma space_not_char (p c : jschar) :
  is_space p = false -> is_space c = true -> N.eqb p c = false.
Proof.
  intros Hp Hc. destruct (N.eqb_spec p c) as [->|]; [|reflexivity].
  rewrite Hc in Hp. discriminate.
Qed.

(** The white space that ends an operator pattern: all of it is taken. *)
Lemma rep_match_trailing_space (j i : nat) (t s : jsstring) (caps : Caps) :
  rep_match false sp 0 None 0 i s caps
    (fun j3 _ c3 => Some (mkMatch j (firstn (j3 - j) t) c3))
  = Some (mkMatch j (firstn (i + span is_space s - j) t) caps).
Proof.
  rewrite rep_match_greedy by discriminate. cbn zeta.
  rewrite (span_ext _ is_space s (atom_sp false)). reflexivity.
Qed.

(** White space, one or two brackets, white space: the match takes all the
    white space in front, two brackets when there are two, and all the
    white space behind. *)
Lemma match_here_angle (op : ascii) (j : nat) (t : jsstring) :
  is_space (chr op) = false ->
  match_here (angleSpacingPattern op) j t
  = let lead := span is_space t in
    let found (brackets : nat) (behind : jsstring) :=
      Some (mkMatch j (firstn (lead + brackets + span is_space behind) t)
              []) in
    match skipn lead t with
    | c1 :: t2 =>
        if N.eqb (chr op) c1 then
          match t2 with
          | c2 :: t3 => if N.eqb (chr op) c2 then found 2 t3 else found 1 t2
          | [] => found 1 []
          end
        else None
    | [] => None
    end.
Proof.
  intros Hop. unfold match_here, angleSpacingPattern, star.
  cbn [re_body re_ignoreCase cat fold_right rmatch].
  set (behind := fun (j2 : nat) (s2 : jsstring) (c2 : Caps) =>
                   rep_match false sp 0 None 0 j2 s2 c2
                     (fun j3 s3 c3 =>
                        (fun j4 _ c4 =>
                           Some (mkMatch j (firstn (j4 - j) t) c4))
                          j3 s3 c3)).
  assert (B : forall i s caps,
             behind i s caps
             = Some (mkMatch j (firstn (i + span is_space s - j) t) caps)).
  { intros i s caps. apply rep_match_trailing_space. }
  rewrite rep_match_committed.
  2:{ intros j0 c s' caps' Hc. rewrite atom_sp in Hc.
      cbn [rep_match atom_match char_match].
      rewrite (@space_not_char _ _ Hop Hc). reflexivity. }
  cbn zeta. rewrite (span_ext _ is_space t (atom_sp false)).
  cbn [Nat.add Nat.leb].
  destruct (skipn (span is_space t) t) as [|c1 t2]; [reflexivity|].
  cbn [rep_match atom_match char_match below].
  destruct (N.eqb (chr op) c1); [|reflexivity].
  change (Nat.ltb 0 2) with true. cbn [andb].
  destruct t2 as [|c2 t3].
  - cbn [rep_match Nat.leb]. rewrite B. do 3 f_equal. cbn [span]. lia.
  - cbn [rep_match atom_match char_match below].
    destruct (N.eqb (chr op) c2).
    + change (Nat.ltb 1 2) with true. cbn [andb].
      assert (K : rep_match false (AChar (chr op)) 1 (Some 2) 2
                    (S (S (j + span is_space t))) t3 [] behind
                  = behind (S (S (j + span is_space t))) t3 []).
      { destruct t3 as [|c3 t3]; cbn [rep_match below]; [reflexivity|].
        change (Nat.ltb 2 2) with false. now rewrite andb_false_r. }
      rewrite K, B. do 3 f_equal. lia.
    + cbn [andb Nat.leb]. rewrite B. do 3 f_equal. lia.
Qed.

(** White space, a caret, white space. *)
Lemma match_here_caret (j : nat) (t : jsstring) :
  match_here caretSpacingPattern j t
  = let lead := span is_space t in
    match skipn lead t with
    | c1 :: t2 =>
        if N.eqb 94 c1
        then Some (mkMatch j (firstn (lead + 1 + span is_space t2) t) [])
        else None
    | [] => None
    end.
Proof.
  unfold match_here, caretSpacingPattern, star.
  cbn [re_body re_ignoreCase cat fold_right rmatch].
  rewrite rep_match_committed.
  2:{ intros j0 c s' caps' Hc. rewrite atom_sp in Hc.
      cbn [atom_match char_match].
      change (chr "^") with 94%N.
      rewrite (@space_not_char 94%N c eq_refl Hc). reflexivity. }
  cbn zeta. rewrite (span_ext _ is_space t (atom_sp false)).
  cbn [Nat.add Nat.leb].
  destruct (skipn (span is_space t) t) as [|c1 t2]; [reflexivity|].
  cbn [atom_match char_match]. change (chr "^") with 94%N.
  destruct (N.eqb 94 c1); [|reflexivity].
  rewrite rep_match_trailing_space. do 3 f_equal. lia.
Qed.

(** ** One operator step on a text given by its items *)

Lemma replace_match (re : RegExp) (f : MatchResult -> jsstring) (i : nat)
      (w rest : jsstring) (m : MatchResult) :
  match_here re i (w ++ rest) = Some m -> m_text m = w -> w <> [] ->
  replace_from re f i (w ++ rest) 0
  = f m ++ replace_from re f (i + List.length w) rest 0.
Proof.
  intros E Ht Hne. destruct w as [|c w]; [now elim Hne|].
  cbn [app replace_from]. cbn [app] in E. rewrite E, Ht.
  cbn [List.length].
  rewrite replace_from_skip by (rewrite length_app; lia).
  rewrite skipn_app, skipn_all, Nat.sub_diag. cbn [app skipn].
  do 2 f_equal. lia.
Qed.

Lemma replace_no_match (re : RegExp) (f : MatchResult -> jsstring) (i : nat)
      (c : jschar) (rest : jsstring) :
  match_here re i (c :: rest) = None ->
  replace_from re f i (c :: rest) 0 = c :: replace_from re f (S i) rest 0.
Proof. intros E. cbn [replace_from]. now rewrite E. Qed.

Lemma operator_code_inj (a b : Operator) :
  operator_code a = operator_code b -> a = b.
Proof. destruct a, b; intros E; try reflexivity; discriminate E. Qed.

Lemma operator_eqb_eq (a b : Operator) : operator_eqb a b = true <-> a = b.
Proof. destruct a, b; simpl; split; intros H; congruence. Qed.

Lemma operator_code_not_space (o : Operator) :
  is_space (operator_code o) = false.
Proof. now destruct o. Qed.

Lemma operator_code_char (o : Operator) :
  operator_char (operator_code o) = true.
Proof. now destruct o. Qed.

Lemma render_head (spacing : Spacing) (items : list Item) :
  match items with Plain c :: _ => is_space c = false | _ => True end ->
  head_not_space (render spacing items).
Proof.
  destruct items as [|[c|o d] rest]; cbn [render head_not_space]; auto.
  intros _. destruct d; cbn [token_text app]; apply operator_code_not_space.
Qed.

Section OperatorStep.

Variable re : RegExp.
Variable f : MatchResult -> jsstring.
Variable o : Operator.
Variable spacing : Spacing.

Hypothesis spaced_self : spacing o o = true.

(** What the pattern of the step finds. *)
Hypothesis no_match_nil : forall j, match_here re j [] = None.
Hypothesis no_match_other :
  forall j c t,
    is_space c = false -> c <> operator_code o ->
    match_here re j (c :: t) = None.
Hypothesis no_match_space :
  forall j t,
    match t with
    | c :: _ => is_space c = false /\ c <> operator_code o
    | [] => True
    end ->
    match_here re j (32%N :: t) = None.
Hypothesis match_token :
  forall j lead doubled behind tail,
    lead = [] \/ lead = [32%N] -> behind = [] \/ behind = [32%N] ->
    (doubled = true -> o <> Caret) ->
    head_not_space tail ->
    (doubled = false ->
     match behind ++ tail with
     | c :: _ => c <> operator_code o
     | [] => True
     end) ->
    match_here re j (lead ++ token_text o doubled ++ behind ++ tail)
    = Some (mkMatch j (lead ++ token_text o doubled ++ behind) []).
Hypothesis replacement :
  forall j lead doubled behind,
    lead = [] \/ lead = [32%N] -> behind = [] \/ behind = [32%N] ->
    (doubled = true -> o <> Caret) ->
    f (mkMatch j (lead ++ token_text o doubled ++ behind) [])
    = token_text o doubled ++ [32%N].

(** The step takes the space in front of each of its tokens and leaves one
    space behind it, and changes nothing else. *)
Lemma step_render :
  forall (items : list Item) (lead : jsstring) (i : nat),
    items_apart items = true ->
    lead = []
    \/ (lead = [32%N]
        /\ match items with
           | Plain c :: _ => is_space c = false
           | _ => True
           end) ->
    replace_from re f i (lead ++ render spacing items) 0
    = match items with
      | Token o' _ :: _ => if operator_eqb o' o then [] else lead
      | _ => lead
      end ++ render (after_step o spacing) items.
Proof.
  induction items as [|[c|o' d] rest IH]; intros lead i Hw Hlead.
  - (* the end of the text *)
    cbn [render]. rewrite !app_nil_r.
    destruct Hlead as [-> | [-> _]].
    + cbn [replace_from]. now rewrite no_match_nil.
    + rewrite replace_no_match by (now apply no_match_space).
      cbn [replace_from]. now rewrite no_match_nil.
  - (* a plain character *)
    cbn [items_apart] in Hw. apply andb_true_iff in Hw.
    destruct Hw as [Hw Hrest]. apply andb_true_iff in Hw.
    destruct Hw as [Hop Hsp]. apply negb_true_iff in Hop.
    assert (Hc : c <> operator_code o).
    { intros ->. now rewrite operator_code_char in Hop. }
    assert (P : forall i',
               replace_from re f i' (c :: render spacing rest) 0
               = c :: render (after_step o spacing) rest).
    { intros i'. destruct (is_space c) eqn:Sc.
      - apply andb_true_iff in Hsp. destruct Hsp as [H32 Hnext].
        apply N.eqb_eq in H32. subst c.
        assert (Q := IH [32%N] i' Hrest). cbn [app] in Q. rewrite Q.
        + destruct rest as [|[c'|o' d'] rest']; [reflexivity.. | discriminate].
        + right. split; [reflexivity|].
          destruct rest as [|[c'|o' d'] rest']; auto.
          now apply negb_true_iff.
      - rewrite replace_no_match by (now apply no_match_other).
        f_equal. assert (Q := IH [] (S i') Hrest). cbn [app] in Q.
        rewrite Q by now left.
        now destruct rest as [|[c'|o' d'] rest']; [| |destruct (operator_eqb _ _)]. }
    cbn [render]. destruct Hlead as [-> | [-> Sc]]; [apply P|].
    cbn [app]. rewrite replace_no_match; [now rewrite P|].
    apply no_match_space. auto.
  - (* a token *)
    cbn [items_apart] in Hw. apply andb_true_iff in Hw.
    destruct Hw as [Hw Hrest]. apply andb_true_iff in Hw.
    destruct Hw as [Hd Hnext]. apply negb_true_iff in Hd.
    assert (Htail : head_not_space (render spacing rest)).
    { apply render_head. destruct rest as [|[c'|o'' d''] rest']; auto.
      now apply negb_true_iff. }
    assert (Hgap : forall s o1, gap s o1 rest = [] \/ gap s o1 rest = [32%N]).
    { intros s o1. unfold gap.
      destruct rest as [|[c'|o'' d''] rest']; auto.
      destruct (s o1 o''); auto. }
    cbn [render]. destruct (operator_eqb o' o) eqn:Eo.
    + (* a token of the step *)
      apply operator_eqb_eq in Eo. subst o'.
      assert (M : match_here re i
                    ((lead ++ token_text o d ++ gap spacing o rest)
                       ++ render spacing rest)
                  = Some (mkMatch i
                            (lead ++ token_text o d ++ gap spacing o rest)
                            [])).
      { rewrite <- !app_assoc. apply match_token.
        - destruct Hlead as [-> | [-> _]]; auto.
        - apply Hgap.
        - intros -> ->. discriminate Hd.
        - exact Htail.
        - intros _. unfold gap.
          destruct rest as [|[c'|o'' d''] rest'];
            [cbn [app]; destruct o; discriminate..|].
          destruct (spacing o o'') eqn:So;
            [cbn [app]; destruct o; discriminate|].
          cbn [app render].
          assert (o'' <> o) by (intros ->; congruence).
          destruct d''; cbn [token_text app]; intros E;
            now apply operator_code_inj in E. }
      replace (lead ++ token_text o d ++ gap spacing o rest
                 ++ render spacing rest)
        with ((lead ++ token_text o d ++ gap spacing o rest)
                ++ render spacing rest)
        by now rewrite <- !app_assoc.
      rewrite (@replace_match re f i
                 (lead ++ token_text o d ++ gap spacing o rest)
                 (render spacing rest) _ M eq_refl).
      2:{ destruct lead, d; discriminate. }
      rewrite replacement;
        [|destruct Hlead as [-> | [-> _]]; auto | apply Hgap
         |intros -> ->; discriminate Hd].
      assert (Q := IH [] (i + List.length
                               (lead ++ token_text o d
                                  ++ gap spacing o rest)) Hrest).
      cbn [app] in Q. rewrite Q by now left.
      cbn [app]. rewrite <- app_assoc. f_equal. f_equal.
      * unfold gap, after_step.
        destruct rest as [|[c'|o'' d''] rest']; try reflexivity.
        assert (R : operator_eqb o o = true) by now apply operator_eqb_eq.
        now rewrite R.
      * now destruct rest as [|[c'|o'' d''] rest'];
          [| |destruct (operator_eqb _ _)].
    + (* a token of another operator *)
      assert (Ho : operator_code o' <> operator_code o).
      { intros E. apply operator_code_inj in E. subst o'.
        assert (R : operator_eqb o o = true) by now apply operator_eqb_eq.
        congruence. }
      assert (T : forall i',
                 replace_from re f i'
                   (token_text o' d ++ gap spacing o' rest
                      ++ render spacing rest) 0
                 = token_text o' d ++ gap (after_step o spacing) o' rest
                     ++ render (after_step o spacing) rest).
      { intros i'.
        assert (G : forall i'',
                   replace_from re f i''
                     (gap spacing o' rest ++ render spacing rest) 0
                   = gap (after_step o spacing) o' rest
                       ++ render (after_step o spacing) rest).
        { intros i''. rewrite (IH _ i'' Hrest).
          - f_equal. unfold gap, after_step. rewrite Eo.
            destruct rest as [|[c'|o'' d''] rest']; try reflexivity.
            now destruct (operator_eqb o'' o).
          - destruct (Hgap spacing o') as [-> | ->]; [now left | right].
            split; [reflexivity|].
            destruct rest as [|[c'|o'' d''] rest']; auto;
              now apply negb_true_iff. }
        destruct d; cbn [token_text app];
          repeat (rewrite replace_no_match
                    by (apply no_match_other;
                        [apply operator_code_not_space | exact Ho]);
                  f_equal);
          apply G. }
      destruct Hlead as [-> | [-> _]]; [apply T|].
      cbn [app]. rewrite replace_no_match; [now rewrite T|].
      apply no_match_space. destruct d; cbn [token_text app];
        (split; [apply operator_code_not_space | exact Ho]).
Qed.

End OperatorStep.

(** ** The three operator steps *)

Lemma respace_text (text : jsstring) (j : nat) :
  respace (mkMatch j text [])
  = filter (fun c => negb (is_space c)) text ++ [32%N].
Proof.
  unfold respace, js_replace_all. cbn [m_text]. now rewrite remove_spaces.
Qed.

Lemma angle_step (op : ascii) (o : Operator) (spacing : Spacing)
      (items : list Item) :
  chr op = operator_code o -> o <> Caret -> spacing o o = true ->
  items_apart items = true ->
  js_replace_all (angleSpacingPattern op) respace (render spacing items)
  = render (after_step o spacing) items.
Proof.
  intros Hchr Ho Hself Hitems.
  assert (Hsp : is_space (chr op) = false)
    by (rewrite Hchr; apply operator_code_not_space).
  unfold js_replace_all.
  assert (S := @step_render (angleSpacingPattern op) respace o spacing Hself).
  assert (Q : replace_from (angleSpacingPattern op) respace 0
                ([] ++ render spacing items) 0
              = match items with
                | Token o' _ :: _ => if operator_eqb o' o then [] else []
                | _ => []
                end ++ render (after_step o spacing) items).
  { apply S; [| | | | |exact Hitems | now left].
    - intros j. now rewrite (@match_here_angle op j [] Hsp).
    - intros j c t Hc Hne. rewrite (@match_here_angle op j (c :: t) Hsp).
      cbn [span]. rewrite Hc. cbn [skipn]. rewrite Hchr.
      destruct (N.eqb_spec (operator_code o) c) as [E|]; [|reflexivity].
      now elim Hne.
    - intros j t Ht. rewrite (@match_here_angle op j (32%N :: t) Hsp).
      destruct t as [|c t'].
      + reflexivity.
      + destruct Ht as [Hc Hne]. cbn [span].
        change (is_space 32%N) with true. cbn iota. rewrite Hc.
        cbn [skipn]. rewrite Hchr.
        destruct (N.eqb_spec (operator_code o) c) as [E|]; [|reflexivity].
        now elim Hne.
    - intros j lead doubled behind tail Hlead Hbehind _ Htail Hnext.
      rewrite (@match_here_angle op j _ Hsp). rewrite Hchr.
      destruct o; [| |now elim Ho];
        destruct Hlead as [-> | ->], Hbehind as [-> | ->], doubled;
        cbn [token_text operator_code app] in *;
        destruct tail as [|c tail'];
        cbn [head_not_space] in Htail;
        simpl; rewrite ?Htail; simpl; try reflexivity.
      all: specialize (Hnext eq_refl);
        match goal with
        | |- context [match ?x with
                      | 0%N => false
                      | N.pos q => Pos.eqb ?k q
                      end] =>
            assert (E : N.eqb (N.pos k) x = false)
              by (apply N.eqb_neq; intros X; apply Hnext; now symmetry);
            unfold N.eqb in E; rewrite E
        end; reflexivity.
    - intros j lead doubled behind Hlead Hbehind _.
      rewrite respace_text.
      destruct o; [| |now elim Ho];
        destruct Hlead as [-> | ->], Hbehind as [-> | ->], doubled;
        reflexivity. }
  cbn [app] in Q. rewrite Q.
  now destruct items as [|[c|o' d] rest]; [| |destruct (operator_eqb _ _)].
Qed.

Lemma caret_step (spacing : Spacing) (items : list Item) :
  spacing Caret Caret = true -> items_apart items = true ->
  js_replace_all caretSpacingPattern (fun _ => lit "^ ")
    (render spacing items)
  = render (after_step Caret spacing) items.
Proof.
  intros Hself Hitems. unfold js_replace_all.
  assert (S := @step_render caretSpacingPattern (fun _ => lit "^ ") Caret
                 spacing Hself).
  assert (Q : replace_from caretSpacingPattern (fun _ => lit "^ ") 0
                ([] ++ render spacing items) 0
              = match items with
                | Token o' _ :: _ => if operator_eqb o' Caret then [] else []
                | _ => []
                end ++ render (after_step Caret spacing) items).
  { apply S; [| | | | |exact Hitems | now left].
    - intros j. now rewrite match_here_caret.
    - intros j c t Hc Hne. rewrite match_here_caret.
      cbn [span]. rewrite Hc. cbn [skipn].
      destruct (N.eqb_spec 94 c) as [E|]; [|reflexivity].
      now elim Hne.
    - intros j t Ht. rewrite match_here_caret.
      destruct t as [|c t'].
      + reflexivity.
      + destruct Ht as [Hc Hne]. cbn [span].
        change (is_space 32%N) with true. cbn iota. rewrite Hc.
        cbn [skipn].
        destruct (N.eqb_spec 94 c) as [E|]; [|reflexivity].
        now elim Hne.
    - intros j lead doubled behind tail Hlead Hbehind Hd Htail _.
      rewrite match_here_caret.
      destruct doubled; [now elim (Hd eq_refl)|].
      destruct Hlead as [-> | ->], Hbehind as [-> | ->];
        cbn [token_text operator_code app] in *;
        destruct tail as [|c tail'];
        cbn [head_not_space] in Htail;
        simpl; rewrite ?Htail; simpl; reflexivity.
    - intros j lead doubled behind Hlead Hbehind Hd.
      destruct doubled; [now elim (Hd eq_refl) | reflexivity]. }
  cbn [app] in Q. rewrite Q.
  now destruct items as [|[c|o' d] rest]; [| |destruct (operator_eqb _ _)].
Qed.

Lemma render_ext (spacing spacing' : Spacing) (items : list Item) :
  (forall a b, spacing a b = spacing' a b) ->
  render spacing items = render spacing' items.
Proof.
  intros H. induction items as [|[c|o d] rest IH]; cbn [render];
    [reflexivity | now rewrite IH|].
  rewrite IH. do 2 f_equal. unfold gap.
  destruct rest as [|[c'|o' d'] rest']; try reflexivity. now rewrite H.
Qed.

(** The three operator steps, one after the other, bring back the spacing
    they found. *)
Lemma operator_steps_settled (y : jsstring) :
  operators_settled y = true ->
  js_replace_all caretSpacingPattern (fun _ => lit "^ ")
    (js_replace_all (angleSpacingPattern ">") respace
       (js_replace_all (angleSpacingPattern "<") respace y))
  = y.
Proof.
  unfold operators_settled. rewrite andb_true_iff, jsstring_eqb_eq.
  intros [Hitems Hy]. rewrite <- Hy at 1.
  rewrite (@angle_step "<" LessThan canonical_spacing (itemize y)
             eq_refl ltac:(discriminate) eq_refl Hitems).
  rewrite (@angle_step ">" GreaterThan _ (itemize y)
             eq_refl ltac:(discriminate) eq_refl Hitems).
  rewrite (@caret_step _ (itemize y) eq_refl Hitems).
  rewrite <- Hy at 2. apply render_ext.
  intros a b. now destruct a, b.
Qed.

Lemma lang_plus_not (p : jschar) (w : jsstring) :
  lang false (plus (ASet true [CChar p])) w
  <-> w <> [] /\ Forall (fun c => c <> p) w.
Proof.
  unfold plus. cbn [lang within]. rewrite length_pos_not_nil.
  assert (A : forall c, atom_match false (ASet true [CChar p]) c = true
                        <-> c <> p).
  { intros c. cbn [atom_match existsb item_match char_match].
    rewrite orb_false_r, xorb_true_l, negb_true_iff, N.eqb_neq.
    split; intros H E; apply H; now rewrite E. }
  rewrite !Forall_forall. split.
  - intros (H & Hne & _). split; [exact Hne|]. intros c Hc.
    now apply A, H.
  - intros (Hne & H). split; [|tauto]. intros c Hc. now apply A, H.
Qed.

Lemma lang_one_char (p : jschar) (w : jsstring) :
  lang false (One (AChar p)) w <-> w = [p].
Proof.
  cbn [lang atom_match char_match]. split.
  - intros (c & -> & Hc). apply N.eqb_eq in Hc. now subst.
  - intros ->. exists p. split; [reflexivity | apply N.eqb_refl].
Qed.

Lemma semanticTagPattern_matches (w : jsstring) :
  matches semanticTagPattern w <-> tagged_term w.
Proof.
  unfold matches, semanticTagPattern, tagged_term, not_pipe.
  cbn [re_body re_ignoreCase cat fold_right].
  split.
  - intros (w1 & r1 & -> & H1 & (w2 & r2 & -> & H2 & (w3 & r3 & -> & H3
            & (w4 & r4 & -> & H4 & (w5 & r5 & -> & H5 & (w6 & r6 & -> & H6
            & (w7 & r7 & -> & H7 & (w8 & r8 & -> & H8 & E)))))))).
    cbn [lang] in H2, E. subst r8.
    apply lang_one_char in H1, H4, H6, H8. subst.
    apply lang_plus_not in H2, H5. apply lang_star_sp in H3, H7.
    exists w2, w3, w5, w7. rewrite app_nil_r. tauto.
  - intros (term & gap & tag & gap' & -> & T1 & T2 & G & A1 & A2 & G').
    exists (lit "|"), (term ++ gap ++ lit "(" ++ tag ++ lit ")" ++ gap'
                         ++ lit "|").
    split; [reflexivity|]. split; [now apply lang_one_char|].
    exists term, (gap ++ lit "(" ++ tag ++ lit ")" ++ gap' ++ lit "|").
    split; [reflexivity|].
    split; [cbn [lang]; apply lang_plus_not; tauto|].
    exists gap, (lit "(" ++ tag ++ lit ")" ++ gap' ++ lit "|").
    split; [reflexivity|]. split; [now apply lang_star_sp|].
    exists (lit "("), (tag ++ lit ")" ++ gap' ++ lit "|").
    split; [reflexivity|]. split; [now apply lang_one_char|].
    exists tag, (lit ")" ++ gap' ++ lit "|").
    split; [reflexivity|]. split; [apply lang_plus_not; tauto|].
    exists (lit ")"), (gap' ++ lit "|").
    split; [reflexivity|]. split; [now apply lang_one_char|].
    exists gap', (lit "|").
    split; [reflexivity|]. split; [now apply lang_star_sp|].
    exists (lit "|"), []. split; [reflexivity|].
    split; [now apply lang_one_char | reflexivity].
Qed.

(** The last condition of a settled form: the test of the tag pattern
    says whether a term of the text carries a semantic tag. *)
Lemma semanticTag_test (s : jsstring) :
  js_test semanticTagPattern s = true <-> contains tagged_term s.
Proof.
  rewrite js_test_iff by reflexivity.
  apply contains_iff, semanticTagPattern_matches.
Qed.

(** A text without a tagged term has no match of the tag pattern. *)
Lemma tag_match_none (s pre t : jsstring) (j : nat) (m : MatchResult) :
  js_test semanticTagPattern s = false ->
  s = pre ++ t -> match_here semanticTagPattern j t = Some m -> False.
Proof.
  intros Hno -> E.
  destruct (match_here_sound _ _ _ E) as (w & rest & -> & Hm & _).
  assert (T : js_test semanticTagPattern (pre ++ w ++ rest) = true).
  { apply js_test_iff; [reflexivity|]. exists pre, w, rest. auto. }
  rewrite T in Hno. discriminate.
Qed.

(** On a settled form that is single-spaced, the keyword, operator and tag
    steps change nothing. *)
Lemma rewriteSteps_settled (y : jsstring) :
  single_spaced y -> settled_form y = true -> rewriteSteps y = y.
Proof.
  intros Hs H. unfold settled_form in H.
  rewrite !andb_true_iff, negb_true_iff in H.
  destruct H as ((((Hor & Hand) & Hminus) & Hop) & Htag).
  unfold rewriteSteps. cbn zeta.
  assert (Kw : forall kw written,
             written = 32%N :: List.map fold_case (lit kw) ++ [32%N] ->
             keyword_settled kw y = true ->
             js_replace_all (keywordPattern kw) (fun _ => written) y = y).
  { intros kw written Hw Hk. apply replace_fixed.
    intros pre t j m Hy E. subst y.
    apply (@keyword_match_fixed kw written j t m Hw);
      [eapply single_spaced_suffix; exact Hs
      |eapply keyword_settled_suffix; exact Hk | exact E]. }
  rewrite (Kw "or"%string (lit " OR ") eq_refl Hor).
  rewrite (Kw "and"%string (lit " AND ") eq_refl Hand).
  rewrite (Kw "minus"%string (lit " MINUS ") eq_refl Hminus).
  rewrite (@operator_steps_settled y Hop).
  apply replace_fixed. intros pre t j m Hy E.
  elim (@tag_match_none y pre t j m Htag Hy E).
Qed.

(** ** Idempotence of the canonicalizer, as far as it goes *)

(** C3, as amended: a canonical form has no leading, trailing or repeated
    white space, so trimming it or collapsing its white space again changes
    nothing; and canonicalize(canonicalize(x)) = canonicalize(x) for every
    x whose canonical form is settled: its logical keywords between white
    space are in capitals; its operators are spaced as the operator steps
    space them (one space behind each operator, single or doubled, none
    between [<] and a following [>] or [^] nor between [>] and a following
    [^], and no other white space in front of an operator); and none of
    its terms carries a semantic tag. *)
Theorem canonical_form_settled (x : jsstring) :
  let y := cleanAndStandardizeEcl x in
  trimString y = y
  /\ collapseWhitespace y = y
  /\ (settled_form y = true -> cleanAndStandardizeEcl y = y).
Proof.
  intros y. destruct (canonical_form_tidy x) as (Hs & Hspan & Hend).
  fold y in Hs, Hspan, Hend.
  assert (T : trimString y = y)
    by (rewrite trimString_direct, strip_start_fixed; assumption).
  assert (C : collapseWhitespace y = y)
    by (rewrite collapseWhitespace_direct; now apply squeeze_fixed).
  split; [exact T|]. split; [exact C|].
  intros Hsettled.
  change (cleanAndStandardizeEcl y)
    with (trimString (collapseWhitespace (rewriteSteps (trimString y)))).
  now rewrite T, (@rewriteSteps_settled y Hs Hsettled), C, T.
Qed.

Lemma canonical_form_settled_witness :
  let y := cleanAndStandardizeEcl
             (lit "<71388002 |Procedure (procedure)| or <<  404684003") in
  y = lit "< 71388002 |Procedure| OR<< 404684003"
  /\ cleanAndStandardizeEcl y = y.
Proof.
  intros y. split; [vm_compute; reflexivity|].
  apply (proj2 (proj2 (canonical_form_settled
           (lit "<71388002 |Procedure (procedure)| or <<  404684003")))).
  vm_compute. reflexivity.
Defined.

(** C3 as stated fails: a term with two parenthesised groups loses one at
    each pass, and a keyword that follows an operator is only recognized at
    the second pass, once the operator has been given its space. *)
Lemma canonicalizer_idempotent_counterexample :
  let x := lit "|a (b) (c)|" in
  cleanAndStandardizeEcl x = lit "|a (b)|" /\
  cleanAndStandardizeEcl (cleanAndStandardizeEcl x) = lit "|a|" /\
  cleanAndStandardizeEcl (cleanAndStandardizeEcl x)
  <> cleanAndStandardizeEcl x /\
  cleanAndStandardizeEcl (lit "a <or b") = lit "a< or b" /\
  cleanAndStandardizeEcl (lit "a< or b") = lit "a< OR b".
Proof. vm_compute. repeat split. discriminate. Qed.

(** The canonical forms that a second pass changes are not settled: the
    first keeps a tagged term, the second a keyword in small letters.  An
    operator without its space unsettles a form as well: the tag step of
    the first pass can take the space that the operator step had given. *)
Example unsettled_forms :
  settled_form (lit "|a (b)|") = false
  /\ settled_form (lit "a< or b") = false
  /\ cleanAndStandardizeEcl (lit "|a < (b)|") = lit "|a<|"
  /\ cleanAndStandardizeEcl (lit "|a<|") = lit "|a< |"
  /\ settled_form (lit "|a<|") = false.
Proof. vm_compute. repeat split. Qed.

(** Operators in sequence are settled in the spacing the steps give
    them: the operator steps of a second pass undo one another there. *)
Example settled_operator_sequences :
  cleanAndStandardizeEcl (lit "<< ^ 700043003 |refset|")
  = lit "<<^ 700043003 |refset|"
  /\ settled_form (lit "<<^ 700043003 |refset|") = true
  /\ cleanAndStandardizeEcl (lit "^><1") = lit "^ > < 1"
  /\ settled_form (lit "^ > < 1") = true
  /\ settled_form (lit "< 1 OR<< 2 |a b| AND^ 3 MINUS>> 4") = true.
Proof. vm_compute. repeat split. Qed.

(** Settled is sufficient, not necessary: an operator at the very end is
    given its space by the second pass and loses it to the last trim. *)
Example unsettled_yet_unchanged :
  let y := cleanAndStandardizeEcl (lit "a <") in
  y = lit "a<"
  /\ settled_form y = false
  /\ cleanAndStandardizeEcl y = y.
Proof. vm_compute. repeat split. Qed.

(** ** Tagged values: what a write leaves alone *)

Lemma tagName_updateExisting (tag : TaggedValue) (value : jsstring) :
  tagName (updateExisting tag value) = tagName tag.
Proof.
  unfold updateExisting. destruct (Nat.ltb 255 (List.length value));
    reflexivity.
Qed.

Lemma tagName_createNew (name value : jsstring) :
  tagName (createNew name value) = name.
Proof.
  unfold createNew. destruct (Nat.ltb 255 (List.length value)); reflexivity.
Qed.

Lemma findTag_updateFirst_other (tags : list TaggedValue)
      (name value other : jsstring) :
  other <> name ->
  findTag (updateFirst tags name value) other = findTag tags other.
Proof.
  intros Hne. induction tags as [|t tags IH]; [reflexivity|].
  cbn [updateFirst findTag].
  destruct (jsstring_eqb (tagName t) name) eqn:E.
  - cbn [findTag]. rewrite tagName_updateExisting.
    apply jsstring_eqb_eq in E. rewrite E.
    rewrite (jsstring_eqb_neq (fun H => Hne (eq_sym H))). reflexivity.
  - cbn [findTag]. destruct (jsstring_eqb (tagName t) other);
      [reflexivity | exact IH].
Qed.

Lemma findTag_app_other (tags : list TaggedValue) (t : TaggedValue)
      (other : jsstring) :
  tagName t <> other -> findTag (tags ++ [t]) other = findTag tags other.
Proof.
  intros Hne. induction tags as [|u tags IH]; cbn [app findTag].
  - now rewrite (jsstring_eqb_neq Hne).
  - destruct (jsstring_eqb (tagName u) other); [reflexivity | exact IH].
Qed.

Lemma findTag_writeTag_other (tags : list TaggedValue)
      (name value other : jsstring) :
  other <> name ->
  findTag (writeTag tags name value) other = findTag tags other.
Proof.
  intros Hne. unfold writeTag. destruct (findTag tags name).
  - now apply findTag_updateFirst_other.
  - apply findTag_app_other. rewrite tagName_createNew.
    intros H. now apply Hne.
Qed.

Lemma readTag_writeTag_other (tags : list TaggedValue)
      (name value other : jsstring) :
  other <> name ->
  readTag (writeTag tags name value) other = readTag tags other.
Proof.
  intros Hne. unfold readTag. now rewrite findTag_writeTag_other.
Qed.

Lemma length_updateFirst (tags : list TaggedValue) (name value : jsstring) :
  List.length (updateFirst tags name value) = List.length tags.
Proof.
  induction tags as [|t tags IH]; [reflexivity|].
  cbn [updateFirst]. destruct (jsstring_eqb (tagName t) name);
    cbn [List.length]; [reflexivity | now rewrite IH].
Qed.

Lemma length_writeTag (tags : list TaggedValue) (name value : jsstring) :
  List.length (writeTag tags name value)
  = match findTag tags name with
    | Some _ => List.length tags
    | None => S (List.length tags)
    end.
Proof.
  unfold writeTag. destruct (findTag tags name).
  - apply length_updateFirst.
  - rewrite length_app. cbn [List.length]. lia.
Qed.

(** X16: a write by addOrUpdateTaggedValue that returns touches one tag of
    one element: every other element keeps its collection, every other tag
    name of the element is found as before, and the collection grows by one
    entry exactly when the element had no tag of that name. *)
Theorem write_touches_one_tag
  (refuses : ElementRef -> jsstring -> bool) (element : ElementRef)
  (name value : jsstring) (w w' : World) :
  addOrUpdateTaggedValue refuses element name value w = (Ok tt, w') ->
  conversionCounter w' = conversionCounter w /\
  (forall other, other <> element ->
     taggedValues w' other = taggedValues w other) /\
  (forall otherName, otherName <> name ->
     findTag (taggedValues w' element) otherName
     = findTag (taggedValues w element) otherName) /\
  List.length (taggedValues w' element)
  = match findTag (taggedValues w element) name with
    | Some _ => List.length (taggedValues w element)
    | None => S (List.length (taggedValues w element))
    end.
Proof.
  intros H. apply addOrUpdate_returns in H as [_ ->].
  cbn [conversionCounter taggedValues].
  split; [reflexivity|]. split; [|split].
  - intros other Hne. apply Nat.eqb_neq in Hne. now rewrite Hne.
  - intros otherName Hne. rewrite Nat.eqb_refl.
    now apply findTag_writeTag_other.
  - rewrite Nat.eqb_refl. apply length_writeTag.
Qed.

Lemma write_touches_one_tag_witness :
  let w := worldWith [mkTag (lit "valueSets") (lit "dm+d: 123456") []] in
  let w' := snd (addOrUpdateTaggedValue neverRefuses 0 (lit "snomedECL")
                   (lit "< 123456 |dm+d concept|") w) in
  List.length (taggedValues w' 0) = 2.
Proof.
  intros w w'.
  exact (proj2 (proj2 (proj2
           (@write_touches_one_tag neverRefuses 0 (lit "snomedECL")
              (lit "< 123456 |dm+d concept|") w w' eq_refl)))).
Defined.

(** ** The driver: what one element and a batch change *)

(** Decide whether the next write is refused, and run it. *)
Ltac step_write R :=
  match goal with
  | |- context [addOrUpdateTaggedValue ?r ?el ?n ?v ?w] =>
      destruct (r el n) eqn:R;
      [rewrite (@addOrUpdate_refused r el n v w R)
      |rewrite (@addOrUpdate_accepted r el n v w R)]
  end.

(** Whether the tag of a refused write was there. *)
Ltac refused_tag :=
  repeat match goal with
  | |- context [match findTag ?t ?n with Some _ => _ | None => _ end] =>
      destruct (findTag t n)
  end.

Section DriverFacts.

Variable conversionConfig : Config.
Variable today : jsstring.
Variable refuses : ElementRef -> jsstring -> bool.

Let body := convertBody conversionConfig today refuses.
Let convertSingle := convertSingleDataElement conversionConfig today refuses.
Let convertAll := forEachDataElement conversionConfig today refuses.

(** The names of the three tagged values the script writes. *)
Let written (name : jsstring) : Prop :=
  name = lit "snomedECL" \/ name = lit "eclSource"
  \/ name = lit "eclConversionDate".

(** The try block only ever writes the element it is given, and there only
    the three output tags. *)
Lemma body_frame (element : ElementRef) (w : World) (e : ElementRef)
      (other : jsstring) :
  e <> element \/ ~ written other ->
  findTag (taggedValues (snd (body element w)) e) other
  = findTag (taggedValues w e) other.
Proof.
  intros H.
  assert (F : Nat.eqb e element = true ->
              other <> lit "snomedECL" /\ other <> lit "eclSource"
              /\ other <> lit "eclConversionDate").
  { intros E. apply Nat.eqb_eq in E. destruct H as [H | H];
      [contradiction|].
    unfold written in H. repeat split; intros ->; apply H; tauto. }
  unfold body, convertBody. run_script.
  destruct (truthy _ && negb _ && skipExistingEcl conversionConfig);
    run_script; [reflexivity|].
  destruct (negb _ || jsstring_eqb _ []); run_script; [reflexivity|].
  destruct (extractSnomedEclFromValueSet _) as [ecl|ex]; run_script;
    [|reflexivity].
  destruct (truthy ecl && negb _); run_script; [|reflexivity].
  step_write R1; run_script;
    [|step_write R2; run_script; [|step_write R3; run_script]];
    refused_tag; cbn [taggedValues]; try reflexivity;
    (destruct (Nat.eqb e element) eqn:E; [|reflexivity]);
    destruct (F eq_refl) as (N1 & N2 & N3);
    now rewrite ?findTag_writeTag_other.
Qed.

Lemma convertSingle_frame (element : ElementRef) (w : World)
      (e : ElementRef) (other : jsstring) :
  e <> element \/ ~ written other ->
  findTag (taggedValues (snd (convertSingle element w)) e) other
  = findTag (taggedValues w e) other.
Proof.
  intros H. pose proof (body_frame w H) as B.
  destruct (convertSingle_cases conversionConfig today refuses element w)
    as [(w' & Hb & Hc) | (ex & w' & Hb & Hc)];
    fold convertSingle in Hc; fold body in Hb;
    rewrite Hc; rewrite Hb in B; exact B.
Qed.

Lemma convertAll_frame (elements : list ElementRef) (w : World)
      (e : ElementRef) (other : jsstring) :
  ~ In e elements \/ ~ written other ->
  findTag (taggedValues (snd (convertAll elements w)) e) other
  = findTag (taggedValues w e) other.
Proof.
  revert w. induction elements as [|el elements IH]; intros w H;
    [reflexivity|].
  cbn [convertAll forEachDataElement]. unfold bind. fold convertSingle.
  pose proof (convertSingle_returns conversionConfig today refuses el w)
    as [Hr _]. fold convertSingle in Hr.
  assert (H1 : e <> el \/ ~ written other).
  { destruct H as [H | H]; [left | now right].
    intros ->. apply H. now left. }
  assert (H2 : ~ In e elements \/ ~ written other).
  { destruct H as [H | H]; [left | now right].
    intros Hin. apply H. now right. }
  pose proof (convertSingle_frame w H1) as S1.
  destruct (convertSingle el w) as [r w1]. cbn [fst snd] in Hr, S1. subst r.
  fold convertAll. rewrite (IH w1 H2). exact S1.
Qed.

Lemma convertSingle_accounted (element : ElementRef) (w : World) :
  accounted (conversionCounter w)
            (conversionCounter (snd (convertSingle element w))).
Proof.
  unfold accounted, convertSingle, convertSingleDataElement, convertBody.
  run_script.
  destruct (truthy _ && negb _ && skipExistingEcl conversionConfig);
    run_script; [cbn; lia|].
  destruct (negb _ || jsstring_eqb _ []); run_script; [cbn; lia|].
  destruct (extractSnomedEclFromValueSet _) as [ecl|ex]; run_script;
    [|cbn; lia].
  destruct (truthy ecl && negb _); run_script; [|cbn; lia].
  step_write R1; run_script;
    [|step_write R2; run_script; [|step_write R3; run_script]];
    refused_tag; cbn; lia.
Qed.

Lemma convertAll_accounted (elements : list ElementRef) (w : World) :
  accounted (conversionCounter w)
            (conversionCounter (snd (convertAll elements w))).
Proof.
  revert w. induction elements as [|el elements IH]; intros w.
  - unfold accounted. cbn. lia.
  - cbn [convertAll forEachDataElement]. unfold bind. fold convertSingle.
    pose proof (convertSingle_returns conversionConfig today refuses el w)
      as [Hr _]. fold convertSingle in Hr.
    pose proof (convertSingle_accounted el w) as A1.
    destruct (convertSingle el w) as [r w1]. cbn [fst snd] in Hr, A1.
    subst r. fold convertAll. pose proof (IH w1) as A2.
    unfold accounted in *. lia.
Qed.

(** The path to the writes: the guard lets the element through and the
    engine returns a result that is not blank. *)
Lemma body_reaches_writes (element : ElementRef) (w : World)
      (out : jsstring) :
  trimString (readTag (taggedValues w element) (lit "snomedECL")) = []
  \/ skipExistingEcl conversionConfig = false ->
  extractSnomedEclFromValueSet
    (readTag (taggedValues w element) (lit "valueSets")) = Ok out ->
  trimString out <> [] ->
  body element w
  = (addOrUpdateTaggedValue refuses element (lit "snomedECL") out ;;;
     addOrUpdateTaggedValue refuses element (lit "eclSource")
       (lit "Converted from valueSets") ;;;
     addOrUpdateTaggedValue refuses element (lit "eclConversionDate")
       today ;;;
     bump incConversionsPerformed)
      (mkWorld (incElementsProcessed (conversionCounter w))
         (taggedValues w)).
Proof.
  intros Hguard Hex Hout.
  unfold body, convertBody.
  unfold bind at 1, bump at 1. unfold bind at 1, getTaggedValue at 1.
  cbn [taggedValues].
  set (existingEcl := readTag (taggedValues w element) (lit "snomedECL"))
    in *.
  set (valueSetString := readTag (taggedValues w element) (lit "valueSets"))
    in *.
  assert (G : truthy existingEcl
              && negb (jsstring_eqb (trimString existingEcl) [])
              && skipExistingEcl conversionConfig = false).
  { destruct Hguard as [H | H]; rewrite H.
    - simpl. now rewrite andb_false_r.
    - now rewrite andb_false_r. }
  rewrite G. unfold bind at 1, getTaggedValue at 1. cbn [taggedValues].
  fold valueSetString.
  assert (B : negb (truthy valueSetString)
              || jsstring_eqb (trimString valueSetString) [] = false).
  { destruct (negb (truthy valueSetString)
              || jsstring_eqb (trimString valueSetString) []) eqn:B;
      [|reflexivity].
    unfold extractSnomedEclFromValueSet in Hex. rewrite B in Hex.
    injection Hex as <-. now elim Hout. }
  rewrite B, Hex. unfold bind at 1, lift at 1.
  rewrite (not_blank_truthy _ Hout), (jsstring_eqb_neq Hout).
  reflexivity.
Qed.

(** A conversion: no write is refused. *)
Lemma conversion_written (element : ElementRef) (w : World)
      (out : jsstring) :
  trimString (readTag (taggedValues w element) (lit "snomedECL")) = []
  \/ skipExistingEcl conversionConfig = false ->
  extractSnomedEclFromValueSet
    (readTag (taggedValues w element) (lit "valueSets")) = Ok out ->
  trimString out <> [] ->
  (forall name, refuses element name = false) ->
  exists w',
    convertSingle element w = (Ok tt, w')
    /\ conversionCounter w'
       = incConversionsPerformed (incElementsProcessed (conversionCounter w))
    /\ taggedValues w' element
       = writeTag
           (writeTag
              (writeTag (taggedValues w element) (lit "snomedECL") out)
              (lit "eclSource") (lit "Converted from valueSets"))
           (lit "eclConversionDate") today.
Proof.
  intros Hguard Hex Hout Hok.
  unfold convertSingle, convertSingleDataElement, try_catch.
  fold (body element). rewrite (body_reaches_writes _ _ Hguard Hex Hout).
  unfold bind.
  do 3 (rewrite addOrUpdate_accepted by apply Hok; cbv beta iota).
  run_script.
  eexists. split; [reflexivity|].
  cbn [conversionCounter taggedValues]. split; [reflexivity|].
  now rewrite Nat.eqb_refl.
Qed.

(** A conversion cut short: the expression is written, the repository
    refuses to store the first metadata field.  A tag of that name already
    on the element has been assigned by then. *)
Lemma conversion_half_written (element : ElementRef) (w : World)
      (out : jsstring) :
  trimString (readTag (taggedValues w element) (lit "snomedECL")) = []
  \/ skipExistingEcl conversionConfig = false ->
  extractSnomedEclFromValueSet
    (readTag (taggedValues w element) (lit "valueSets")) = Ok out ->
  trimString out <> [] ->
  refuses element (lit "snomedECL") = false ->
  refuses element (lit "eclSource") = true ->
  exists w',
    convertSingle element w = (Ok tt, w')
    /\ conversionCounter w'
       = incErrors (incElementsProcessed (conversionCounter w))
    /\ taggedValues w' element
       = let tags := writeTag (taggedValues w element) (lit "snomedECL") out in
         match findTag tags (lit "eclSource") with
         | Some _ =>
             writeTag tags (lit "eclSource") (lit "Converted from valueSets")
         | None => tags
         end.
Proof.
  intros Hguard Hex Hout Hok Hno.
  unfold convertSingle, convertSingleDataElement, try_catch.
  fold (body element). rewrite (body_reaches_writes _ _ Hguard Hex Hout).
  unfold bind.
  rewrite addOrUpdate_accepted by exact Hok. cbv beta iota.
  rewrite addOrUpdate_refused by exact Hno. cbv beta iota.
  run_script. eexists. split; [reflexivity|].
  cbn [conversionCounter taggedValues]. rewrite Nat.eqb_refl.
  destruct (findTag (writeTag (taggedValues w element) (lit "snomedECL") out)
              (lit "eclSource"));
    cbn [conversionCounter taggedValues]; rewrite ?Nat.eqb_refl;
    split; reflexivity.
Qed.

End DriverFacts.

(** X17: whatever a batch does, it never touches the descriptor it reads:
    on every element of the repository, every tagged value other than
    snomedECL, eclSource and eclConversionDate is found after the run as it
    was before, and an element that is not in the batch keeps all its
    tagged values. *)
Theorem batch_writes_only_its_outputs
  (conversionConfig : Config) (today : jsstring)
  (refuses : ElementRef -> jsstring -> bool)
  (elements : list ElementRef) (w : World) :
  let w' := snd (forEachDataElement conversionConfig today refuses
                   elements w) in
  (forall e name,
     name <> lit "snomedECL" /\ name <> lit "eclSource"
     /\ name <> lit "eclConversionDate" ->
     findTag (taggedValues w' e) name = findTag (taggedValues w e) name) /\
  (forall e name,
     (forall el, In el elements -> el <> e) ->
     findTag (taggedValues w' e) name = findTag (taggedValues w e) name).
Proof.
  intros w'. split.
  - intros e name (H1 & H2 & H3). apply convertAll_frame. right.
    intros [H | [H | H]]; contradiction.
  - intros e name H. apply convertAll_frame. left.
    intros Hin. now apply (H e Hin).
Qed.

(** X18: the counters account for every element: over any batch, no
    counter goes down, every element of the batch is counted as processed,
    and the elements counted as processed are the conversions plus the
    elements skipped for an existing expression plus the elements without a
    SNOMED expression plus the errors counted meanwhile. *)
Theorem counters_account_for_every_element
  (conversionConfig : Config) (today : jsstring)
  (refuses : ElementRef -> jsstring -> bool)
  (elements : list ElementRef) (w : World) :
  let c := conversionCounter w in
  let c' := conversionCounter
              (snd (forEachDataElement conversionConfig today refuses
                      elements w)) in
  elementsProcessed c' = elementsProcessed c + List.length elements
  /\ elementsProcessed c <= elementsProcessed c'
  /\ conversionsPerformed c <= conversionsPerformed c'
  /\ existingEclSkipped c <= existingEclSkipped c'
  /\ nonSnomedSkipped c <= nonSnomedSkipped c'
  /\ errors c <= errors c'
  /\ elementsProcessed c' + conversionsPerformed c + existingEclSkipped c
     + nonSnomedSkipped c + errors c
     = elementsProcessed c + conversionsPerformed c' + existingEclSkipped c'
       + nonSnomedSkipped c' + errors c'.
Proof.
  intros c c'.
  pose proof (convertAll_accounted conversionConfig today refuses elements w)
    as A.
  pose proof (convertAll_returns conversionConfig today refuses elements w)
    as [_ R].
  unfold accounted in A. fold c c' in A, R.
  split; [exact R|]. tauto.
Qed.

(** X19: a conversion is recorded in full: when the guard lets the element
    through, the engine returns an expression that is not blank and the
    repository refuses no write, the element then reads back the expression
    as snomedECL, the fixed text as eclSource and the date of the run as
    eclConversionDate; its descriptor is as before; and the element is
    counted as processed and as converted, nothing else. *)
Theorem conversion_is_recorded
  (conversionConfig : Config) (today : jsstring)
  (refuses : ElementRef -> jsstring -> bool)
  (element : ElementRef) (w : World) (out : jsstring) :
  trimString (readTag (taggedValues w element) (lit "snomedECL")) = []
  \/ skipExistingEcl conversionConfig = false ->
  extractSnomedEclFromValueSet
    (readTag (taggedValues w element) (lit "valueSets")) = Ok out ->
  trimString out <> [] ->
  today <> lit "<memo>" ->
  (forall name, refuses element name = false) ->
  exists w',
    convertSingleDataElement conversionConfig today refuses element w
    = (Ok tt, w')
    /\ readTag (taggedValues w' element) (lit "snomedECL") = out
    /\ readTag (taggedValues w' element) (lit "eclSource")
       = lit "Converted from valueSets"
    /\ readTag (taggedValues w' element) (lit "eclConversionDate") = today
    /\ readTag (taggedValues w' element) (lit "valueSets")
       = readTag (taggedValues w element) (lit "valueSets")
    /\ conversionCounter w'
       = incConversionsPerformed (incElementsProcessed (conversionCounter w)).
Proof.
  intros Hguard Hex Hout Htoday Hok.
  assert (Hmemo : out <> lit "<memo>")
    by (intros ->; now apply engine_not_memo in Hex).
  destruct (conversion_written conversionConfig today refuses element w
              Hguard Hex Hout Hok) as (w' & Hrun & Hc & Htags).
  exists w'. split; [exact Hrun|]. rewrite Htags.
  repeat split.
  - rewrite !readTag_writeTag_other by discriminate.
    now apply readTag_writeTag.
  - rewrite readTag_writeTag_other by discriminate.
    apply readTag_writeTag. discriminate.
  - now apply readTag_writeTag.
  - now rewrite !readTag_writeTag_other by discriminate.
  - exact Hc.
Qed.

Lemma conversion_is_recorded_witness :
  exists w',
    convertSingleDataElement defaultConfig (lit "2024-12-19") neverRefuses 0
      (worldWith [mkTag (lit "valueSets") (lit "dm+d: 123456") []])
    = (Ok tt, w')
    /\ readTag (taggedValues w' 0) (lit "snomedECL")
       = lit "< 123456 |dm+d concept|".
Proof.
  destruct (@conversion_is_recorded defaultConfig (lit "2024-12-19")
              neverRefuses 0
              (worldWith [mkTag (lit "valueSets") (lit "dm+d: 123456") []])
              (lit "< 123456 |dm+d concept|"))
    as (w' & Hrun & Hecl & _).
  - left. reflexivity.
  - vm_compute. reflexivity.
  - vm_compute. discriminate.
  - discriminate.
  - reflexivity.
  - exists w'. split; [exact Hrun | exact Hecl].
Defined.

(** X20: a converted element is left alone by the next run: after a
    conversion recorded in full, processing the same element again with
    skipExistingEcl set is a skip that changes no tagged value. *)
Theorem converted_element_is_skipped_next
  (conversionConfig : Config) (today : jsstring)
  (refuses : ElementRef -> jsstring -> bool)
  (element : ElementRef) (w : World) (out : jsstring) :
  skipExistingEcl conversionConfig = true ->
  trimString (readTag (taggedValues w element) (lit "snomedECL")) = [] ->
  extractSnomedEclFromValueSet
    (readTag (taggedValues w element) (lit "valueSets")) = Ok out ->
  trimString out <> [] ->
  (forall name, refuses element name = false) ->
  let convertSingle :=
    convertSingleDataElement conversionConfig today refuses in
  let w1 := snd (convertSingle element w) in
  convertSingle element w1
  = (Ok tt,
     mkWorld (incExistingEclSkipped
                (incElementsProcessed (conversionCounter w1)))
       (taggedValues w1)).
Proof.
  intros Hskip Hblank Hex Hout Hok convertSingle w1.
  assert (Hmemo : out <> lit "<memo>")
    by (intros ->; now apply engine_not_memo in Hex).
  destruct (conversion_written conversionConfig today refuses element w
              (or_introl Hblank) Hex Hout Hok) as (w' & Hrun & _ & Htags).
  unfold w1, convertSingle. rewrite Hrun. cbn [snd].
  apply guard_skips; [exact Hskip|].
  rewrite Htags, !readTag_writeTag_other by discriminate.
  now rewrite readTag_writeTag.
Qed.

Lemma converted_element_is_skipped_next_witness :
  let convertSingle :=
    convertSingleDataElement defaultConfig (lit "2024-12-19") neverRefuses in
  let w := worldWith [mkTag (lit "valueSets") (lit "dm+d: 123456") []] in
  let w1 := snd (convertSingle 0 w) in
  convertSingle 0 w1
  = (Ok tt,
     mkWorld (incExistingEclSkipped
                (incElementsProcessed (conversionCounter w1)))
       (taggedValues w1)).
Proof.
  intros convertSingle w w1.
  apply (@converted_element_is_skipped_next defaultConfig (lit "2024-12-19")
           neverRefuses 0 w (lit "< 123456 |dm+d concept|")).
  - reflexivity.
  - reflexivity.
  - vm_compute. reflexivity.
  - vm_compute. discriminate.
  - reflexivity.
Defined.

(** X21: a conversion can be left half-written: when the repository takes
    the write of snomedECL and refuses to store eclSource, the element is
    counted as an error and not as a conversion, and the expression stays
    written.  An eclSource tag that the element already had has been
    assigned by then and reads as the new source text; an element without
    one gets none.  eclConversionDate is not written. *)
Theorem refused_metadata_leaves_expression
  (conversionConfig : Config) (today : jsstring)
  (refuses : ElementRef -> jsstring -> bool)
  (element : ElementRef) (w : World) (out : jsstring) :
  trimString (readTag (taggedValues w element) (lit "snomedECL")) = []
  \/ skipExistingEcl conversionConfig = false ->
  extractSnomedEclFromValueSet
    (readTag (taggedValues w element) (lit "valueSets")) = Ok out ->
  trimString out <> [] ->
  refuses element (lit "snomedECL") = false ->
  refuses element (lit "eclSource") = true ->
  exists w',
    convertSingleDataElement conversionConfig today refuses element w
    = (Ok tt, w')
    /\ conversionCounter w'
       = incErrors (incElementsProcessed (conversionCounter w))
    /\ readTag (taggedValues w' element) (lit "snomedECL") = out
    /\ match findTag (taggedValues w element) (lit "eclSource") with
       | Some _ =>
           readTag (taggedValues w' element) (lit "eclSource")
           = lit "Converted from valueSets"
       | None =>
           findTag (taggedValues w' element) (lit "eclSource") = None
       end
    /\ findTag (taggedValues w' element) (lit "eclConversionDate")
       = findTag (taggedValues w element) (lit "eclConversionDate").
Proof.
  intros Hguard Hex Hout Hok Hno.
  assert (Hmemo : out <> lit "<memo>")
    by (intros ->; now apply engine_not_memo in Hex).
  destruct (conversion_half_written conversionConfig today refuses element w
              Hguard Hex Hout Hok Hno) as (w' & Hrun & Hc & Htags).
  exists w'. split; [exact Hrun|]. split; [exact Hc|]. rewrite Htags.
  cbv zeta.
  rewrite (@findTag_writeTag_other (taggedValues w element)
             (lit "snomedECL") out (lit "eclSource")) by discriminate.
  destruct (findTag (taggedValues w element) (lit "eclSource"))
    as [old|] eqn:Hold.
  - split; [|split].
    + rewrite readTag_writeTag_other by discriminate.
      now apply readTag_writeTag.
    + apply readTag_writeTag. discriminate.
    + now rewrite !findTag_writeTag_other by discriminate.
  - split; [|split].
    + now apply readTag_writeTag.
    + rewrite findTag_writeTag_other by discriminate. exact Hold.
    + now rewrite findTag_writeTag_other by discriminate.
Qed.

Lemma refused_metadata_leaves_expression_witness :
  exists w',
    convertSingleDataElement defaultConfig (lit "2024-12-19")
      (fun _ name => jsstring_eqb name (lit "eclSource")) 0
      (worldWith [mkTag (lit "valueSets") (lit "dm+d: 123456") [];
                  mkTag (lit "eclSource") (lit "entered by hand") []])
    = (Ok tt, w')
    /\ errors (conversionCounter w') = 1
    /\ readTag (taggedValues w' 0) (lit "snomedECL")
       = lit "< 123456 |dm+d concept|"
    /\ readTag (taggedValues w' 0) (lit "eclSource")
       = lit "Converted from valueSets".
Proof.
  destruct (@refused_metadata_leaves_expression defaultConfig
              (lit "2024-12-19")
              (fun _ name => jsstring_eqb name (lit "eclSource")) 0
              (worldWith [mkTag (lit "valueSets") (lit "dm+d: 123456") [];
                          mkTag (lit "eclSource") (lit "entered by hand") []])
              (lit "< 123456 |dm+d concept|"))
    as (w' & Hrun & Hc & Hecl & Hsrc & _).
  - left. reflexivity.
  - vm_compute. reflexivity.
  - vm_compute. discriminate.
  - reflexivity.
  - reflexivity.
  - exists w'. split; [exact Hrun|]. split; [now rewrite Hc|].
    split; [exact Hecl | exact Hsrc].
Defined.

(** ** Running a batch again *)

Section Rerun.

Variable conversionConfig : Config.
Variable today : jsstring.
Variable refuses : ElementRef -> jsstring -> bool.

Hypothesis skips : skipExistingEcl conversionConfig = true.
Hypothesis accepts : forall element name, refuses element name = false.

Let convertSingle := convertSingleDataElement conversionConfig today refuses.
Let convertAll := forEachDataElement conversionConfig today refuses.

(** Nothing is left to do for the element: it has an expression, or its
    descriptor gives none. *)
Let settled (tags : ElementRef -> list TaggedValue) (element : ElementRef)
  : Prop :=
  trimString (readTag (tags element) (lit "snomedECL")) <> []
  \/ forall out,
       extractSnomedEclFromValueSet
         (readTag (tags element) (lit "valueSets")) = Ok out ->
       out = [].

(** An exception of the engine is counted, and nothing is written. *)
Lemma engine_error_counted (element : ElementRef) (w : World) (e : Exn) :
  trimString (readTag (taggedValues w element) (lit "snomedECL")) = [] ->
  extractSnomedEclFromValueSet
    (readTag (taggedValues w element) (lit "valueSets")) = Throw e ->
  convertSingle element w
  = (Ok tt,
     mkWorld (incErrors (incElementsProcessed (conversionCounter w)))
       (taggedValues w)).
Proof.
  intros Hblank Hex.
  unfold convertSingle, convertSingleDataElement, convertBody.
  run_script. rewrite Hblank.
  replace (truthy (readTag (taggedValues w element) (lit "snomedECL"))
           && negb (jsstring_eqb [] [])
           && skipExistingEcl conversionConfig)
    with false by (cbn [jsstring_eqb negb]; now rewrite andb_false_r).
  run_script.
  destruct (negb (truthy (readTag (taggedValues w element) (lit "valueSets")))
            || jsstring_eqb
                 (trimString
                    (readTag (taggedValues w element) (lit "valueSets"))) [])
    eqn:B.
  - unfold extractSnomedEclFromValueSet in Hex. rewrite B in Hex.
    discriminate Hex.
  - run_script. rewrite Hex. reflexivity.
Qed.

(** What processing an element does, path by path. *)
Lemma convertSingle_paths (element : ElementRef) (w : World) :
  let w' := snd (convertSingle element w) in
  (taggedValues w' = taggedValues w
   /\ conversionsPerformed (conversionCounter w')
      = conversionsPerformed (conversionCounter w)
   /\ settled (taggedValues w) element)
  \/ (exists out,
        trimString out <> []
        /\ ~ settled (taggedValues w) element
        /\ taggedValues w' element
           = writeTag
               (writeTag
                  (writeTag (taggedValues w element) (lit "snomedECL") out)
                  (lit "eclSource") (lit "Converted from valueSets"))
               (lit "eclConversionDate") today
        /\ readTag (taggedValues w' element) (lit "snomedECL") = out).
Proof.
  intros w'. unfold w'.
  destruct (trimString (readTag (taggedValues w element) (lit "snomedECL")))
    as [|c t] eqn:G.
  - destruct (extractSnomedEclFromValueSet
                (readTag (taggedValues w element) (lit "valueSets")))
      as [out|e] eqn:Hex.
    + destruct out as [|c out].
      * left. unfold convertSingle.
        rewrite no_pattern_counted; [|now left | now right].
        cbn [snd taggedValues conversionCounter]. repeat split.
        right. intros out H. congruence.
      * right. exists (c :: out).
        assert (Hout : trimString (c :: out) <> [])
          by (rewrite (extract_trimmed _ Hex); discriminate).
        destruct (conversion_written conversionConfig today refuses element w
                    (or_introl G) Hex Hout (accepts element))
          as (w1 & Hrun & _ & Htags).
        unfold convertSingle. rewrite Hrun. cbn [snd].
        split; [exact Hout|]. split; [|split; [exact Htags|]].
        -- intros [H | H]; [now apply H|].
           specialize (H _ Hex). discriminate H.
        -- rewrite Htags, !readTag_writeTag_other by discriminate.
           apply readTag_writeTag. intros E.
           rewrite E in Hex. now apply engine_not_memo in Hex.
    + left. rewrite (engine_error_counted _ _ G Hex).
      cbn [snd taggedValues conversionCounter]. repeat split.
      right. intros out H. congruence.
  - left. unfold convertSingle. rewrite guard_skips; [|exact skips|].
    + cbn [snd taggedValues conversionCounter]. repeat split.
      left. rewrite G. discriminate.
    + rewrite G. discriminate.
Qed.

(** Processing an element leaves it settled, and leaves settled whatever
    was. *)
Lemma convertSingle_settles (element : ElementRef) (w : World) :
  let w' := snd (convertSingle element w) in
  settled (taggedValues w') element
  /\ forall other, settled (taggedValues w) other ->
                   settled (taggedValues w') other.
Proof.
  intros w'. pose proof (convertSingle_paths element w) as P.
  cbv zeta in P. unfold w'.
  destruct P as [(Htags & _ & Hs) | (out & Hout & Hns & Htags & Hread)].
  - rewrite Htags. split; [exact Hs | easy].
  - split; [left; now rewrite Hread|].
    intros other Hs.
    destruct (Nat.eq_dec other element) as [-> | Hne]; [contradiction|].
    assert (F : forall name,
               readTag
                 (taggedValues (snd (convertSingle element w)) other) name
               = readTag (taggedValues w other) name).
    { intros name. unfold readTag, convertSingle.
      now rewrite convertSingle_frame by (now left). }
    unfold settled. now rewrite !F.
Qed.

Lemma convertAll_settles (elements : list ElementRef) :
  forall w : World,
    let w' := snd (convertAll elements w) in
    (forall element, In element elements ->
                     settled (taggedValues w') element)
    /\ forall other, settled (taggedValues w) other ->
                     settled (taggedValues w') other.
Proof.
  induction elements as [|el elements IH]; intros w w'.
  - split; [intros element [] | easy].
  - unfold w'. cbn [convertAll forEachDataElement]. unfold bind.
    fold convertSingle.
    pose proof (convertSingle_returns conversionConfig today refuses el w)
      as [Hr _]. fold convertSingle in Hr.
    pose proof (convertSingle_settles el w) as P. cbv zeta in P.
    destruct P as [S1 K1].
    destruct (convertSingle el w) as [r w1]. cbn [fst snd] in Hr, S1, K1.
    subst r. fold convertAll.
    pose proof (IH w1) as P. cbv zeta in P. destruct P as [S2 K2]. split.
    + intros element [<- | Hin]; [now apply K2 | now apply S2].
    + intros other Hs. now apply K2, K1.
Qed.

Lemma settled_batch_writes_nothing (elements : list ElementRef) :
  forall w : World,
    (forall element, In element elements ->
                     settled (taggedValues w) element) ->
    let w' := snd (convertAll elements w) in
    taggedValues w' = taggedValues w
    /\ conversionsPerformed (conversionCounter w')
       = conversionsPerformed (conversionCounter w).
Proof.
  induction elements as [|el elements IH]; intros w Hs w';
    [split; reflexivity|].
  unfold w'. cbn [convertAll forEachDataElement]. unfold bind.
  fold convertSingle.
  pose proof (convertSingle_returns conversionConfig today refuses el w)
    as [Hr _]. fold convertSingle in Hr.
  pose proof (convertSingle_paths el w) as P. cbv zeta in P.
  destruct P as [(Htags & Hc & _) | (out & _ & Hns & _)];
    [|elim Hns; apply Hs; now left].
  destruct (convertSingle el w) as [r w1]. cbn [fst snd] in Hr, Htags, Hc.
  subst r. fold convertAll.
  assert (Hs1 : forall element, In element elements ->
                               settled (taggedValues w1) element).
  { intros element Hin. rewrite Htags. apply Hs. now right. }
  pose proof (IH w1 Hs1) as P. cbv zeta in P. destruct P as [T2 C2].
  split; [now rewrite T2 | now rewrite C2].
Qed.

Lemma second_run (elements : list ElementRef) (w : World) :
  let w1 := snd (convertAll elements w) in
  let w2 := snd (convertAll elements w1) in
  taggedValues w2 = taggedValues w1
  /\ conversionsPerformed (conversionCounter w2)
     = conversionsPerformed (conversionCounter w1).
Proof.
  intros w1 w2. apply settled_batch_writes_nothing.
  apply (convertAll_settles elements w).
Qed.

End Rerun.

(** X22: a batch run a second time does nothing more: with skipExistingEcl
    set and a repository that refuses no write, processing the same list
    of elements again right after the first run returns normally, converts
    no element and leaves every tagged value of every element as the first
    run left it; every element is counted as processed again. *)
Theorem second_run_changes_nothing
  (conversionConfig : Config) (today : jsstring)
  (refuses : ElementRef -> jsstring -> bool)
  (elements : list ElementRef) (w : World) :
  skipExistingEcl conversionConfig = true ->
  (forall element name, refuses element name = false) ->
  let batch := forEachDataElement conversionConfig today refuses elements in
  let w1 := snd (batch w) in
  let w2 := snd (batch w1) in
  fst (batch w1) = Ok tt
  /\ taggedValues w2 = taggedValues w1
  /\ conversionsPerformed (conversionCounter w2)
     = conversionsPerformed (conversionCounter w1)
  /\ elementsProcessed (conversionCounter w2)
     = elementsProcessed (conversionCounter w1) + List.length elements.
Proof.
  intros Hskip Hok batch w1 w2.
  destruct (second_run conversionConfig today refuses Hskip Hok elements w)
    as [Ht Hc].
  destruct (convertAll_returns conversionConfig today refuses elements w1)
    as [Hr Hp].
  repeat split; assumption.
Qed.

Lemma second_run_changes_nothing_witness :
  let batch := forEachDataElement defaultConfig (lit "2024-12-19")
                 neverRefuses [0; 1; 2] in
  let w1 := snd (batch sampleBatchWorld) in
  let w2 := snd (batch w1) in
  conversionsPerformed (conversionCounter w2)
  = conversionsPerformed (conversionCounter w1).
Proof.
  intros batch w1 w2.
  refine (proj1 (proj2 (proj2
            (@second_run_changes_nothing defaultConfig (lit "2024-12-19")
               neverRefuses [0; 1; 2] sampleBatchWorld eq_refl _)))).
  reflexivity.
Defined.

(** ** getCurrentDate *)

Lemma digit_char (n : nat) :
  is_digit (48 + N.of_nat (n mod 10))%N = true.
Proof.
  pose proof (Nat.mod_upper_bound n 10 ltac:(lia)) as H.
  unfold is_digit. apply andb_true_iff. split; apply N.leb_le; lia.
Qed.

(** A number of [k + 1] digits is written with [k + 1] digits. *)
Lemma digits_from_length (k : nat) :
  forall (fuel n : nat) (acc : jsstring),
    k < fuel -> n < 10 ^ S k -> k = 0 \/ 10 ^ k <= n ->
    exists ds,
      digits_from fuel n acc = ds ++ acc
      /\ List.length ds = S k /\ all_digits ds.
Proof.
  induction k as [|k IH]; intros fuel n acc Hfuel Hhi Hlo;
    (destruct fuel as [|fuel]; [lia|]); cbn [digits_from].
  - assert (E : n / 10 = 0) by (apply Nat.div_small; simpl in Hhi; lia).
    rewrite E. cbn [Nat.eqb].
    exists [(48 + N.of_nat (n mod 10))%N]. repeat split.
    constructor; [apply digit_char | constructor].
  - destruct Hlo as [Hlo | Hlo]; [discriminate|].
    assert (P : 10 ^ S k = 10 * 10 ^ k) by reflexivity.
    assert (Q : 10 ^ S (S k) = 10 * 10 ^ S k) by reflexivity.
    assert (Hq : 10 ^ k <= n / 10 < 10 ^ S k).
    { split.
      - apply Nat.div_le_lower_bound; lia.
      - apply Nat.Div0.div_lt_upper_bound; lia. }
    assert (E : Nat.eqb (n / 10) 0 = false).
    { apply Nat.eqb_neq. pose proof (Nat.pow_nonzero 10 k ltac:(lia)). lia. }
    rewrite E.
    destruct (IH fuel (n / 10) ((48 + N.of_nat (n mod 10))%N :: acc))
      as (ds & Hds & Hlen & Hdig); [lia | lia | |].
    { destruct k; [now left | right; lia]. }
    exists (ds ++ [(48 + N.of_nat (n mod 10))%N]). repeat split.
    + now rewrite Hds, <- app_assoc.
    + rewrite length_app, Hlen. cbn [List.length]. lia.
    + apply Forall_app. split; [exact Hdig|].
      constructor; [apply digit_char | constructor].
Qed.

Lemma numberToString_digits (k n : nat) :
  n < 10 ^ S k -> k = 0 \/ 10 ^ k <= n ->
  List.length (numberToString n) = S k /\ all_digits (numberToString n).
Proof.
  intros Hhi Hlo. unfold numberToString.
  destruct (@digits_from_length k (S n) n [] ) as (ds & -> & Hlen & Hd);
    [|exact Hhi | exact Hlo | now rewrite app_nil_r].
  destruct Hlo as [-> | Hlo]; [lia|].
  pose proof (Nat.pow_gt_lin_r 10 k ltac:(lia)). lia.
Qed.

Lemma digit_value (n : nat) :
  N.to_nat (48 + N.of_nat (n mod 10) - 48)%N = n mod 10.
Proof. lia. Qed.

(** The digits written in front of [acc] denote [n]. *)
Lemma digits_from_value (fuel : nat) :
  forall (n : nat) (acc : jsstring),
    n < fuel ->
    fold_left (fun value c => 10 * value + N.to_nat (c - 48)%N)
      (digits_from fuel n acc) 0
    = fold_left (fun value c => 10 * value + N.to_nat (c - 48)%N) acc n.
Proof.
  induction fuel as [|fuel IH]; intros n acc Hn; [lia|].
  cbn [digits_from]. destruct (Nat.eqb (n / 10) 0) eqn:E.
  - apply Nat.eqb_eq in E. cbn [fold_left]. rewrite digit_value.
    f_equal. pose proof (Nat.div_mod_eq n 10). lia.
  - apply Nat.eqb_neq in E.
    assert (L : n / 10 < fuel).
    { assert (n / 10 < n); [|lia].
      apply Nat.div_lt; [|lia].
      destruct n; [now elim E | lia]. }
    rewrite (IH (n / 10) _ L). cbn [fold_left]. rewrite digit_value.
    f_equal. pose proof (Nat.div_mod_eq n 10). lia.
Qed.

Lemma numberToString_value (n : nat) :
  decimal_value (numberToString n) = n.
Proof.
  unfold decimal_value, numberToString.
  rewrite digits_from_value by lia. reflexivity.
Qed.

(** A number below 100 written with two digits, as the script pads it. *)
Lemma two_digits (n : nat) :
  n < 100 ->
  let text := if Nat.ltb n 10 then lit "0" ++ numberToString n
              else numberToString n in
  List.length text = 2 /\ all_digits text /\ decimal_value text = n.
Proof.
  intros H text. unfold text. destruct (Nat.ltb n 10) eqn:L.
  - apply Nat.ltb_lt in L.
    destruct (@numberToString_digits 0 n) as [Hlen Hd];
      [simpl; lia | now left|].
    split; [cbn [app lit List.length]; simpl; now rewrite Hlen|].
    split; [constructor; [reflexivity | exact Hd]|].
    apply (numberToString_value n).
  - apply Nat.ltb_ge in L.
    destruct (@numberToString_digits 1 n) as [Hlen Hd];
      [simpl; lia | right; simpl; lia|].
    split; [exact Hlen|]. split; [exact Hd | apply numberToString_value].
Qed.

(** X23: for a date in the years 1000 to 9999, getCurrentDate returns the
    ten characters YYYY-MM-DD: four digits that denote the year, a dash,
    two digits that denote the month counted from 1 (getMonth plus one), a
    dash, and two digits that denote the day of the month (getDate). *)
Theorem getCurrentDate_format (now : Date) :
  10 ^ 3 <= getFullYear now < 10 ^ 4 ->
  getMonth now < 12 -> getDate now <= 31 ->
  exists yyyy mm dd,
    getCurrentDate now = yyyy ++ lit "-" ++ mm ++ lit "-" ++ dd
    /\ all_digits yyyy /\ List.length yyyy = 4
    /\ decimal_value yyyy = getFullYear now
    /\ all_digits mm /\ List.length mm = 2
    /\ decimal_value mm = getMonth now + 1
    /\ all_digits dd /\ List.length dd = 2
    /\ decimal_value dd = getDate now.
Proof.
  intros Hy Hm Hd. unfold getCurrentDate. cbn zeta.
  destruct (@numberToString_digits 3 (getFullYear now)) as [Ly Dy];
    [apply Hy | right; apply Hy|].
  pose proof (numberToString_value (getFullYear now)) as Vy.
  destruct (@two_digits (getMonth now + 1)) as (Lm & Dm & Vm); [lia|].
  destruct (@two_digits (getDate now)) as (Ld & Dd & Vd); [lia|].
  eexists _, _, _. split; [reflexivity|]. tauto.
Qed.

Lemma getCurrentDate_format_witness :
  exists yyyy mm dd,
    getCurrentDate (mkDate 2024 11 19)
    = yyyy ++ lit "-" ++ mm ++ lit "-" ++ dd
    /\ all_digits yyyy /\ List.length yyyy = 4
    /\ decimal_value yyyy = 2024
    /\ all_digits mm /\ List.length mm = 2
    /\ decimal_value mm = 11 + 1
    /\ all_digits dd /\ List.length dd = 2
    /\ decimal_value dd = 19.
Proof.
  apply (@getCurrentDate_format (mkDate 2024 11 19)).
  - cbn [getFullYear].
    split; [apply Nat.leb_le | apply Nat.ltb_lt]; vm_compute; reflexivity.
  - cbn [getMonth]. lia.
  - cbn [getDate]. lia.
Defined.

Lemma getCurrentDate_not_memo (now : Date) :
  getCurrentDate now <> lit "<memo>".
Proof.
  intros E.
  assert (H : In (chr "-") (getCurrentDate now)).
  { unfold getCurrentDate. cbn zeta. apply in_or_app. right. now left. }
  rewrite E in H. vm_compute in H.
  repeat (destruct H as [H | H]; [discriminate H|]). contradiction.
Qed.

(** X24: the date of the run survives the tagged value: for every date,
    the text of getCurrentDate, written as eclConversionDate by
    addOrUpdateTaggedValue, is read back unchanged by getTaggedValue. *)
Theorem conversion_date_round_trip
  (refuses : ElementRef -> jsstring -> bool) (element : ElementRef)
  (now : Date) (w w' : World) :
  addOrUpdateTaggedValue refuses element (lit "eclConversionDate")
    (getCurrentDate now) w = (Ok tt, w') ->
  getTaggedValue element (lit "eclConversionDate") w'
  = (Ok (getCurrentDate now), w').
Proof.
  intros H. apply addOrUpdate_returns in H as [_ ->].
  unfold getTaggedValue.
  cbn [taggedValues]. rewrite Nat.eqb_refl.
  rewrite readTag_writeTag; [reflexivity | apply getCurrentDate_not_memo].
Qed.

Lemma conversion_date_round_trip_witness :
  let w := worldWith [] in
  let w' := snd (addOrUpdateTaggedValue neverRefuses 0
                   (lit "eclConversionDate")
                   (getCurrentDate (mkDate 2024 11 19)) w) in
  fst (getTaggedValue 0 (lit "eclConversionDate") w') = Ok (lit "2024-12-19").
Proof.
  intros w w'.
  rewrite (@conversion_date_round_trip neverRefuses 0 (mkDate 2024 11 19)
             w w' eq_refl).
  vm_compute. reflexivity.
Defined.

(** ** hasStereotype *)

Lemma split_plain (sep : jschar) (x : jsstring) :
  Forall (fun c => c <> sep) x -> split sep x = [x].
Proof.
  induction 1 as [|c x Hc _ IH]; [reflexivity|].
  cbn [split]. unfold jschar_eqb. apply N.eqb_neq in Hc.
  now rewrite Hc, IH.
Qed.

Lemma split_app (sep : jschar) (x t : jsstring) :
  Forall (fun c => c <> sep) x ->
  split sep (x ++ sep :: t) = x :: split sep t.
Proof.
  induction 1 as [|c x Hc _ IH]; cbn [app split]; unfold jschar_eqb.
  - now rewrite N.eqb_refl.
  - apply N.eqb_neq in Hc. now rewrite Hc, IH.
Qed.

(** [split] undoes [join] when no item holds the separator. *)
Lemma split_join (sep : jschar) (items : list jsstring) :
  items <> [] -> Forall (Forall (fun c => c <> sep)) items ->
  split sep (join [sep] items) = items.
Proof.
  intros Hne H. induction H as [|x items Hx Hitems IH]; [now elim Hne|].
  destruct items as [|y items].
  - cbn [join]. now apply split_plain.
  - change (join [sep] (x :: y :: items))
      with (x ++ sep :: join [sep] (y :: items)).
    rewrite split_app by exact Hx. f_equal. apply IH. discriminate.
Qed.

(** X25: hasStereotype finds a name in the comma-separated stereotype list
    of an element exactly when one of the listed items, trimmed, is the
    name: the white space around an item does not count, and a name that is
    only part of an item does not match. *)
Theorem hasStereotype_listed
  (repo : Repository) (element : ElementRef) (items : list jsstring)
  (stereotypeName : jsstring) :
  StereotypeEx repo element = join (lit ",") items ->
  Forall (Forall (fun c => c <> chr ",")) items ->
  stereotypeName <> [] ->
  hasStereotype repo element stereotypeName = true
  <-> exists item, In item items /\ trimString item = stereotypeName.
Proof.
  intros Hst Hitems Hname. unfold hasStereotype. rewrite Hst.
  destruct (join (lit ",") items) as [|c s] eqn:J.
  - cbn [truthy negb]. split; [discriminate|].
    intros (item & Hin & Htrim). exfalso.
    destruct items as [|x [|y items]].
    + contradiction.
    + cbn [join] in J. subst x. destruct Hin as [<- | []].
      now apply Hname.
    + cbn [join] in J. apply app_eq_nil in J. destruct J as [_ J].
      discriminate J.
  - cbn [truthy negb]. rewrite <- J.
    change (lit ",") with [chr ","].
    rewrite split_join; [| |exact Hitems].
    + rewrite existsb_exists. split; intros (item & Hin & H);
        exists item; (split; [exact Hin|]); now apply jsstring_eqb_eq.
    + intros ->. discriminate J.
Qed.

Lemma hasStereotype_listed_witness :
  hasStereotype
    (mkRepository (fun _ => lit "PRSB Standard, PRSB DataElement")
       (fun _ => []) (fun _ => 0) (fun _ => 0) (fun _ => []))
    0 (lit "PRSB DataElement")
  = true.
Proof.
  apply (@hasStereotype_listed
           (mkRepository (fun _ => lit "PRSB Standard, PRSB DataElement")
              (fun _ => []) (fun _ => 0) (fun _ => 0) (fun _ => []))
           0 [lit "PRSB Standard"; lit " PRSB DataElement"]
           (lit "PRSB DataElement")).
  - reflexivity.
  - vm_compute.
    repeat (constructor;
            [repeat (constructor; [discriminate|]); constructor|]).
    constructor.
  - discriminate.
  - exists (lit " PRSB DataElement"). split; [right; now left | reflexivity].
Defined.

(** ** The walk over the element tree *)

Section Walk.

Variable repo : Repository.

(** What a call that returns has done to the collection. *)
Let collects (f : ElementRef -> list ElementRef -> option (list ElementRef))
  : Prop :=
  forall element collection out,
    f element collection = Some out ->
    exists added,
      out = collection ++ added
      /\ forall x, In x added
                   <-> reachable repo element x /\ isDataElement repo x.

Lemma collectEach_collects
      (f : ElementRef -> list ElementRef -> option (list ElementRef)) :
  collects f ->
  forall elements collection out,
    collectEach f elements collection = Some out ->
    exists added,
      out = collection ++ added
      /\ forall x, In x added
                   <-> exists next, In next elements
                                    /\ reachable repo next x
                                    /\ isDataElement repo x.
Proof.
  intros Hf. induction elements as [|el elements IH];
    intros collection out H; cbn [collectEach] in H.
  - injection H as <-. exists []. split; [now rewrite app_nil_r|].
    intros x. split; [intros [] | intros (next & [] & _)].
  - destruct (f el collection) as [c1|] eqn:E; [|discriminate].
    destruct (Hf _ _ _ E) as (a1 & -> & H1).
    destruct (IH _ _ H) as (a2 & -> & H2).
    exists (a1 ++ a2). split; [now rewrite app_assoc|].
    intros x. rewrite in_app_iff, H1, H2. split.
    + intros [[Hr Hd] | (next & Hin & Hr & Hd)].
      * exists el. split; [now left | now split].
      * exists next. split; [now right | now split].
    + intros (next & [<- | Hin] & Hr & Hd); [now left|].
      right. exists next. now repeat split.
Qed.

Lemma collect_collects (fuel : nat) :
  collects (collectDataElementsRecursively fuel repo).
Proof.
  induction fuel as [|fuel IH]; intros element collection out H;
    cbn [collectDataElementsRecursively] in H; [discriminate|].
  set (self := if hasStereotype repo element (lit "PRSB DataElement")
               then [element] else []).
  assert (Hself : (if hasStereotype repo element (lit "PRSB DataElement")
                   then collection ++ [element] else collection)
                  = collection ++ self).
  { unfold self. destruct (hasStereotype repo element _);
      [reflexivity | now rewrite app_nil_r]. }
  rewrite Hself in H.
  destruct (collectEach _ (Elements repo element) _) as [c1|] eqn:E1;
    [|discriminate].
  destruct (collectEach_collects IH _ _ E1) as (a1 & -> & H1).
  destruct (collectEach_collects IH _ _ H) as (a2 & -> & H2).
  exists (self ++ a1 ++ a2). split; [now rewrite <- !app_assoc|].
  intros x. rewrite !in_app_iff, H1, H2. split.
  - intros [Hin | [(next & Hin & Hr & Hd) | (next & Hin & Hr & Hd)]].
    + unfold self in Hin.
      destruct (hasStereotype repo element _) eqn:D; [|contradiction].
      destruct Hin as [<- | []]. split; [constructor | exact D].
    + split; [|exact Hd]. apply reach_step with next; [|exact Hr].
      unfold walked_from. apply in_or_app. now left.
    + split; [|exact Hd]. apply reach_step with next; [|exact Hr].
      unfold walked_from. apply in_or_app. now right.
  - intros [Hr Hd]. inversion Hr as [|? next ? Hin Hr']; subst.
    + left. unfold self. unfold isDataElement in Hd. rewrite Hd. now left.
    + right. unfold walked_from in Hin. apply in_app_or in Hin.
      destruct Hin as [Hin | Hin]; [left | right]; exists next;
        now repeat split.
Qed.

(** The walk returns when the depth of the tree is within the bound. *)
Lemma collect_returns (depth : ElementRef -> nat) :
  (forall element next,
     In next (walked_from repo element) -> depth next < depth element) ->
  forall fuel element collection,
    depth element < fuel ->
    collectDataElementsRecursively fuel repo element collection <> None.
Proof.
  intros Htree. induction fuel as [|fuel IH]; intros element collection Hd;
    [lia|].
  cbn [collectDataElementsRecursively].
  assert (Each : forall elements collection,
             (forall next, In next elements ->
                           In next (walked_from repo element)) ->
             collectEach (collectDataElementsRecursively fuel repo)
               elements collection <> None).
  { induction elements as [|el elements IHe]; intros coll Hin;
      cbn [collectEach]; [discriminate|].
    destruct (collectDataElementsRecursively fuel repo el coll) eqn:E.
    - apply IHe. intros next Hn. apply Hin. now right.
    - exfalso. revert E. apply IH.
      specialize (Htree element el (Hin el (or_introl eq_refl))). lia. }
  destruct (collectEach _ (Elements repo element) _) as [c1|] eqn:E1.
  - apply Each. intros next Hn. unfold walked_from. apply in_or_app.
    now right.
  - exfalso. revert E1. apply Each. intros next Hn. unfold walked_from.
    apply in_or_app. now left.
Qed.

End Walk.

(** X26: on a tree (every step of the walk goes to an element of smaller
    depth) and with the recursion bound above the depth of the root,
    findAllDataElements returns, and the elements it returns are exactly
    the elements with the stereotype PRSB DataElement that are reached from
    the root, the root included. *)
Theorem findAllDataElements_exact
  (repo : Repository) (depth : ElementRef -> nat) (fuel : nat)
  (rootElement : ElementRef) :
  (forall element next,
     In next (walked_from repo element) -> depth next < depth element) ->
  depth rootElement < fuel ->
  exists dataElements,
    findAllDataElements fuel repo rootElement = Some dataElements
    /\ forall x, In x dataElements
                 <-> reachable repo rootElement x /\ isDataElement repo x.
Proof.
  intros Htree Hfuel. unfold findAllDataElements.
  destruct (collectDataElementsRecursively fuel repo rootElement [])
    as [out|] eqn:E.
  - exists out. split; [reflexivity|].
    destruct (collect_collects repo fuel _ _ E) as (added & Hout & H).
    rewrite Hout. exact H.
  - exfalso. revert E. now apply collect_returns with depth.
Qed.

Lemma sample_tree (repo : Repository) (element next : ElementRef) :
  repo = sampleRepository \/ repo = sampleRepositoryListedTwice ->
  In next (walked_from repo element) ->
  sampleDepth next < sampleDepth element.
Proof.
  intros [-> | ->];
    destruct element as [|[|[|[|[|element]]]]]; intros H; vm_compute in H;
    repeat (destruct H as [<- | H]; [vm_compute; lia|]); contradiction.
Qed.

Lemma findAllDataElements_exact_witness :
  exists dataElements,
    findAllDataElements 3 sampleRepository 1 = Some dataElements
    /\ forall x, In x dataElements
                 <-> reachable sampleRepository 1 x
                     /\ isDataElement sampleRepository x.
Proof.
  apply findAllDataElements_exact with sampleDepth.
  - intros element next. apply sample_tree. now left.
  - vm_compute. lia.
Defined.

Section Twice.

Variable repo : Repository.

Lemma collectEach_counts
      (f : ElementRef -> list ElementRef -> option (list ElementRef))
      (elements collection out : list ElementRef) (x : ElementRef) :
  (forall element collection out,
     f element collection = Some out ->
     exists added,
       out = collection ++ added
       /\ forall x, In x added
                    <-> reachable repo element x /\ isDataElement repo x) ->
  collectEach f elements collection = Some out ->
  In x elements -> isDataElement repo x ->
  S (count_occ Nat.eq_dec collection x) <= count_occ Nat.eq_dec out x.
Proof.
  intros Hf H Hin Hd.
  destruct (collectEach_collects Hf _ _ H) as (added & -> & Ha).
  rewrite count_occ_app.
  assert (In x added).
  { apply Ha. exists x. repeat split; [exact Hin | constructor | exact Hd]. }
  pose proof (proj1 (count_occ_In Nat.eq_dec added x) H0) as C.
  unfold gt, ElementRef in *. lia.
Qed.

End Twice.

(** X27: the walk does not remove duplicates: on a tree, a data element
    that is both a child of the root and an element of the root's package
    with the root as parent is returned at least twice. *)
Theorem findAllDataElements_keeps_duplicates
  (repo : Repository) (depth : ElementRef -> nat) (fuel : nat)
  (rootElement child : ElementRef) :
  (forall element next,
     In next (walked_from repo element) -> depth next < depth element) ->
  depth rootElement < fuel ->
  In child (Elements repo rootElement) ->
  In child (PackageElements repo (PackageID repo rootElement)) ->
  ParentID repo child = rootElement ->
  isDataElement repo child ->
  exists dataElements,
    findAllDataElements fuel repo rootElement = Some dataElements
    /\ 2 <= count_occ Nat.eq_dec dataElements child.
Proof.
  intros Htree Hfuel Hchild Hpkg Hparent Hd.
  unfold findAllDataElements.
  destruct (collectDataElementsRecursively fuel repo rootElement [])
    as [out|] eqn:E;
    [|exfalso; revert E; now apply collect_returns with depth].
  exists out. split; [reflexivity|].
  destruct fuel as [|fuel]; [discriminate E|].
  cbn [collectDataElementsRecursively] in E.
  destruct (collectEach _ (Elements repo rootElement) _) as [c1|] eqn:E1;
    [|discriminate].
  pose proof (@collectEach_counts repo _ _ _ _ child
                (collect_collects repo fuel) E1 Hchild Hd) as C1.
  assert (Hin : In child
                  (filter (fun packageElement =>
                             Nat.eqb (ParentID repo packageElement)
                               rootElement)
                     (PackageElements repo (PackageID repo rootElement)))).
  { apply filter_In. split; [exact Hpkg | now apply Nat.eqb_eq]. }
  pose proof (@collectEach_counts repo _ _ _ _ child
                (collect_collects repo fuel) E Hin Hd) as C2.
  unfold ElementRef in *. lia.
Qed.

Lemma findAllDataElements_keeps_duplicates_witness :
  exists dataElements,
    findAllDataElements 3 sampleRepositoryListedTwice 1 = Some dataElements
    /\ 2 <= count_occ Nat.eq_dec dataElements 2.
Proof.
  apply findAllDataElements_keeps_duplicates with sampleDepth.
  - intros element next. apply sample_tree. now right.
  - vm_compute. lia.
  - now left.
  - right. now left.
  - reflexivity.
  - reflexivity.
Defined.

(** ** main *)

(** On the cyclic sample the walk from the standard does not return,
    however deep the engine lets it go. *)
Lemma cyclic_walk_never_returns (fuel : nat) :
  forall collection,
    collectDataElementsRecursively fuel sampleRepositoryCyclic 1 collection
    = None.
Proof.
  induction fuel as [|fuel IH]; intros collection; [reflexivity|].
  cbn [collectDataElementsRecursively].
  change (Elements sampleRepositoryCyclic 1) with [2; 1].
  cbn [collectEach].
  destruct (collectDataElementsRecursively fuel sampleRepositoryCyclic 2 _);
    [|reflexivity].
  now rewrite IH.
Qed.

(** X28: main returns normally whatever is selected and dispatches on the
    first stereotype found, in the order DataElement, Standard, Model.  It
    processes the selected element alone, or every element that
    findAllDataElements or findDataElementsInModel returns on the tree.
    With no selection or none of the three stereotypes it changes nothing.
    When the search does not return, the handler of main counts one error
    and nothing else changes. *)
Theorem main_dispatch
  (conversionConfig : Config) (today : jsstring)
  (refuses : ElementRef -> jsstring -> bool)
  (fuel : nat) (repo : Repository) (selection : option ElementRef)
  (w : World) :
  let run := main conversionConfig today refuses fuel repo selection w in
  let processed (search : option (list ElementRef)) :=
    match search with
    | Some dataElements => List.length dataElements
    | None => 0
    end in
  fst run = Ok tt
  /\ elementsProcessed (conversionCounter (snd run))
     = elementsProcessed (conversionCounter w)
       + match selection with
         | None => 0
         | Some selectedElement =>
             if hasStereotype repo selectedElement (lit "PRSB DataElement")
             then 1
             else if hasStereotype repo selectedElement (lit "PRSB Standard")
             then processed (findAllDataElements fuel repo selectedElement)
             else if hasStereotype repo selectedElement (lit "PRSB Model")
             then processed (findDataElementsInModel fuel repo selectedElement)
             else 0
         end
  /\ (match selection with
      | None => True
      | Some selectedElement =>
          hasStereotype repo selectedElement (lit "PRSB DataElement") = false
          /\ hasStereotype repo selectedElement (lit "PRSB Standard") = false
          /\ hasStereotype repo selectedElement (lit "PRSB Model") = false
      end -> snd run = w)
  /\ (match selection with
      | None => False
      | Some selectedElement =>
          hasStereotype repo selectedElement (lit "PRSB DataElement") = false
          /\ ((hasStereotype repo selectedElement (lit "PRSB Standard") = true
               /\ findAllDataElements fuel repo selectedElement = None)
              \/ (hasStereotype repo selectedElement (lit "PRSB Standard")
                  = false
                  /\ hasStereotype repo selectedElement (lit "PRSB Model")
                     = true
                  /\ findDataElementsInModel fuel repo selectedElement
                     = None))
      end ->
      snd run = mkWorld (incErrors (conversionCounter w)) (taggedValues w)).
Proof.
  intros run processed. unfold run, main, try_catch.
  destruct selection as [selectedElement|];
    [|cbn; split; [reflexivity | split; [lia | split; [reflexivity|]]];
      intros []].
  destruct (hasStereotype repo selectedElement (lit "PRSB DataElement")).
  { destruct (convertSingle_returns conversionConfig today refuses
                selectedElement w) as [Hr Hp].
    destruct (convertSingleDataElement _ _ _ _ w) as [[[]|e] w1];
      cbn [fst snd] in *; [|discriminate].
    split; [reflexivity|]. split; [lia|].
    split; [intros (H & _); discriminate | intros ([=] & _)]. }
  destruct (hasStereotype repo selectedElement (lit "PRSB Standard")).
  { unfold onSearch, convertAllDataElementsInStandard.
    destruct (findAllDataElements fuel repo selectedElement)
      as [found|]; cbn [processed].
    - destruct (convertAll_returns conversionConfig today refuses found w)
        as [Hr Hp].
      split; [|split; [|split]].
      + destruct found; [reflexivity|]. cbn [List.length Nat.eqb].
        destruct (forEachDataElement _ _ _ _ w) as [[[]|ex] w1];
          cbn [fst snd] in *; [reflexivity | discriminate].
      + destruct found; [cbn; lia|]. cbn [List.length Nat.eqb].
        destruct (forEachDataElement _ _ _ _ w) as [[[]|ex] w1];
          cbn [fst snd] in *; [exact Hp | discriminate].
      + intros (_ & H & _); discriminate.
      + intros (_ & [(_ & [=]) | ([=] & _)]).
    - cbn. split; [reflexivity|]. split; [lia|].
      split; [intros (_ & H & _); discriminate | reflexivity]. }
  destruct (hasStereotype repo selectedElement (lit "PRSB Model")).
  { unfold onSearch, convertAllDataElementsInModel.
    destruct (findDataElementsInModel fuel repo selectedElement)
      as [found|]; cbn [processed].
    - destruct (convertAll_returns conversionConfig today refuses found w)
        as [Hr Hp].
      split; [|split; [|split]].
      + destruct found; [reflexivity|]. cbn [List.length Nat.eqb].
        destruct (forEachDataElement _ _ _ _ w) as [[[]|ex] w1];
          cbn [fst snd] in *; [reflexivity | discriminate].
      + destruct found; [cbn; lia|]. cbn [List.length Nat.eqb].
        destruct (forEachDataElement _ _ _ _ w) as [[[]|ex] w1];
          cbn [fst snd] in *; [exact Hp | discriminate].
      + intros (_ & _ & H); discriminate.
      + intros (_ & [([=] & _) | (_ & _ & [=])]).
    - cbn. split; [reflexivity|]. split; [lia|].
      split; [intros (_ & _ & H); discriminate | reflexivity]. }
  cbn. split; [reflexivity|]. split; [lia|]. split; [reflexivity|].
  intros (_ & [([=] & _) | (_ & [=] & _)]).
Qed.

(** A standard that contains itself: main returns, with one error
    counted and no element processed. *)
Lemma main_dispatch_witness :
  let run := main defaultConfig (lit "2024-12-19") neverRefuses 64
               sampleRepositoryCyclic (Some 1) (worldWith []) in
  fst run = Ok tt
  /\ errors (conversionCounter (snd run)) = 1
  /\ elementsProcessed (conversionCounter (snd run)) = 0.
Proof.
  intros run.
  destruct (@main_dispatch defaultConfig (lit "2024-12-19") neverRefuses 64
              sampleRepositoryCyclic (Some 1) (worldWith []))
    as (Hr & _ & _ & He).
  fold run in Hr, He.
  split; [exact Hr|].
  rewrite (He (conj eq_refl
                 (or_introl
                    (conj eq_refl (cyclic_walk_never_returns 64 []))))).
  split; reflexivity.
Defined.
